(** * Stooq quote fetcher: the parser, the validator and the orchestrator

    A shallow embedding of [src/stooq/parse.js], [src/stooq/playwright.js]
    and [bin/stooq-quote.js].

    JavaScript strings are sequences of code units.  They are modelled by
    Rocq strings, one [ascii] per code unit, which covers the code units
    below 256; every character the program tests for ([<], [>], quotes,
    digits, suffix letters, the comma, the percent sign, parentheses) lies in
    that range.  JavaScript numbers are IEEE 754 binary64 values and are
    modelled by [spec_float] at precision 53 and maximal exponent 1024. *)

From Stdlib Require Import String Ascii List ZArith NArith Bool Lia.
From Stdlib Require Import DecimalString.
From Stdlib Require Import Floats.
From stdpp Require Import base list.
Import ListNotations.

Local Open Scope string_scope.
Set Warnings "-inexact-float".

(** ** Code units and the string primitives the program calls *)

Module JS.

Definition code (c : ascii) : nat := nat_of_ascii c.

Definition between (lo hi : nat) (c : ascii) : bool :=
  (lo <=? code c)%nat && (code c <=? hi)%nat.

(** [WhiteSpace] and [LineTerminator] below 256: TAB, LF, VT, FF, CR, SP and
    NBSP.  This is the set of [String.prototype.trim], of [\s] and of
    [StrWhiteSpaceChar]. *)
Definition isWhite (c : ascii) : bool :=
  between 9 13 c || (code c =? 32)%nat || (code c =? 160)%nat.

Definition isDigit (c : ascii) : bool := between 48 57 c.

(** [\w] without the unicode flag: letters, digits and the underscore. *)
Definition isWordChar (c : ascii) : bool :=
  between 97 122 c || between 65 90 c || isDigit c || (code c =? 95)%nat.

(** [Canonicalize] of a case-insensitive, non-unicode regular expression:
    the upper-case form when that is a single code unit.  Below 256 this
    moves a-z and the accented lower-case letters (224..254 but the division
    sign 247) down by 32.  The micro sign and y-diaeresis have upper-case
    forms above 255 that no other code unit below 256 shares, so leaving them
    fixed identifies the same pairs of code units. *)
Definition canon (c : ascii) : ascii :=
  if between 97 122 c || (between 224 254 c && negb (code c =? 247)%nat)
  then ascii_of_nat (code c - 32) else c.

(** [String.prototype.toLowerCase] on one code unit below 256. *)
Definition lowerChar (c : ascii) : ascii :=
  if between 65 90 c || (between 192 222 c && negb (code c =? 215)%nat)
  then ascii_of_nat (code c + 32) else c.

Fixpoint toLowerCase (s : string) : string :=
  match s with
  | EmptyString => EmptyString
  | String c s' => String (lowerChar c) (toLowerCase s')
  end.

Fixpoint rev (s : string) : string :=
  match s with
  | EmptyString => EmptyString
  | String c s' => rev s' ++ String c EmptyString
  end.

Fixpoint trimStart (s : string) : string :=
  match s with
  | String c s' => if isWhite c then trimStart s' else s
  | EmptyString => EmptyString
  end.

Definition trimEnd (s : string) : string := rev (trimStart (rev s)).

Definition trim (s : string) : string := trimEnd (trimStart s).

Definition isEmpty (s : string) : bool :=
  match s with EmptyString => true | _ => false end.

Definition startsWith (s p : string) : bool := String.prefix p s.

Definition endsWith (s p : string) : bool := String.prefix (rev p) (rev s).

(** [s.slice(a, b)]: a negative index counts from the end, both ends are
    clamped to the string and an empty range gives the empty string. *)
Definition sliceIndex (len : nat) (i : Z) : nat :=
  if (i <? 0)%Z then Z.to_nat (Z.max 0 (Z.of_nat len + i))
  else Nat.min len (Z.to_nat i).

Definition slice (s : string) (a b : Z) : string :=
  let len := String.length s in
  let from := sliceIndex len a in
  let to := sliceIndex len b in
  String.substring from (to - from) s.

(** Removes every comma and white-space character, as the global
    replacement in [parseNumberLoose] does. *)
Fixpoint stripCommasAndSpace (s : string) : string :=
  match s with
  | EmptyString => EmptyString
  | String c s' =>
      if (code c =? 44)%nat || isWhite c then stripCommasAndSpace s'
      else String c (stripCommasAndSpace s')
  end.

End JS.

(** ** Numbers: binary64 and [Number(string)] *)

Module Num.

Definition prec : Z := 53.
Definition emax : Z := 1024.

Definition num : Type := spec_float.

Definition isFinite (x : num) : bool :=
  match x with
  | S754_zero _ | S754_finite _ _ _ => true
  | S754_infinity _ | S754_nan => false
  end.

Definition mul (x y : num) : num := SFmul prec emax x y.

(** The binary64 value of an integer. *)
Definition ofZ (z : Z) : num := binary_normalize prec emax z 0 false.

(** The binary64 value nearest to [m * 10^e10] (ties to even), with sign
    [neg]; a zero mantissa keeps the sign, as [-0] does. *)
Definition roundDecimal (neg : bool) (m : N) (e10 : Z) : num :=
  match m with
  | N0 => S754_zero neg
  | Npos p =>
      match e10 with
      | Zneg k =>
          let '(q, e, l) :=
            SFdiv_core_binary prec emax (Zpos p) 0 (Z.pow 10 (Zpos k)) 0 in
          binary_round_aux prec emax neg q e l
      | _ =>
          match (Zpos p * Z.pow 10 e10)%Z with
          | Zpos q => binary_round prec emax neg q 0
          | _ => S754_nan
          end
      end
  end.

Definition digitVal (c : ascii) : N := N.of_nat (JS.code c - 48).

(** The value of a run of decimal digits, most significant first. *)
Fixpoint digitsVal (acc : N) (s : string) : N :=
  match s with
  | EmptyString => acc
  | String c s' => digitsVal (acc * 10 + digitVal c) s'
  end.

(** Splits the longest prefix of characters satisfying [p] off [s]. *)
Fixpoint span (p : ascii -> bool) (s : string) : string * string :=
  match s with
  | String c s' =>
      if p c then let '(a, b) := span p s' in (String c a, b)
      else (EmptyString, s)
  | EmptyString => (EmptyString, EmptyString)
  end.

Definition hexVal (c : ascii) : option N :=
  if JS.isDigit c then Some (digitVal c)
  else if JS.between 97 102 c then Some (N.of_nat (JS.code c - 87))
  else if JS.between 65 70 c then Some (N.of_nat (JS.code c - 55))
  else None.

(** Digits of a [NonDecimalIntegerLiteral] in the given radix; [None] when a
    character is not a digit of that radix. *)
Fixpoint radixVal (radix : N) (acc : N) (s : string) : option N :=
  match s with
  | EmptyString => Some acc
  | String c s' =>
      match hexVal c with
      | Some d => if (d <? radix)%N then radixVal radix (acc * radix + d) s'
                  else None
      | None => None
      end
  end.

(** [0x], [0o] and [0b] literals (either case of the letter, at least one
    digit, no sign). *)
Definition nonDecimal (t : string) : option N :=
  match t with
  | String "0" (String r (String c ds)) =>
      let body := String c ds in
      if (JS.code r =? 120)%nat || (JS.code r =? 88)%nat then radixVal 16 0 body
      else if (JS.code r =? 111)%nat || (JS.code r =? 79)%nat then radixVal 8 0 body
      else if (JS.code r =? 98)%nat || (JS.code r =? 66)%nat then radixVal 2 0 body
      else None
  | _ => None
  end.

(** [ExponentPart]: [e] or [E], an optional sign and at least one digit, up
    to the end of the text.  No exponent part is exponent 0. *)
Definition exponentPart (s : string) : option Z :=
  match s with
  | EmptyString => Some 0%Z
  | String c s' =>
      if (JS.code c =? 101)%nat || (JS.code c =? 69)%nat then
        let '(neg, ds) :=
          match s' with
          | String "-" r => (true, r)
          | String "+" r => (false, r)
          | _ => (false, s')
          end in
        let '(d, rest) := span JS.isDigit ds in
        if JS.isEmpty d || negb (JS.isEmpty rest) then None
        else let v := Z.of_N (digitsVal 0 d) in
             Some (if neg then (- v)%Z else v)
      else None
  end.

(** [StrUnsignedDecimalLiteral] other than [Infinity]: digits with an
    optional fraction, or a fraction that starts with the point; then the
    optional exponent. *)
Definition unsignedDecimal (neg : bool) (s : string) : option num :=
  let '(ip, r1) := span JS.isDigit s in
  let '(fp, r2, dot) :=
    match r1 with
    | String "." r => let '(f, r') := span JS.isDigit r in (f, r', true)
    | _ => (EmptyString, r1, false)
    end in
  if JS.isEmpty ip && JS.isEmpty fp then None
  else
    match exponentPart r2 with
    | Some e =>
        Some (roundDecimal neg (digitsVal 0 (ip ++ fp))
                (e - Z.of_nat (String.length fp)))
    | None => None
    end.

Definition strDecimal (t : string) : option num :=
  let '(neg, u) :=
    match t with
    | String "-" r => (true, r)
    | String "+" r => (false, r)
    | _ => (false, t)
    end in
  if String.eqb u "Infinity" then Some (S754_infinity neg)
  else unsignedDecimal neg u.

(** [Number(s)] on a string: [StringToNumber]. *)
Definition Number (s : string) : num :=
  let t := JS.trim s in
  if JS.isEmpty t then S754_zero false
  else
    match nonDecimal t with
    | Some n => ofZ (Z.of_N n)
    | None =>
        match strDecimal t with
        | Some v => v
        | None => S754_nan
        end
    end.

End Num.

(** ** Regular expressions: a backtracking matcher

    The two patterns of [parse.js] use literal characters, character
    classes, greedy [?] and [*], one level of groups, [\b], [^] and [$].
    The matcher below follows the priority order of the JavaScript semantics:
    a greedy quantifier first tries to take one more repetition and falls
    back to the continuation only when that fails. *)

Module Regex.

Record cclass : Type := { negated : bool; members : string }.

Inductive re : Type :=
  | Eps
  | Chr (c : ascii)
  | One (cl : cclass)
  | Many (cl : cclass)
  | Opt (r : re)
  | Cat (r1 r2 : re)
  | Grp (r : re)
  | WordB
  | Bol
  | Eol.

(** Character equality, through [Canonicalize] under the [i] flag. *)
Definition eqc (ic : bool) (a b : ascii) : bool :=
  if ic then Ascii.eqb (JS.canon a) (JS.canon b) else Ascii.eqb a b.

Fixpoint mem (ic : bool) (a : ascii) (cs : string) : bool :=
  match cs with
  | EmptyString => false
  | String c cs' => eqc ic c a || mem ic a cs'
  end.

Definition inClass (ic : bool) (cl : cclass) (a : ascii) : bool :=
  xorb (negated cl) (mem ic a (members cl)).

Definition isWordAt (c : option ascii) : bool :=
  match c with Some a => JS.isWordChar a | None => false end.

Definition head (s : string) : option ascii :=
  match s with String a _ => Some a | EmptyString => None end.

(** The text between two positions, the second given by what is left. *)
Definition consumed (s rest : string) : string :=
  String.substring 0 (String.length s - String.length rest) s.

(** A continuation receives the character before the current position, the
    rest of the input and the captures closed so far. *)
Definition cont (A : Type) : Type :=
  option ascii -> string -> list string -> option A.

Fixpoint many {A} (ic : bool) (cl : cclass) (prev : option ascii)
    (s : string) (caps : list string) (k : cont A) : option A :=
  match s with
  | String a s' =>
      if inClass ic cl a then
        match many ic cl (Some a) s' caps k with
        | Some x => Some x
        | None => k prev s caps
        end
      else k prev s caps
  | EmptyString => k prev s caps
  end.

Fixpoint run {A} (ic : bool) (r : re) (prev : option ascii) (s : string)
    (caps : list string) (k : cont A) : option A :=
  match r with
  | Eps => k prev s caps
  | Chr c =>
      match s with
      | String a s' => if eqc ic a c then k (Some a) s' caps else None
      | EmptyString => None
      end
  | One cl =>
      match s with
      | String a s' => if inClass ic cl a then k (Some a) s' caps else None
      | EmptyString => None
      end
  | Many cl => many ic cl prev s caps k
  | Opt r1 =>
      match run ic r1 prev s caps k with
      | Some x => Some x
      | None => k prev s caps
      end
  | Cat r1 r2 =>
      run ic r1 prev s caps (fun p1 s1 c1 => run ic r2 p1 s1 c1 k)
  | Grp r1 =>
      run ic r1 prev s caps
        (fun p1 s1 c1 => k p1 s1 (c1 ++ [consumed s s1])%list)
  | WordB =>
      if xorb (isWordAt prev) (isWordAt (head s)) then k prev s caps else None
  | Bol => match prev with None => k prev s caps | Some _ => None end
  | Eol => match s with EmptyString => k prev s caps | _ => None end
  end.

(** A successful match: the captures, and where the input continues. *)
Record result : Type := { groups : list string; before : option ascii; rest : string }.

Definition matchHere (ic : bool) (r : re) (prev : option ascii) (s : string)
  : option result :=
  run ic r prev s [] (fun p s' c => Some {| groups := c; before := p; rest := s' |}).

(** [re.exec]: the leftmost position at or after the current one where the
    pattern matches. *)
Fixpoint search (ic : bool) (r : re) (prev : option ascii) (s : string)
  : option result :=
  match matchHere ic r prev s with
  | Some m => Some m
  | None =>
      match s with
      | String a s' => search ic r (Some a) s'
      | EmptyString => None
      end
  end.

(** [m[i]] for [i >= 1]. *)
Definition group (i : nat) (m : result) : string := nth (i - 1) (groups m) EmptyString.

(** A sequence of literal characters. *)
Fixpoint lits (s : string) : re :=
  match s with
  | EmptyString => Eps
  | String c s' => Cat (Chr c) (lits s')
  end.

Definition isSyntaxChar (c : ascii) : bool :=
  mem false c ".*+?^${}()|[]\".

(** The pattern source read back as a sequence of literals: a backslash
    before a syntax character is an identity escape, any other character
    stands for itself, and an unescaped syntax character is not a literal. *)
Fixpoint literalPattern (src : string) : option string :=
  match src with
  | EmptyString => Some EmptyString
  | String c r =>
      if Ascii.eqb c "\" then
        match r with
        | String d r' =>
            if isSyntaxChar d then option_map (String d) (literalPattern r')
            else None
        | EmptyString => None
        end
      else if isSyntaxChar c then None
      else option_map (String c) (literalPattern r)
  end.

End Regex.

(** ** [src/stooq/parse.js] *)

Import Regex.

(** Puts a backslash before every syntax character. *)
Fixpoint escapeRegExp (s : string) : string :=
  match s with
  | EmptyString => EmptyString
  | String c s' =>
      if isSyntaxChar c then String "\" (String c (escapeRegExp s'))
      else String c (escapeRegExp s')
  end.

Definition quoteClass : cclass :=
  {| negated := false; members := String "034" (String "'" EmptyString) |}.
Definition notGt : cclass := {| negated := true; members := ">" |}.
Definition notLt : cclass := {| negated := true; members := "<" |}.

(** The pattern of [extractTextById] around the literals of the key: a word
    boundary, [id=], an optional quote, the key, an optional quote, any
    characters but [>], a [>], the captured run of characters other than [<],
    and a [<]. *)
Definition idPattern (key : string) : re :=
  Cat WordB (Cat (lits "id=")
    (Cat (Opt (One quoteClass)) (Cat (lits key) (Cat (Opt (One quoteClass))
      (Cat (Many notGt) (Cat (Chr ">") (Cat (Grp (Many notLt)) (Chr "<")))))))).

(** [new RegExp(..., "ig")] on the escaped key.  [None] stands for a
    [SyntaxError], which [escapeRegExp] rules out (see
    [literalPattern_escapeRegExp]). *)
Definition idRegExp (id : string) : option re :=
  option_map idPattern (literalPattern (escapeRegExp id)).

(** The [while ((m = re.exec(html)) !== null) last = m[1]] loop; each
    [exec] resumes where the previous match ended. *)
Fixpoint execLoop (fuel : nat) (r : re) (prev : option ascii) (s : string)
    (last : option string) : option string :=
  match fuel with
  | O => last
  | S fuel' =>
      match search true r prev s with
      | Some m => execLoop fuel' r (before m) (rest m) (Some (group 1 m))
      | None => last
      end
  end.

Definition extractTextById (html id : string) : option string :=
  match idRegExp id with
  | Some r =>
      match execLoop (S (String.length html)) r None html None with
      | None => None
      | Some last =>
          let v := JS.trim last in
          Some (if JS.isEmpty v then EmptyString else v)
      end
  | None => None
  end.

Definition signClass : cclass := {| negated := false; members := "+-" |}.
Definition digitClass : cclass := {| negated := false; members := "0123456789" |}.
Definition unitClass : cclass := {| negated := false; members := "kKmMgGbB" |}.

(** The suffix pattern of [parseNumberLoose]: from the start, group 1 is an
    optional sign, digits and an optional point with digits; group 2 is one
    of [kKmMgGbB]; then the end of the text. *)
Definition unitRegExp : re :=
  Cat Bol
    (Cat (Grp (Cat (Opt (One signClass)) (Cat (One digitClass) (Cat (Many digitClass)
            (Opt (Cat (Chr ".") (Cat (One digitClass) (Many digitClass))))))))
      (Cat (Grp (One unitClass)) Eol)).

Definition parseNumberLoose (s : option string) : option Num.num :=
  match s with
  | None => None
  | Some s =>
      let t := JS.trim s in
      if JS.isEmpty t then None
      else
        match search false unitRegExp None t with
        | Some km =>
            let n := Num.Number (group 1 km) in
            let unit := JS.toLowerCase (group 2 km) in
            let mult :=
              if String.eqb unit "k" then Num.ofZ 1000
              else if String.eqb unit "m" then Num.ofZ 1000000
              else Num.ofZ 1000000000 in
            if Num.isFinite n then Some (Num.mul n mult) else None
        | None =>
            let normalized := JS.stripCommasAndSpace t in
            let n := Num.Number normalized in
            if Num.isFinite n then Some n else None
        end
  end.

Definition parsePctLoose (s : option string) : option Num.num :=
  match s with
  | None => None
  | Some s =>
      let t := JS.trim s in
      if JS.isEmpty t then None
      else
        let t := if JS.startsWith t "(" && JS.endsWith t ")"
                 then JS.slice t 1 (-1) else t in
        let t := if JS.endsWith t "%" then JS.slice t 0 (-1) else t in
        parseNumberLoose (Some t)
  end.

(** *** The quote record *)

(** The text of each field as extracted; [None] is [null] (or a property
    that is not there). *)
Record RawFields : Type := {
  raw_last : option string;
  raw_last_id : option string;
  raw_date : option string;
  raw_time : option string;
  raw_change : option string;
  raw_change_pct : option string;
  raw_high : option string;
  raw_low : option string;
  raw_open : option string;
  raw_prev : option string;
  raw_volume : option string;
  raw_turnover : option string
}.

Record Quote : Type := {
  symbol : string;
  last : option Num.num;
  date : option string;
  time : option string;
  updated_at : option string;
  change : option Num.num;
  change_pct : option Num.num;
  high : option Num.num;
  low : option Num.num;
  open : option Num.num;
  prev : option Num.num;
  volume : option Num.num;
  turnover : option Num.num;
  raw : RawFields
}.

(** The values a property read [q[k]] can give. *)
Inductive value : Type :=
  | VUndefined
  | VNull
  | VNum (n : Num.num)
  | VStr (s : string)
  | VRaw (r : RawFields).

Definition ofNum (o : option Num.num) : value :=
  match o with Some n => VNum n | None => VNull end.

Definition ofStr (o : option string) : value :=
  match o with Some s => VStr s | None => VNull end.

(** [q[k]] *)
Definition getField (q : Quote) (k : string) : value :=
  if String.eqb k "symbol" then VStr (symbol q)
  else if String.eqb k "last" then ofNum (last q)
  else if String.eqb k "date" then ofStr (date q)
  else if String.eqb k "time" then ofStr (time q)
  else if String.eqb k "updated_at" then ofStr (updated_at q)
  else if String.eqb k "change" then ofNum (change q)
  else if String.eqb k "change_pct" then ofNum (change_pct q)
  else if String.eqb k "high" then ofNum (high q)
  else if String.eqb k "low" then ofNum (low q)
  else if String.eqb k "open" then ofNum (open q)
  else if String.eqb k "prev" then ofNum (prev q)
  else if String.eqb k "volume" then ofNum (volume q)
  else if String.eqb k "turnover" then ofNum (turnover q)
  else if String.eqb k "raw" then VRaw (raw q)
  else VUndefined.

(** [v == null] *)
Definition isNullish (v : value) : bool :=
  match v with VUndefined | VNull => true | _ => false end.

(** A string or [null] in a boolean position: the empty string is falsy. *)
Definition truthy (o : option string) : bool :=
  match o with Some s => negb (JS.isEmpty s) | None => false end.

(** [x || null] *)
Definition orNull (o : option string) : option string :=
  if truthy o then o else None.

(** [a && b ? `${a} ${b}` : null] *)
Definition joinDateTime (d t : option string) : option string :=
  match d, t with
  | Some d', Some t' =>
      if truthy d && truthy t then Some (d' ++ " " ++ t') else None
  | _, _ => None
  end.

Definition digitChar (d : nat) : string :=
  String (ascii_of_nat (48 + d)) EmptyString.

Definition lastIdCandidates (sym : string) : list string :=
  map (fun d => "aq_" ++ sym ++ "_c" ++ digitChar d ++ "|3")
    [2; 0; 3; 1; 4; 5; 6; 7; 8; 9]%nat.

(** The candidate loop of [parseQuoteHtml]: the pair [(lastId, lastRaw)]. *)
Fixpoint firstCandidate (html : string) (ids : list string)
  : option string * option string :=
  match ids with
  | [] => (None, None)
  | id :: ids' =>
      match extractTextById html id with
      | Some v => (Some id, Some v)
      | None => firstCandidate html ids'
      end
  end.

Definition parseQuoteHtml (html symbol : string) : Quote :=
  let sym := JS.toLowerCase symbol in
  let '(lastId, lastRaw) := firstCandidate html (lastIdCandidates sym) in
  let field code := extractTextById html ("aq_" ++ sym ++ code) in
  let raw :=
    {| raw_last := lastRaw;
       raw_last_id := lastId;
       raw_date := field "_d2";
       raw_time := field "_t1";
       raw_change := field "_m2";
       raw_change_pct := field "_m3";
       raw_high := field "_h";
       raw_low := field "_l";
       raw_open := field "_o";
       raw_prev := field "_p";
       raw_volume := field "_v2";
       raw_turnover := field "_r2" |} in
  {| symbol := sym;
     last := parseNumberLoose (raw_last raw);
     date := orNull (raw_date raw);
     time := orNull (raw_time raw);
     updated_at := joinDateTime (raw_date raw) (raw_time raw);
     change := parseNumberLoose (raw_change raw);
     change_pct := parsePctLoose (raw_change_pct raw);
     high := parseNumberLoose (raw_high raw);
     low := parseNumberLoose (raw_low raw);
     open := parseNumberLoose (raw_open raw);
     prev := parseNumberLoose (raw_prev raw);
     volume := parseNumberLoose (raw_volume raw);
     turnover := parseNumberLoose (raw_turnover raw);
     raw := raw |}.

Definition required : list string :=
  ["last"; "date"; "time"; "change"; "change_pct"; "high"; "low"; "open"; "prev"].

(** The loop returns [false] at the first nullish required field. *)
Fixpoint allPresent (q : Quote) (ks : list string) : bool :=
  match ks with
  | [] => true
  | k :: ks' => if isNullish (getField q k) then false else allPresent q ks'
  end.

Definition validateParsedQuote (q : Quote) : bool := allPresent q required.

(** ** Effects: the network, the browser and what the program does with them

    The asynchronous functions run their steps in order; a computation is a
    function from the log of external calls made so far to an outcome and
    the extended log.  What each external call answers is fixed by an
    environment. *)

Inductive error : Type :=
  | HttpStatus (status : nat)
  | MissingFields (mode : string)
  | External (msg : string).

Inductive outcome (A : Type) : Type :=
  | Ok (a : A)
  | Throw (e : error).
Arguments Ok {A} a.
Arguments Throw {A} e.

Inductive event : Type :=
  | EvFetch (url : string)
  | EvReadBody
  | EvLaunch
  | EvNewPage
  | EvGoto (url : string)
  | EvEvaluate
  | EvPageClose
  | EvBrowserClose.

Definition M (A : Type) : Type := list event -> outcome A * list event.

Definition ret {A} (a : A) : M A := fun log => (Ok a, log).

Definition throw {A} (e : error) : M A := fun log => (Throw e, log).

Definition bind {A B} (m : M A) (f : A -> M B) : M B :=
  fun log =>
    match m log with
    | (Ok a, log') => f a log'
    | (Throw e, log') => (Throw e, log')
    end.

Notation "'let*' x ':=' m 'in' k" := (bind m (fun x => k))
  (at level 10, x name, m at level 100, k at level 200).
Notation "'do' m 'then' k" := (bind m (fun _ => k))
  (at level 10, m at level 100, k at level 200).

(** An awaited external call: it is logged and answers as the environment
    says. *)
Definition call {A} (ev : event) (answer : outcome A) : M A :=
  fun log => (answer, (log ++ [ev])%list).

(** [try { m } catch (e) { h e }] *)
Definition tryCatch {A} (m : M A) (h : error -> M A) : M A :=
  fun log =>
    match m log with
    | (Ok a, log') => (Ok a, log')
    | (Throw e, log') => h e log'
    end.

(** [try { m } finally { fin }]: [fin] runs on both exits and, when it
    throws, its error replaces the outcome of [m]. *)
Definition tryFinally {A} (m : M A) (fin : M unit) : M A :=
  fun log =>
    match m log with
    | (r, log') =>
        match fin log' with
        | (Ok _, log'') => (r, log'')
        | (Throw e, log'') => (Throw e, log'')
        end
    end.

(** [await p.catch(() => {})] *)
Definition swallow (m : M unit) : M unit := tryCatch m (fun _ => ret tt).

(** What the page holds: the text content of the element with a given id. *)
Definition dom : Type := string -> option string.

Record response : Type := { status : nat; body : outcome string }.

Definition ok (r : response) : bool :=
  (200 <=? status r)%nat && (status r <=? 299)%nat.

Record Env : Type := {
  env_fetch : string -> N -> outcome response;
  env_launch : outcome unit;
  env_newPage : outcome unit;
  env_goto : string -> N -> outcome unit;
  env_page : outcome dom;
  env_pageClose : outcome unit;
  env_browserClose : outcome unit
}.

(** The function run inside the page by [page.evaluate]. *)
Fixpoint firstElement (d : dom) (ids : list string)
  : option string * option string :=
  match ids with
  | [] => (None, None)
  | id :: ids' =>
      match d id with
      | Some text => (Some id, Some (JS.trim text))
      | None => firstElement d ids'
      end
  end.

Definition pageScript (d : dom) (s : string) : RawFields :=
  let sym := JS.toLowerCase s in
  let '(last_id, last) := firstElement d (lastIdCandidates sym) in
  let field code := option_map JS.trim (d ("aq_" ++ sym ++ code)) in
  {| raw_last := last;
     raw_last_id := last_id;
     raw_date := field "_d2";
     raw_time := field "_t1";
     raw_change := field "_m2";
     raw_change_pct := field "_m3";
     raw_high := field "_h";
     raw_low := field "_l";
     raw_open := field "_o";
     raw_prev := field "_p";
     raw_volume := field "_v2";
     raw_turnover := field "_r2" |}.

Section Orchestrator.

Variable encodeURIComponent : string -> string.
Variable env : Env.

Definition quoteUrl (symbol : string) : string :=
  "https://stooq.com/q/?s=" ++ encodeURIComponent (JS.toLowerCase symbol).

(** [src/stooq/http.js]; the timer that aborts the request after
    [timeoutMs] is part of what [fetch] answers, and clearing it in the
    [finally] has no effect that is modelled. *)
Definition fetchQuoteHtml (symbol : string) (timeoutMs : N) : M string :=
  let url := quoteUrl symbol in
  tryFinally
    (let* res := call (EvFetch url) (env_fetch env url timeoutMs) in
     if ok res then call EvReadBody (body res)
     else throw (HttpStatus (status res)))
    (ret tt).

(** [src/stooq/playwright.js]; [headless] only configures the launch.  The
    launch and the new page come before the [try]. *)
Definition fetchQuoteViaPlaywright (symbol : string) (timeoutMs : N)
  : M RawFields :=
  let sym := JS.toLowerCase symbol in
  let url := quoteUrl symbol in
  do call EvLaunch (env_launch env) then
  do call EvNewPage (env_newPage env) then
  tryFinally
    (do call (EvGoto url) (env_goto env url timeoutMs) then
     let* d := call EvEvaluate (env_page env) in
     ret (pageScript d sym))
    (do swallow (call EvPageClose (env_pageClose env)) then
     swallow (call EvBrowserClose (env_browserClose env))).

(** [bin/stooq-quote.js]; [raw || {}] gives an object without fields when
    there is no raw object, and the copy under [raw] has no [last_id]. *)
Definition buildQuoteFromPlaywrightRaw (symbol : string) (raw : option RawFields)
  : Quote :=
  let sym := JS.toLowerCase symbol in
  let r :=
    match raw with
    | Some r => r
    | None =>
        {| raw_last := None; raw_last_id := None; raw_date := None;
           raw_time := None; raw_change := None; raw_change_pct := None;
           raw_high := None; raw_low := None; raw_open := None;
           raw_prev := None; raw_volume := None; raw_turnover := None |}
    end in
  {| symbol := sym;
     last := parseNumberLoose (raw_last r);
     date := orNull (raw_date r);
     time := orNull (raw_time r);
     updated_at := joinDateTime (raw_date r) (raw_time r);
     change := parseNumberLoose (raw_change r);
     change_pct := parsePctLoose (raw_change_pct r);
     high := parseNumberLoose (raw_high r);
     low := parseNumberLoose (raw_low r);
     open := parseNumberLoose (raw_open r);
     prev := parseNumberLoose (raw_prev r);
     volume := parseNumberLoose (raw_volume r);
     turnover := parseNumberLoose (raw_turnover r);
     raw :=
       {| raw_last := raw_last r;
          raw_last_id := None;
          raw_date := raw_date r;
          raw_time := raw_time r;
          raw_change := raw_change r;
          raw_change_pct := raw_change_pct r;
          raw_high := raw_high r;
          raw_low := raw_low r;
          raw_open := raw_open r;
          raw_prev := raw_prev r;
          raw_volume := raw_volume r;
          raw_turnover := raw_turnover r |} |}.

Definition fetchOne (symbol mode : string) (timeoutMs : N) : M Quote :=
  if String.eqb mode "http" then
    let* html := fetchQuoteHtml symbol timeoutMs in
    let q := parseQuoteHtml html symbol in
    if validateParsedQuote q then ret q else throw (MissingFields "http")
  else if String.eqb mode "playwright" then
    let* raw := fetchQuoteViaPlaywright symbol timeoutMs in
    let q := buildQuoteFromPlaywrightRaw symbol (Some raw) in
    if validateParsedQuote q then ret q else throw (MissingFields "playwright")
  else
    let* early :=
      tryCatch
        (let* html := fetchQuoteHtml symbol timeoutMs in
         let q := parseQuoteHtml html symbol in
         ret (if validateParsedQuote q then Some q else None))
        (fun _ => ret None) in
    match early with
    | Some q => ret q
    | None =>
        let* raw := fetchQuoteViaPlaywright symbol timeoutMs in
        let q := buildQuoteFromPlaywrightRaw symbol (Some raw) in
        if validateParsedQuote q then ret q else throw (MissingFields "auto")
    end.

End Orchestrator.

(** ** [mapLimit]: the worker pool

    Each worker is an asynchronous function: it runs until its [await],
    where it is suspended until the promise of [fn] settles, and the order in
    which the promises settle is not known.  A state of the pool holds the
    shared counter [i], the array [out] (a hole is [None]) and what each
    worker is waiting for; a step resumes one suspended worker.  [fn x idx]
    is the value the promise of that call resolves to.

    The pool starts once [new Array(Math.min(limit, items.length))] has made
    the array of the workers, so [limit] is a whole number here;
    [workerCount] and [callMapLimit] below start from the number that is
    passed, for which [new Array] may throw. *)

Module Pool.
Section MapLimit.

Context {A R : Type}.
Variable items : list A.
Variable limit : nat.
Variable fn : A -> nat -> R.

Inductive worker : Type :=
  | Awaiting (idx : nat)
  | Finished.

Record pool : Type := {
  next : nat;
  out : list (option R);
  workers : list worker
}.

(** The head of the loop: [const idx = i++], then leave when [idx] is past
    the end, else call [fn] and wait. *)
Definition enter (i : nat) : worker * nat :=
  (if (length items <=? i)%nat then Finished else Awaiting i, S i).

(** [map] starts the workers one after the other; each runs up to its first
    [await]. *)
Fixpoint start (n i : nat) : list worker * nat :=
  match n with
  | O => ([], i)
  | S n' =>
      let '(w, i') := enter i in
      let '(ws, i'') := start n' i' in
      (w :: ws, i'')
  end.

Definition init : pool :=
  let '(ws, i) := start (Nat.min limit (length items)) 0 in
  {| next := i; out := replicate (length items) None; workers := ws |}.

(** The promise awaited by worker [k] settles: the value is stored at the
    index the worker took, and the worker is back at the head of the loop.
    The index is inside [out], so the assignment fills a slot and does not
    extend the array. *)
Inductive step : pool -> pool -> Prop :=
  | step_resume (p : pool) (k idx : nat) (x : A) :
      workers p !! k = Some (Awaiting idx) ->
      items !! idx = Some x ->
      step p {| next := snd (enter (next p));
                out := <[idx := Some (fn x idx)]> (out p);
                workers := <[k := fst (enter (next p))]> (workers p) |}.

Inductive steps : nat -> pool -> pool -> Prop :=
  | steps_O (p : pool) : steps 0 p p
  | steps_S (n : nat) (p q r : pool) : steps n p q -> step q r -> steps (S n) p r.

(** [Promise.all(workers)] is fulfilled when every worker has returned. *)
Definition settled (p : pool) : Prop := Forall (eq Finished) (workers p).

(** [mapLimit(items, limit, fn)] returns [out] once the pool is settled:
    [mapLimit result] says that some run of the pool ends with [result]. *)
Definition mapLimit (result : list (option R)) : Prop :=
  exists n p, steps n init p /\ settled p /\ out p = result.

(** What the claim expects: slot [i] holds [fn] of item [i]. *)
Definition expected : list (option R) := imap (fun i x => Some (fn x i)) items.

(** The number of suspended workers. *)
Fixpoint awaiting (ws : list worker) : nat :=
  match ws with
  | [] => 0
  | Awaiting _ :: ws' => S (awaiting ws')
  | Finished :: ws' => awaiting ws'
  end.

(** What holds in every state the pool reaches: an index a worker waits on
    was taken from the counter and is inside the array; every index taken so
    far is either stored, with the value of its own item, or still awaited;
    a worker returns only once the counter is past the end; and the
    suspended workers account for the distance of the counter to the end. *)
Record invariant (p : pool) : Prop := {
  inv_out : length (out p) = length items;
  inv_workers : length (workers p) = Nat.min limit (length items);
  inv_wait : forall k idx, workers p !! k = Some (Awaiting idx) ->
               idx < next p /\ idx < length items;
  inv_slot : forall j x, j < next p -> items !! j = Some x ->
               out p !! j = Some (Some (fn x j)) \/
               exists k, workers p !! k = Some (Awaiting j);
  inv_finished : forall k, workers p !! k = Some Finished ->
               length items <= next p;
  inv_count : awaiting (workers p) + (next p - length items)
              = Nat.min limit (length items)
}.

End MapLimit.
End Pool.

(** ** The rest of [bin/stooq-quote.js] *)

(** [s.split(sep)] for a separator of one character: the pieces between
    the separators, the empty ones included. *)
Fixpoint splitOn (sep : ascii) (s : string) : list string :=
  match s with
  | EmptyString => [EmptyString]
  | String c s' =>
      if Ascii.eqb c sep then EmptyString :: splitOn sep s'
      else
        match splitOn sep s' with
        | piece :: pieces => String c piece :: pieces
        | [] => [String c EmptyString]
        end
  end.

(** [filter(Boolean)] on strings: the empty string is falsy. *)
Definition nonEmpty (l : list string) : list string :=
  List.filter (fun s => negb (JS.isEmpty s)) l.

(** [new Set(l)] spread back into an array: a set keeps each value once,
    in the order of insertion. *)
Definition setAdd (seen : list string) (x : string) : list string :=
  if existsb (String.eqb x) seen then seen else (seen ++ [x])%list.

Definition setOf (l : list string) : list string := fold_left setAdd l [].

(** [symbolListOpt] is the array of the repeated [--symbol] option when it
    is an array, [symbolsOpt] the text of [--symbols] when given. *)
Definition parseSymbols (symbolsOpt : option string)
    (symbolListOpt : option (list string)) : outcome (list string) :=
  let out := match symbolListOpt with Some l => l | None => [] end in
  let out :=
    if truthy symbolsOpt then
      match symbolsOpt with
      | Some s => (out ++ nonEmpty (map JS.trim (splitOn "," s)))%list
      | None => out
      end
    else out in
  let uniq := nonEmpty (setOf (map JS.toLowerCase out)) in
  match uniq with
  | [] => Throw (External "no symbols provided (use --symbols or --symbol)")
  | _ :: _ => Ok uniq
  end.

(** The failure record [{symbol, error: {message, mode}}]. *)
Record Failure : Type := {
  failed_symbol : string;
  failed_message : string;
  failed_mode : string
}.

(** What the run holds for one symbol. *)
Inductive symbolResult : Type :=
  | Success (q : Quote)
  | Failed (f : Failure).

(** The [message] of the errors the program makes itself, and the one an
    outside error came with. *)
Definition thrownMessage (e : error) : string :=
  match e with
  | HttpStatus status => "http " ++ NilZero.string_of_uint (Nat.to_uint status)
  | MissingFields mode =>
      "parsed quote missing required fields (" ++ mode ++ ")"
  | External msg => msg
  end.

Section Run.

Variable encodeURIComponent : string -> string.
Variable env : Env.
(** [String(e)] of an error object. *)
Variable errorToString : error -> string.

(** [e && e.message ? String(e.message) : String(e)] *)
Definition messageOf (e : error) : string :=
  if truthy (Some (thrownMessage e)) then thrownMessage e else errorToString e.

(** The function [main] hands to [mapLimit]: [fetchOne] with every error
    caught and turned into a failure record. *)
Definition perSymbol (mode : string) (timeoutMs : N) (symbol : string)
  : M symbolResult :=
  tryCatch
    (let* q := fetchOne encodeURIComponent env symbol mode timeoutMs in
     ret (Success q))
    (fun e =>
       ret (Failed {| failed_symbol := symbol;
                      failed_message := messageOf e;
                      failed_mode := mode |})).

End Run.

(** The row source of the table: a success as it is, a failure as a record
    with its symbol and nothing else.  The [_error] text that the program
    also stores there is read by nobody and is left out. *)
Definition normalized (r : symbolResult) : Quote :=
  match r with
  | Success q => q
  | Failed f =>
      {| symbol := failed_symbol f; last := None; date := None; time := None;
         updated_at := None; change := None; change_pct := None;
         high := None; low := None; open := None; prev := None;
         volume := None; turnover := None;
         raw := {| raw_last := None; raw_last_id := None; raw_date := None;
                   raw_time := None; raw_change := None;
                   raw_change_pct := None; raw_high := None; raw_low := None;
                   raw_open := None; raw_prev := None; raw_volume := None;
                   raw_turnover := None |} |}
  end.

(** A number in a boolean position: zero and NaN are falsy. *)
Definition numTruthy (x : Num.num) : bool :=
  match x with
  | S754_zero _ | S754_nan => false
  | _ => true
  end.

(** [Math.max(a, b)] *)
Definition mathMax (a b : Num.num) : Num.num :=
  match SFcompare a b with
  | None => S754_nan
  | Some Lt => b
  | Some Gt => a
  | Some Eq => match a with S754_zero true => b | _ => a end
  end.

(** [Math.max(1, Number(opts.concurrency) || 4)], and 1 in the rendered
    mode. *)
Definition concurrencyOf (opt : Num.num) : Num.num :=
  mathMax (Num.ofZ 1) (if numTruthy opt then opt else Num.ofZ 4).

Definition effectiveConcurrency (mode : string) (opt : Num.num) : Num.num :=
  if String.eqb mode "playwright" then Num.ofZ 1 else concurrencyOf opt.

(** *** [mapLimit] as it is called

    [Math.min(a, b)] *)
Definition mathMin (a b : Num.num) : Num.num :=
  match SFcompare a b with
  | None => S754_nan
  | Some Lt => a
  | Some Gt => b
  | Some Eq => match a with S754_zero true => a | _ => b end
  end.

(** [new Array(len)] for a number [len]: an array of that length when
    [len] is a whole number from 0 to 2^32 - 1, and a [RangeError]
    otherwise ([None]). *)
Definition arrayLength (len : Num.num) : option nat :=
  match len with
  | S754_zero _ => Some 0
  | S754_finite false m e =>
      let whole :=
        if (0 <=? e)%Z then Some (Z.pos m * 2 ^ e)%Z
        else if (Z.pos m mod 2 ^ (- e) =? 0)%Z then Some (Z.pos m / 2 ^ (- e))%Z
        else None in
      match whole with
      | Some v => if (v <? 2 ^ 32)%Z then Some (Z.to_nat v) else None
      | None => None
      end
  | _ => None
  end.

(** The length of [new Array(Math.min(limit, items.length))]. *)
Definition workerCount (limit : Num.num) (len : nat) : option nat :=
  arrayLength (mathMin limit (Num.ofZ (Z.of_nat len))).

(** [mapLimit(items, limit, fn)] for the number [limit]: the [RangeError]
    of [new Array], or what a run of the pool of that many workers
    returns. *)
Definition callMapLimit {A R : Type} (items : list A) (limit : Num.num)
    (fn : A -> nat -> R) (r : outcome (list (option R))) : Prop :=
  match workerCount limit (length items) with
  | None => r = Throw (External "Invalid array length")
  | Some n => exists result, Pool.mapLimit items n fn result /\ r = Ok result
  end.

(** ** [src/stooq/format.js]

    The text of a number, [String(n)], is a parameter. *)

Section Format.

Variable numberToString : Num.num -> string.

Definition fmtMissing (v : option string) : string :=
  match v with
  | None => "-"
  | Some s => if JS.isEmpty s then "-" else s
  end.

Definition fmtNumberLike (v : option Num.num) : string :=
  match v with
  | None => "-"
  | Some n => if Num.isFinite n then numberToString n else numberToString n
  end.

(** [n > 0] and [n < 0] *)
Definition positive (n : Num.num) : bool := SFltb (S754_zero false) n.
Definition negative (n : Num.num) : bool := SFltb n (S754_zero false).

Definition fmtChangePct (v : option Num.num) : string :=
  match v with
  | None => "-"
  | Some n =>
      if negb (Num.isFinite n) then "-"
      else
        let sign :=
          if positive n then "+"
          else if negative n then EmptyString else EmptyString in
        sign ++ numberToString n ++ "%"
  end.

Definition tableHead : list string :=
  ["Symbol"; "Last"; "Date"; "Time"; "Change"; "Change%"; "High"; "Low";
   "Open"; "Prev"; "Volume"; "Turnover"].

Definition toTableRows (quotes : list Quote) : list (list string) :=
  map (fun q =>
         [symbol q; fmtNumberLike (last q); fmtMissing (date q);
          fmtMissing (time q); fmtNumberLike (change q);
          fmtChangePct (change_pct q); fmtNumberLike (high q);
          fmtNumberLike (low q); fmtNumberLike (open q);
          fmtNumberLike (prev q); fmtNumberLike (volume q);
          fmtNumberLike (turnover q)])
    quotes.

End Format.

(** ** Notions used to state the properties *)

Definition present {A} (o : option A) : Prop := o <> None.

Definition requiredPresent (q : Quote) : Prop :=
  present (last q) /\ present (date q) /\ present (time q) /\
  present (change q) /\ present (change_pct q) /\ present (high q) /\
  present (low q) /\ present (open q) /\ present (prev q).

(** The same record with other values under [volume] and [turnover]. *)
Definition withVolumeTurnover (q : Quote) (v t : option Num.num) : Quote :=
  {| symbol := symbol q; last := last q; date := date q; time := time q;
     updated_at := updated_at q; change := change q;
     change_pct := change_pct q; high := high q; low := low q;
     open := open q; prev := prev q; volume := v; turnover := t;
     raw := raw q |}.

(** The identifier of a field of the page: [aq_<symbol>_<code>]. *)
Definition fieldId (symbol code : string) : string :=
  "aq_" ++ JS.toLowerCase symbol ++ code.

(** The rendered path as [fetchOne] runs it: the browser fetch, the record
    and the validator, with the mode named in the error. *)
Definition renderedPath (encodeURIComponent : string -> string) (env : Env)
    (symbol mode : string) (timeoutMs : N) : M Quote :=
  let* raw := fetchQuoteViaPlaywright encodeURIComponent env symbol timeoutMs in
  let q := buildQuoteFromPlaywrightRaw symbol (Some raw) in
  if validateParsedQuote q then ret q else throw (MissingFields mode).

Definition isBrowserEvent (e : event) : bool :=
  match e with
  | EvFetch _ | EvReadBody => false
  | _ => true
  end.

(** The last element of a list, if there is one. *)
Fixpoint lastOf {A} (l : list A) : option A :=
  match l with
  | [] => None
  | x :: l' => match l' with [] => Some x | _ => lastOf l' end
  end.

(** The text without its last character when that is a percent sign. *)
Fixpoint withoutPercent (s : string) : string :=
  match s with
  | EmptyString => EmptyString
  | String c EmptyString => if Ascii.eqb c "%" then EmptyString else s
  | String c s' => String c (withoutPercent s')
  end.

(** *** What a pattern matches

    [Matches ic r prev s caps prev' s' caps']: the pattern [r] matches a
    prefix of [s], the text after that prefix is [s'], [prev] and [prev'] are
    the characters before the two positions and the captures grow from
    [caps] to [caps'].  This is the set of all ways to match, without the
    order in which the matcher tries them. *)

Fixpoint lastOr (prev : option ascii) (t : string) : option ascii :=
  match t with
  | EmptyString => prev
  | String a t' => lastOr (Some a) t'
  end.

Inductive Matches (ic : bool) :
  re -> option ascii -> string -> list string ->
  option ascii -> string -> list string -> Prop :=
  | M_Eps p s caps : Matches ic Eps p s caps p s caps
  | M_Chr c a p s caps :
      eqc ic a c = true -> Matches ic (Chr c) p (String a s) caps (Some a) s caps
  | M_One cl a p s caps :
      inClass ic cl a = true ->
      Matches ic (One cl) p (String a s) caps (Some a) s caps
  | M_Many_stop cl p s caps : Matches ic (Many cl) p s caps p s caps
  | M_Many_more cl a p s caps p' s' caps' :
      inClass ic cl a = true ->
      Matches ic (Many cl) (Some a) s caps p' s' caps' ->
      Matches ic (Many cl) p (String a s) caps p' s' caps'
  | M_Opt_take r p s caps p' s' caps' :
      Matches ic r p s caps p' s' caps' ->
      Matches ic (Opt r) p s caps p' s' caps'
  | M_Opt_skip r p s caps : Matches ic (Opt r) p s caps p s caps
  | M_Cat r1 r2 p s caps p1 s1 caps1 p2 s2 caps2 :
      Matches ic r1 p s caps p1 s1 caps1 ->
      Matches ic r2 p1 s1 caps1 p2 s2 caps2 ->
      Matches ic (Cat r1 r2) p s caps p2 s2 caps2
  | M_Grp r p s caps p' s' caps' :
      Matches ic r p s caps p' s' caps' ->
      Matches ic (Grp r) p s caps p' s' (caps' ++ [consumed s s'])%list
  | M_WordB p s caps :
      xorb (isWordAt p) (isWordAt (head s)) = true ->
      Matches ic WordB p s caps p s caps
  | M_Bol s caps : Matches ic Bol None s caps None s caps
  | M_Eol p caps : Matches ic Eol p EmptyString caps p EmptyString caps.

(** Two texts of the same length whose characters agree, up to case when
    [ic] is set; the second one is the text of the pattern. *)
Fixpoint sameText (ic : bool) (t pat : string) : bool :=
  match t, pat with
  | EmptyString, EmptyString => true
  | String a t', String c pat' => eqc ic a c && sameText ic t' pat'
  | _, _ => false
  end.

Fixpoint allIn (ic : bool) (cl : cclass) (t : string) : bool :=
  match t with
  | EmptyString => true
  | String a t' => inClass ic cl a && allIn ic cl t'
  end.

(** *** Occurrences of a key in the markup, as [extractTextById] sees them *)

(** Nothing, or one quote character. *)
Definition optQuote (q : string) : bool :=
  match q with
  | EmptyString => true
  | String a EmptyString => inClass true quoteClass a
  | _ => false
  end.

(** The key occurs at the head of [s]: [s] starts with [id=] in any case,
    not preceded by a word character; then an optional quote, the key in any
    case, an optional quote, characters other than [>], a [>], the text
    [cap] without [<], and a [<], after which [rest] follows. *)
Inductive Occurrence (key : string) (prev : option ascii) (s cap rest : string)
  : Prop :=
  | occurrence (h q1 k q2 mid : string) :
      s = h ++ q1 ++ k ++ q2 ++ mid ++ ">" ++ cap ++ "<" ++ rest ->
      isWordAt prev = false ->
      sameText true h "id=" = true ->
      optQuote q1 = true ->
      sameText true k key = true ->
      optQuote q2 = true ->
      allIn true notGt mid = true ->
      allIn true notLt cap = true ->
      Occurrence key prev s cap rest.

(** The key occurs in [s] right after the prefix [pre]. *)
Definition OccursAfter (key : string) (prev : option ascii)
    (s pre cap rest : string) : Prop :=
  exists m, s = pre ++ m /\ Occurrence key (lastOr prev pre) m cap rest.

Definition NoOccurrence (key : string) (prev : option ascii) (s : string) : Prop :=
  forall pre cap rest, ~ OccursAfter key prev s pre cap rest.

(** The leftmost occurrence in [s]. *)
Definition FirstOccurrence (key : string) (prev : option ascii)
    (s cap rest : string) : Prop :=
  exists pre,
    OccursAfter key prev s pre cap rest /\
    forall pre' cap' rest',
      String.length pre' < String.length pre ->
      ~ OccursAfter key prev s pre' cap' rest'.

(** The captured texts of the successive occurrences: the leftmost one, then
    the leftmost one in what follows it, and so on until there is none. *)
Inductive Occurrences (key : string) : option ascii -> string -> list string -> Prop :=
  | occurrences_none prev s :
      NoOccurrence key prev s -> Occurrences key prev s []
  | occurrences_next prev s cap rest caps :
      FirstOccurrence key prev s cap rest ->
      Occurrences key (Some "<"%char) rest caps ->
      Occurrences key prev s (cap :: caps).

(** *** The texts the suffix pattern accepts *)

(** Nothing, [+] or [-]. *)
Definition isSign (q : string) : bool :=
  match q with
  | EmptyString => true
  | String a EmptyString => inClass false signClass a
  | _ => false
  end.

(** One decimal digit or more. *)
Definition isDigits (t : string) : bool :=
  negb (JS.isEmpty t) && allIn false digitClass t.

(** Nothing, or a point and digits. *)
Definition isFraction (fr : string) : bool :=
  match fr with
  | EmptyString => true
  | String a fs => Ascii.eqb a "." && isDigits fs
  end.

(** [t] is [numText] and the suffix letter [u]; [numText] is an optional
    sign, digits and an optional fraction. *)
Record UnitForm (t numText : string) (u : ascii) : Prop := {
  uf_split : t = numText ++ String u EmptyString;
  uf_number : exists sg ip fr,
      numText = sg ++ ip ++ fr /\
      isSign sg = true /\ isDigits ip = true /\ isFraction fr = true;
  uf_unit : inClass false unitClass u = true
}.

(** The factor of a suffix letter: thousand for [k], million for [m] and
    billion for [g] and [b], in either case. *)
Definition multiplier (u : ascii) : Num.num :=
  if Ascii.eqb u "k" || Ascii.eqb u "K" then Num.ofZ 1000
  else if Ascii.eqb u "m" || Ascii.eqb u "M" then Num.ofZ 1000000
  else Num.ofZ 1000000000.

(** [null] unless the number is finite. *)
Definition finiteOrNull (n : Num.num) : option Num.num :=
  if Num.isFinite n then Some n else None.

(** *** The value of an attribute

    The value that starts a text: the text between the quotes when it
    starts with a quote, and otherwise the text up to the next white space
    or [>]. *)



(** [v] starts with [key], letter case ignored. *)
Fixpoint beginsWith (v key : string) : bool :=
  match key, v with
  | EmptyString, _ => true
  | String c key', String a v' => eqc true a c && beginsWith v' key'
  | String _ _, EmptyString => false
  end.

(** A character that can stand in an unquoted attribute value: no quote, no
    white space, no [>]. *)
Definition keyChar (c : ascii) : bool :=
  negb (inClass false quoteClass c || JS.isWhite c || Ascii.eqb c ">").

Fixpoint plainKey (key : string) : bool :=
  match key with
  | EmptyString => true
  | String c key' => keyChar c && plainKey key'
  end.

(** *** Markup as tags and text

    A markup text seen as what it is made of: the text before the first
    tag, and then the tags, each with the text that follows it up to the next
    tag.  An opening tag has a name, attributes and at most one identifier
    attribute; each attribute comes after one space.  The identifier
    attribute is written [id], in either letter case, an equals sign and the
    value, bare or between two quote characters.  Declarations and comments
    are the tags that start with [<!]. *)

Record identifier : Type := {
  id_name : string;
  id_quote : string;
  id_value : string
}.

(** Another attribute: its name and, after an equals sign, its value as
    written, quotes included. *)
Record attribute : Type := {
  attr_name : string;
  attr_value : option string
}.

Inductive tag : Type :=
  | Open (name : string) (before : list attribute) (ident : option identifier)
         (after : list attribute)
  | Close (name : string)
  | Decl (body : string).

Record node : Type := { node_tag : tag; node_text : string }.

Record markup : Type := { leading : string; nodes : list node }.

Definition renderAttribute (a : attribute) : string :=
  " " ++ attr_name a
  ++ match attr_value a with Some v => "=" ++ v | None => EmptyString end.

Fixpoint attrs (l : list attribute) : string :=
  match l with
  | [] => EmptyString
  | a :: l' => renderAttribute a ++ attrs l'
  end.

Definition renderIdentifier (i : identifier) : string :=
  id_name i ++ "=" ++ id_quote i ++ id_value i ++ id_quote i.

Definition renderTag (t : tag) : string :=
  match t with
  | Open name before None after =>
      "<" ++ name ++ attrs before ++ attrs after ++ ">"
  | Open name before (Some i) after =>
      "<" ++ name ++ attrs before ++ " " ++ renderIdentifier i
      ++ attrs after ++ ">"
  | Close name => "</" ++ name ++ ">"
  | Decl body => "<!" ++ body ++ ">"
  end.

Definition renderNode (n : node) : string := renderTag (node_tag n) ++ node_text n.

Fixpoint renderNodes (l : list node) : string :=
  match l with
  | [] => EmptyString
  | n :: l' => renderNode n ++ renderNodes l'
  end.

(** The markup as text. *)
Definition render (m : markup) : string := leading m ++ renderNodes (nodes m).

(** The identifier of an element, if it has one. *)
Definition identifierOf (n : node) : option string :=
  match node_tag n with
  | Open _ _ (Some i) _ => Some (id_value i)
  | _ => None
  end.

(** The element has the identifier [key], letter case ignored. *)
Definition hasIdentifier (key : string) (n : node) : bool :=
  match identifierOf n with
  | Some v => sameText true v key
  | None => false
  end.



(** [id=], in either letter case, stands nowhere in the text after a
    character that is not a word character; [w] says that a word character
    stands before the text. *)
Fixpoint calm (w : bool) (s : string) : bool :=
  match s with
  | EmptyString => true
  | String c s' => (w || negb (beginsWith s "id=")) && calm (JS.isWordChar c) s'
  end.

(** A tag name: a letter, then no white space, [<] and [>]. *)
Fixpoint nameChars (s : string) : bool :=
  match s with
  | EmptyString => true
  | String c s' =>
      negb (JS.isWhite c || Ascii.eqb c "<" || Ascii.eqb c ">") && nameChars s'
  end.

Definition isLetter (c : ascii) : bool :=
  JS.between 97 122 c || JS.between 65 90 c.

Definition nameOk (name : string) : bool :=
  match name with
  | String c r => isLetter c && nameChars r
  | EmptyString => false
  end.

(** The name of an attribute: not empty, without white space, [=], [<],
    [>] and quotes. *)
Fixpoint attrNameChars (s : string) : bool :=
  match s with
  | EmptyString => true
  | String c s' =>
      negb (JS.isWhite c || Ascii.eqb c "=" || Ascii.eqb c "<" || Ascii.eqb c ">"
            || inClass false quoteClass c)
      && attrNameChars s'
  end.

(** A value as written: bare, that is not empty and without quote, white
    space and [>]; or between two equal quote characters that do not occur
    in it. *)
Definition bareValue (v : string) : bool := negb (JS.isEmpty v) && plainKey v.

Definition quotedValue (v : string) : bool :=
  match v with
  | String q r =>
      inClass false quoteClass q
      && match JS.rev r with
         | String q' inner => Ascii.eqb q' q && negb (mem false q inner)
         | EmptyString => false
         end
  | EmptyString => false
  end.

(** An attribute that is not the identifier attribute. *)
Definition attrOk (a : attribute) : bool :=
  negb (JS.isEmpty (attr_name a)) && attrNameChars (attr_name a)
  && negb (sameText true (attr_name a) "id")
  && match attr_value a with
     | Some v => bareValue v || quotedValue v
     | None => true
     end.

(** The identifier attribute: the name is [id] in either case; the value
    has no quote, white space or [>] and stands between two equal quote
    characters, or bare when it is not empty. *)
Definition identOk (i : identifier) : bool :=
  sameText true (id_name i) "id"
  && optQuote (id_quote i)
  && plainKey (id_value i)
  && negb (JS.isEmpty (id_quote i) && JS.isEmpty (id_value i)).

(** What makes the parts a markup in which [id=] is the identifier
    attribute and nothing else: names are names and attributes are
    attributes; after the identifier attribute no attribute holds a [>];
    and apart from the identifier attribute, [id=] stands nowhere in the tag
    and in the text after it, but where a word character comes before it. *)
Definition tagOk (t : tag) (text : string) : bool :=
  match t with
  | Close name => nameOk name && calm false (renderTag t ++ text)
  | Decl body => allIn true notGt body && calm false (renderTag t ++ text)
  | Open name before None after =>
      nameOk name && forallb attrOk before && forallb attrOk after
      && calm false (renderTag t ++ text)
  | Open name before (Some i) after =>
      nameOk name && forallb attrOk before && forallb attrOk after
      && allIn true notGt (attrs after)
      && identOk i
      && calm false ("<" ++ name ++ attrs before ++ " ")
      && calm false (id_quote i ++ id_value i ++ id_quote i ++ attrs after ++ ">" ++ text)
  end.

(** Text holds no [<]. *)
Definition nodeOk (n : node) : bool :=
  allIn true notLt (node_text n) && tagOk (node_tag n) (node_text n).

Definition wellFormed (m : markup) : bool :=
  allIn true notLt (leading m) && calm false (leading m)
  && forallb nodeOk (nodes m).

(** No identifier of the markup is longer than the key and starts with
    it. *)
Definition noLongerIdentifier (key : string) (l : list node) : bool :=
  forallb (fun n =>
             match identifierOf n with
             | Some v => implb (beginsWith v key) (sameText true v key)
             | None => true
             end) l.

(** The closing tag of an element. *)
Definition closes (n c : node) : bool :=
  match node_tag n, node_tag c with
  | Open name _ _ _, Close name' => String.eqb name name'
  | _, _ => false
  end.

(** The elements with the identifier [key] have text for content: the
    opening tag and its text are followed by the closing tag. *)
Fixpoint textOnly (key : string) (l : list node) : bool :=
  match l with
  | [] => true
  | n :: l' =>
      (if hasIdentifier key n
       then match l' with c :: _ => closes n c | [] => false end
       else true)
      && textOnly key l'
  end.

(** *** Notions to follow the search through a markup *)




(** *** Sample inputs *)

(** A page that carries the last price under [c3|3] only. *)
Definition goldPage : string := "<span id=aq_gc.f_c3|3>2034.5</span>".

(** A page whose date cell is there but empty. *)
Definition emptyDatePage : string :=
  "<td id=aq_gc.f_c2|3>2034.5</td><td id=aq_gc.f_d2></td><td id=aq_gc.f_t1>12:09:42</td>".

(** A page with every required field. *)
Definition fullPage : string :=
  "<span id=aq_gc.f_c2|3>2034.5</span><span id=aq_gc.f_d2>2026-02-14</span>"
  ++ "<span id=aq_gc.f_t1>12:09:42</span><span id=aq_gc.f_m2>+4.1</span>"
  ++ "<span id=aq_gc.f_m3>(+0.2%)</span><span id=aq_gc.f_h>2040</span>"
  ++ "<span id=aq_gc.f_l>2020.5</span><span id=aq_gc.f_o>2030</span>"
  ++ "<span id=aq_gc.f_p>2030.4</span>".

(** The same identifier twice, quoted and in another case the second time. *)
Definition twoDatesPage : string :=
  "<td id=aq_gc.f_d2 class=d>2026-02-13</td><td ID='AQ_GC.F_D2'> 2026-02-14 </td>".

(** The site answers with [fullPage]; the browser is not needed. *)
Definition siteUp : Env :=
  {| env_fetch := fun _ _ => Ok {| status := 200; body := Ok fullPage |};
     env_launch := Throw (External "no browser");
     env_newPage := Throw (External "no browser");
     env_goto := fun _ _ => Throw (External "no browser");
     env_page := Throw (External "no browser");
     env_pageClose := Throw (External "no browser");
     env_browserClose := Throw (External "no browser") |}.

(** The browser starts, opening a page fails. *)
Definition noPage : Env :=
  {| env_fetch := fun _ _ => Throw (External "offline");
     env_launch := Ok tt;
     env_newPage := Throw (External "browser.newPage: target closed");
     env_goto := fun _ _ => Ok tt;
     env_page := Ok (fun _ => None);
     env_pageClose := Ok tt;
     env_browserClose := Ok tt |}.

(** Navigation times out and closing the page fails as well. *)
Definition slowSite : Env :=
  {| env_fetch := fun _ _ => Throw (External "timeout");
     env_launch := Ok tt;
     env_newPage := Ok tt;
     env_goto := fun _ _ => Throw (External "page.goto: timeout");
     env_page := Ok (fun _ => None);
     env_pageClose := Throw (External "page.close: crashed");
     env_browserClose := Ok tt |}.

(** What the browser sees on a quote page. *)
Definition sampleDom : dom := fun id =>
  if String.eqb id "aq_gc.f_c2|3" then Some " 2034.5 "
  else if String.eqb id "aq_gc.f_d2" then Some "2026-02-14"
  else if String.eqb id "aq_gc.f_t1" then Some "12:09:42"
  else if String.eqb id "aq_gc.f_m2" then Some "+4.1"
  else if String.eqb id "aq_gc.f_m3" then Some "(+0.2%)"
  else if String.eqb id "aq_gc.f_h" then Some "2040"
  else if String.eqb id "aq_gc.f_l" then Some "2020.5"
  else if String.eqb id "aq_gc.f_o" then Some "2030"
  else if String.eqb id "aq_gc.f_p" then Some "2030.4"
  else None.

(** The site refuses the plain request and serves the browser. *)
Definition siteBlocked : Env :=
  {| env_fetch := fun _ _ => Ok {| status := 403; body := Ok EmptyString |};
     env_launch := Ok tt;
     env_newPage := Ok tt;
     env_goto := fun _ _ => Ok tt;
     env_page := Ok sampleDom;
     env_pageClose := Ok tt;
     env_browserClose := Ok tt |}.

Definition sampleSymbols : list string := ["gc.f"; "btc.v"; "^spx"].

(** A stand-in for the per-symbol function: the symbol and its index. *)
Definition tagged (symbol : string) (idx : nat) : string * nat := (symbol, idx).

Fixpoint repeatChar (n : nat) (c : ascii) : string :=
  match n with
  | O => EmptyString
  | S n' => String c (repeatChar n' c)
  end.

(** A one followed by 309 zeros: an integer above the largest binary64
    number. *)
Definition hugeDigits : string := String "1" (repeatChar 309 "0").



(** *** Notions for the pages and the two paths *)



(** The identifiers a quote is read from, for a symbol in lower case. *)
Definition quoteIds (sym : string) : list string :=
  app (lastIdCandidates sym)
    (map (fun code => "aq_" ++ sym ++ code)
       ["_d2"; "_t1"; "_m2"; "_m3"; "_h"; "_l"; "_o"; "_p"; "_v2"; "_r2"]).

(** The page in the browser shows under each of these identifiers the text
    that the extractor finds for it in the markup. *)
Definition sameContent (d : dom) (html sym : string) : Prop :=
  Forall (fun id => option_map JS.trim (d id) = extractTextById html id)
    (quoteIds sym).

(** The record without the identifier that gave [last]. *)
Definition withoutLastId (q : Quote) : Quote :=
  {| symbol := symbol q; last := last q; date := date q; time := time q;
     updated_at := updated_at q; change := change q;
     change_pct := change_pct q; high := high q; low := low q;
     open := open q; prev := prev q; volume := volume q;
     turnover := turnover q;
     raw :=
       {| raw_last := raw_last (raw q);
          raw_last_id := None;
          raw_date := raw_date (raw q);
          raw_time := raw_time (raw q);
          raw_change := raw_change (raw q);
          raw_change_pct := raw_change_pct (raw q);
          raw_high := raw_high (raw q);
          raw_low := raw_low (raw q);
          raw_open := raw_open (raw q);
          raw_prev := raw_prev (raw q);
          raw_volume := raw_volume (raw q);
          raw_turnover := raw_turnover (raw q) |} |}.

(** A page that answers a blocked request. *)
Definition blockedPage : string :=
  "<html><body><div id='msg' class=err>Access denied</div></body></html>".

(** The same page as tags and text. *)
Definition blockedMarkup : markup :=
  {| leading := EmptyString;
     nodes :=
       [ {| node_tag := Open "html" [] None []; node_text := EmptyString |};
         {| node_tag := Open "body" [] None []; node_text := EmptyString |};
         {| node_tag := Open "div" [] (Some {| id_name := "id"; id_quote := "'";
                                               id_value := "msg" |})
                                 [{| attr_name := "class"; attr_value := Some "err" |}];
            node_text := "Access denied" |};
         {| node_tag := Close "div"; node_text := EmptyString |};
         {| node_tag := Close "body"; node_text := EmptyString |};
         {| node_tag := Close "html"; node_text := EmptyString |} ] |}.

(** [twoDatesPage] as tags and text. *)
Definition twoDates : markup :=
  {| leading := EmptyString;
     nodes :=
       [ {| node_tag := Open "td" [] (Some {| id_name := "id"; id_quote := EmptyString;
                                              id_value := "aq_gc.f_d2" |})
                               [{| attr_name := "class"; attr_value := Some "d" |}];
            node_text := "2026-02-13" |};
         {| node_tag := Close "td"; node_text := EmptyString |};
         {| node_tag := Open "td" [] (Some {| id_name := "ID"; id_quote := "'";
                                              id_value := "AQ_GC.F_D2" |}) [];
            node_text := " 2026-02-14 " |};
         {| node_tag := Close "td"; node_text := EmptyString |} ] |}.

(** A table with a declaration before it, attributes around the
    identifier and [id=] after word characters. *)
Definition tablePage : markup :=
  {| leading := EmptyString;
     nodes :=
       [ {| node_tag := Decl "DOCTYPE html"; node_text := EmptyString |};
         {| node_tag :=
              Open "table"
                [{| attr_name := "class"; attr_value := Some "'t q'" |};
                 {| attr_name := "uid"; attr_value := Some "7" |}] None [];
            node_text := EmptyString |};
         {| node_tag := Open "tr" [] None []; node_text := EmptyString |};
         {| node_tag :=
              Open "td" [{| attr_name := "nowrap"; attr_value := None |}]
                (Some {| id_name := "id"; id_quote := "'";
                         id_value := "aq_gc.f_c2|3" |})
                [{| attr_name := "class"; attr_value := Some "n" |}];
            node_text := " 2034.5 " |};
         {| node_tag := Close "td"; node_text := EmptyString |};
         {| node_tag := Open "td" [] None []; node_text := "paid=1" |};
         {| node_tag := Close "td"; node_text := EmptyString |};
         {| node_tag := Close "tr"; node_text := EmptyString |};
         {| node_tag := Close "table"; node_text := EmptyString |} ] |}.


(** The pool of two workers on [sampleSymbols] after the second call has
    settled. *)
Definition afterOne : @Pool.pool (string * nat) :=
  {| Pool.next := 3;
     Pool.out := [None; Some ("btc.v", 1); None];
     Pool.workers := [Pool.Awaiting 0; Pool.Awaiting 2] |}.

(** *** Notions for the command line *)

(** The pieces put back together with the separator between them. *)
Fixpoint joinWith (sep : ascii) (l : list string) : string :=
  match l with
  | [] => EmptyString
  | [x] => x
  | x :: l' => x ++ String sep (joinWith sep l')
  end.

(** The symbols asked for: the values of [--symbol], then the trimmed
    pieces of [--symbols]. *)
Definition requested (symbolsOpt : option string)
    (symbolListOpt : option (list string)) : list string :=
  app (match symbolListOpt with Some l => l | None => [] end)
      (match symbolsOpt with
       | Some s => map JS.trim (splitOn "," s)
       | None => []
       end).

(** A symbol that the site refused. *)
Definition sampleFailure : Failure :=
  {| failed_symbol := "gc.f"; failed_message := "http 403";
     failed_mode := "http" |}.

(** * Properties *)

(** ** The validator *)

Lemma isNullish_ofNum (o : option Num.num) :
  isNullish (ofNum o) = false <-> present o.
Proof. destruct o; simpl; unfold present; split; congruence. Qed.

Lemma isNullish_ofStr (o : option string) :
  isNullish (ofStr o) = false <-> present o.
Proof. destruct o; simpl; unfold present; split; congruence. Qed.

Lemma allPresent_cons q k ks :
  allPresent q (k :: ks) = true <->
  isNullish (getField q k) = false /\ allPresent q ks = true.
Proof.
  simpl. destruct (isNullish (getField q k)); split; intros H;
    try discriminate; try tauto. destruct H; discriminate.
Qed.

Lemma validateParsedQuote_true q :
  validateParsedQuote q = true <-> requiredPresent q.
Proof.
  unfold validateParsedQuote, required, requiredPresent.
  repeat rewrite allPresent_cons.
  change (getField q "last") with (ofNum (last q)).
  change (getField q "date") with (ofStr (date q)).
  change (getField q "time") with (ofStr (time q)).
  change (getField q "change") with (ofNum (change q)).
  change (getField q "change_pct") with (ofNum (change_pct q)).
  change (getField q "high") with (ofNum (high q)).
  change (getField q "low") with (ofNum (low q)).
  change (getField q "open") with (ofNum (open q)).
  change (getField q "prev") with (ofNum (prev q)).
  repeat rewrite isNullish_ofNum. repeat rewrite isNullish_ofStr.
  simpl. tauto.
Qed.

Lemma validateParsedQuote_false q :
  validateParsedQuote q = false <-> ~ requiredPresent q.
Proof.
  rewrite <- validateParsedQuote_true.
  destruct (validateParsedQuote q); split; intros H; congruence.
Qed.

(** C2.  [validateParsedQuote q] is [true] exactly when the nine fields
    [last], [date], [time], [change], [change_pct], [high], [low], [open]
    and [prev] are all non-null; replacing [volume] and [turnover] by any
    values, null included, does not change the answer; and a record whose
    [high] is null is rejected whatever its other fields hold. *)
Theorem validateParsedQuote_required :
  forall q : Quote,
    (validateParsedQuote q = true <->
       last q <> None /\ date q <> None /\ time q <> None /\
       change q <> None /\ change_pct q <> None /\ high q <> None /\
       low q <> None /\ open q <> None /\ prev q <> None) /\
    (forall v t, validateParsedQuote (withVolumeTurnover q v t)
                 = validateParsedQuote q) /\
    (requiredPresent q ->
       validateParsedQuote (withVolumeTurnover q None None) = true) /\
    (high q = None -> validateParsedQuote q = false).
Proof.
  intros q. split; [apply validateParsedQuote_true|]. split; [|split].
  - intros v t. destruct (validateParsedQuote q) eqn:E.
    + apply validateParsedQuote_true. apply validateParsedQuote_true in E. exact E.
    + apply validateParsedQuote_false. apply validateParsedQuote_false in E. exact E.
  - intros H. apply validateParsedQuote_true. exact H.
  - intros H. apply validateParsedQuote_false. unfold requiredPresent, present.
    rewrite H. tauto.
Qed.

Lemma validateParsedQuote_required_witness :
  validateParsedQuote
    (withVolumeTurnover (parseQuoteHtml fullPage "gc.f") None None) = true.
Proof.
  apply (proj1 (proj2 (proj2 (validateParsedQuote_required
                                (parseQuoteHtml fullPage "gc.f"))))).
  apply validateParsedQuote_true. vm_compute.
  repeat split; discriminate.
Defined.

(** ** The assembled record *)

Lemma parseQuoteHtml_date html symbol :
  date (parseQuoteHtml html symbol)
  = orNull (extractTextById html (fieldId symbol "_d2")).
Proof.
  unfold parseQuoteHtml, fieldId.
  destruct (firstCandidate html (lastIdCandidates (JS.toLowerCase symbol))).
  reflexivity.
Qed.

Lemma parseQuoteHtml_time html symbol :
  time (parseQuoteHtml html symbol)
  = orNull (extractTextById html (fieldId symbol "_t1")).
Proof.
  unfold parseQuoteHtml, fieldId.
  destruct (firstCandidate html (lastIdCandidates (JS.toLowerCase symbol))).
  reflexivity.
Qed.

Lemma parseQuoteHtml_updated_at html symbol :
  updated_at (parseQuoteHtml html symbol)
  = joinDateTime (extractTextById html (fieldId symbol "_d2"))
                 (extractTextById html (fieldId symbol "_t1")).
Proof.
  unfold parseQuoteHtml, fieldId.
  destruct (firstCandidate html (lastIdCandidates (JS.toLowerCase symbol))).
  reflexivity.
Qed.

Lemma parseQuoteHtml_last html symbol :
  let found := firstCandidate html (lastIdCandidates (JS.toLowerCase symbol)) in
  raw_last_id (raw (parseQuoteHtml html symbol)) = fst found /\
  raw_last (raw (parseQuoteHtml html symbol)) = snd found /\
  last (parseQuoteHtml html symbol) = parseNumberLoose (snd found).
Proof.
  unfold parseQuoteHtml.
  destruct (firstCandidate html (lastIdCandidates (JS.toLowerCase symbol))).
  repeat split.
Qed.

Lemma joinDateTime_orNull d t :
  joinDateTime d t =
  match orNull d, orNull t with
  | Some d', Some t' => Some (d' ++ " " ++ t')
  | _, _ => None
  end.
Proof. destruct d as [[|c d]|], t as [[|c' t]|]; reflexivity. Qed.

Lemma stamp_cases (d t u : option string) :
  u = match d, t with
      | Some d', Some t' => Some (d' ++ " " ++ t')
      | _, _ => None
      end ->
  (u <> None <-> d <> None /\ t <> None) /\
  (forall d' t', d = Some d' -> t = Some t' -> u = Some (d' ++ " " ++ t')).
Proof.
  intros ->. destruct d as [d|], t as [t|]; split;
    try (split; [intros H | intros [H1 H2]]; try split; congruence);
    intros d' t' H1 H2; congruence.
Qed.

(** C6.  In the record built from the page text and in the record built
    from what the browser read, [updated_at] is non-null exactly when [date]
    and [time] both are, and it is then the date, one space and the time. *)
Theorem updated_at_date_time :
  (forall (html symbol : string),
     let q := parseQuoteHtml html symbol in
     (updated_at q <> None <-> date q <> None /\ time q <> None) /\
     (forall d t, date q = Some d -> time q = Some t ->
                  updated_at q = Some (d ++ " " ++ t))) /\
  (forall (symbol : string) (r : option RawFields),
     let q := buildQuoteFromPlaywrightRaw symbol r in
     (updated_at q <> None <-> date q <> None /\ time q <> None) /\
     (forall d t, date q = Some d -> time q = Some t ->
                  updated_at q = Some (d ++ " " ++ t))).
Proof.
  split.
  - intros html symbol q. apply stamp_cases. subst q.
    rewrite parseQuoteHtml_updated_at, parseQuoteHtml_date, parseQuoteHtml_time.
    apply joinDateTime_orNull.
  - intros symbol r q. apply stamp_cases. subst q.
    unfold buildQuoteFromPlaywrightRaw. cbv beta iota zeta delta [updated_at date time].
    apply joinDateTime_orNull.
Qed.

Lemma updated_at_date_time_witness :
  let q := parseQuoteHtml fullPage "gc.f" in
  (updated_at q <> None <-> date q <> None /\ time q <> None) /\
  (forall d t, date q = Some d -> time q = Some t ->
               updated_at q = Some (d ++ " " ++ t)).
Proof. exact (proj1 updated_at_date_time fullPage "gc.f"). Defined.

Example updated_at_fullPage :
  updated_at (parseQuoteHtml fullPage "gc.f") = Some "2026-02-14 12:09:42".
Proof. vm_compute. reflexivity. Qed.

(** C10.  When the extractor gives the empty string for the date element or
    for the time element, that field of the record is null, [updated_at] is
    null and the validator rejects the record. *)
Theorem empty_date_or_time_is_missing :
  forall html symbol : string,
    extractTextById html (fieldId symbol "_d2") = Some EmptyString \/
    extractTextById html (fieldId symbol "_t1") = Some EmptyString ->
    let q := parseQuoteHtml html symbol in
    (extractTextById html (fieldId symbol "_d2") = Some EmptyString -> date q = None) /\
    (extractTextById html (fieldId symbol "_t1") = Some EmptyString -> time q = None) /\
    updated_at q = None /\
    validateParsedQuote q = false.
Proof.
  intros html symbol H q.
  assert (Hd : extractTextById html (fieldId symbol "_d2") = Some EmptyString -> date q = None).
  { intros E. subst q. rewrite parseQuoteHtml_date, E. reflexivity. }
  assert (Ht : extractTextById html (fieldId symbol "_t1") = Some EmptyString -> time q = None).
  { intros E. subst q. rewrite parseQuoteHtml_time, E. reflexivity. }
  split; [exact Hd|]. split; [exact Ht|]. split.
  - subst q. rewrite parseQuoteHtml_updated_at.
    destruct H as [E|E]; rewrite E.
    + destruct (extractTextById html (fieldId symbol "_t1")); reflexivity.
    + destruct (extractTextById html (fieldId symbol "_d2")) as [[|c d]|];
        reflexivity.
  - apply validateParsedQuote_false. unfold requiredPresent, present.
    destruct H as [E|E]; [rewrite (Hd E) | rewrite (Ht E)]; tauto.
Qed.

Lemma empty_date_or_time_is_missing_witness :
  let q := parseQuoteHtml emptyDatePage "gc.f" in
  (extractTextById emptyDatePage (fieldId "gc.f" "_d2") = Some EmptyString -> date q = None) /\
  (extractTextById emptyDatePage (fieldId "gc.f" "_t1") = Some EmptyString -> time q = None) /\
  updated_at q = None /\
  validateParsedQuote q = false.
Proof.
  apply (empty_date_or_time_is_missing emptyDatePage "gc.f").
  left. vm_compute. reflexivity.
Defined.

(** ** The candidates of [last] *)

Lemma firstCandidate_first html pre id post v :
  (forall c, In c pre -> extractTextById html c = None) ->
  extractTextById html id = Some v ->
  firstCandidate html (pre ++ id :: post)%list = (Some id, Some v).
Proof.
  induction pre as [|c pre IH]; intros Hpre Hid; simpl.
  - rewrite Hid. reflexivity.
  - rewrite (Hpre c (or_introl eq_refl)). apply IH; [|exact Hid].
    intros c' Hc'. apply Hpre. right. exact Hc'.
Qed.

Lemma firstCandidate_none html ids :
  (forall c, In c ids -> extractTextById html c = None) ->
  firstCandidate html ids = (None, None).
Proof.
  induction ids as [|c ids IH]; intros H; simpl; [reflexivity|].
  rewrite (H c (or_introl eq_refl)). apply IH.
  intros c' Hc'. apply H. right. exact Hc'.
Qed.

(** C5.  The keys tried for [last] are [aq_<symbol>_c<d>|3] for [d] in the
    order 2, 0, 3, 1, 4, 5, 6, 7, 8, 9; the first key whose extraction is
    non-null gives [last], whatever the later keys would extract; when no
    key extracts anything [last] is null. *)
Theorem last_candidate_order :
  forall html symbol : string,
    let sym := JS.toLowerCase symbol in
    let q := parseQuoteHtml html symbol in
    lastIdCandidates sym =
      [ "aq_" ++ sym ++ "_c2|3"; "aq_" ++ sym ++ "_c0|3";
        "aq_" ++ sym ++ "_c3|3"; "aq_" ++ sym ++ "_c1|3";
        "aq_" ++ sym ++ "_c4|3"; "aq_" ++ sym ++ "_c5|3";
        "aq_" ++ sym ++ "_c6|3"; "aq_" ++ sym ++ "_c7|3";
        "aq_" ++ sym ++ "_c8|3"; "aq_" ++ sym ++ "_c9|3" ] /\
    (forall pre id post v,
       lastIdCandidates sym = (pre ++ id :: post)%list ->
       (forall c, In c pre -> extractTextById html c = None) ->
       extractTextById html id = Some v ->
       raw_last_id (raw q) = Some id /\ raw_last (raw q) = Some v /\
       last q = parseNumberLoose (Some v)) /\
    ((forall c, In c (lastIdCandidates sym) -> extractTextById html c = None) ->
     raw_last_id (raw q) = None /\ raw_last (raw q) = None /\ last q = None).
Proof.
  intros html symbol sym q. split; [reflexivity|].
  destruct (parseQuoteHtml_last html symbol) as (H1 & H2 & H3).
  fold sym in H1, H2, H3. fold q in H1, H2, H3. split.
  - intros pre id post v Hsplit Hpre Hid.
    rewrite Hsplit in H1, H2, H3.
    rewrite (firstCandidate_first html pre id post v Hpre Hid) in H1, H2, H3.
    auto.
  - intros Hnone. rewrite (firstCandidate_none html _ Hnone) in H1, H2, H3.
    auto.
Qed.

Lemma last_candidate_order_witness :
  let q := parseQuoteHtml goldPage "gc.f" in
  raw_last_id (raw q) = Some "aq_gc.f_c3|3" /\ raw_last (raw q) = Some "2034.5" /\
  last q = parseNumberLoose (Some "2034.5").
Proof.
  apply (proj1 (proj2 (last_candidate_order goldPage "gc.f"))
           ["aq_gc.f_c2|3"; "aq_gc.f_c0|3"] "aq_gc.f_c3|3"
           ["aq_gc.f_c1|3"; "aq_gc.f_c4|3"; "aq_gc.f_c5|3"; "aq_gc.f_c6|3";
            "aq_gc.f_c7|3"; "aq_gc.f_c8|3"; "aq_gc.f_c9|3"] "2034.5").
  - reflexivity.
  - intros c [<-|[<-|[]]]; vm_compute; reflexivity.
  - vm_compute. reflexivity.
Defined.

(** ** The orchestrator *)

Section OrchestratorProperties.

Variable enc : string -> string.
Variable env : Env.
Variable timeoutMs : N.

(** The HTTP path logs the request, and the read of the body when the
    status is a success; it makes no browser call. *)
Lemma fetchQuoteHtml_log symbol log :
  exists l, snd (fetchQuoteHtml enc env symbol timeoutMs log) = (log ++ l)%list /\
            Forall (fun e => isBrowserEvent e = false) l.
Proof.
  unfold fetchQuoteHtml, tryFinally, bind, call, throw, ret.
  destruct (env_fetch env (quoteUrl enc symbol) timeoutMs) as [res|e]; simpl.
  - destruct (ok res); simpl.
    + destruct (body res); simpl;
        (exists [EvFetch (quoteUrl enc symbol); EvReadBody]; split;
         [rewrite <- app_assoc; reflexivity | repeat constructor]).
    + exists [EvFetch (quoteUrl enc symbol)]. split; [reflexivity|].
      repeat constructor.
  - exists [EvFetch (quoteUrl enc symbol)]. split; [reflexivity|].
    repeat constructor.
Qed.

Lemma fetchOne_auto_unfold symbol log :
  fetchOne enc env symbol "auto" timeoutMs log =
  match fetchQuoteHtml enc env symbol timeoutMs log with
  | (Ok html, log') =>
      if validateParsedQuote (parseQuoteHtml html symbol)
      then (Ok (parseQuoteHtml html symbol), log')
      else renderedPath enc env symbol "auto" timeoutMs log'
  | (Throw _, log') => renderedPath enc env symbol "auto" timeoutMs log'
  end.
Proof.
  unfold fetchOne, renderedPath.
  change (String.eqb "auto" "http") with false.
  change (String.eqb "auto" "playwright") with false.
  cbv beta iota.
  unfold bind at 1. unfold tryCatch. unfold bind at 1.
  destruct (fetchQuoteHtml enc env symbol timeoutMs log) as [[html|e] log'].
  - unfold ret at 1.
    destruct (validateParsedQuote (parseQuoteHtml html symbol)); reflexivity.
  - reflexivity.
Qed.

(** An error of the browser fetch is the error of one of its four calls
    before the teardown. *)
Lemma fetchQuoteViaPlaywright_error symbol log e log' :
  fetchQuoteViaPlaywright enc env symbol timeoutMs log = (Throw e, log') ->
  env_launch env = Throw e \/ env_newPage env = Throw e \/
  env_goto env (quoteUrl enc symbol) timeoutMs = Throw e \/ env_page env = Throw e.
Proof.
  unfold fetchQuoteViaPlaywright, tryFinally, swallow, tryCatch,
    bind, call, ret.
  destruct (env_launch env) as [[]|e1] eqn:E1; [|intros [= <- _]; auto].
  destruct (env_newPage env) as [[]|e2] eqn:E2; [|intros [= <- _]; auto].
  destruct (env_goto env (quoteUrl enc symbol) timeoutMs) as [[]|e3] eqn:E3;
    [destruct (env_page env) as [d|e4] eqn:E4|];
    destruct (env_pageClose env) as [[]|e5];
    destruct (env_browserClose env) as [[]|e6];
    intros H; inversion H; subst; auto.
Qed.

(** C7.  In [auto] mode [fetchOne] runs the HTTP path first.  When that
    path returns a page whose record validates, the record is returned and
    nothing but the HTTP calls has been made.  When it throws, or the record
    does not validate, the outcome is the outcome of the rendered path run
    after it: the HTTP error is dropped, and an error reported for the symbol
    is the validator's rejection of the rendered record or an error of the
    browser calls. *)
Theorem fetchOne_auto_fallback :
  forall (symbol : string) (log : list event),
    (fetchOne enc env symbol "auto" timeoutMs log =
       match fetchQuoteHtml enc env symbol timeoutMs log with
       | (Ok html, log') =>
           if validateParsedQuote (parseQuoteHtml html symbol)
           then (Ok (parseQuoteHtml html symbol), log')
           else renderedPath enc env symbol "auto" timeoutMs log'
       | (Throw _, log') => renderedPath enc env symbol "auto" timeoutMs log'
       end) /\
    (forall html log',
       fetchQuoteHtml enc env symbol timeoutMs log = (Ok html, log') ->
       validateParsedQuote (parseQuoteHtml html symbol) = true ->
       fetchOne enc env symbol "auto" timeoutMs log = (Ok (parseQuoteHtml html symbol), log') /\
       exists l, log' = (log ++ l)%list /\
                 Forall (fun e => isBrowserEvent e = false) l) /\
    (forall e log',
       fetchOne enc env symbol "auto" timeoutMs log = (Throw e, log') ->
       e = MissingFields "auto" \/
       env_launch env = Throw e \/ env_newPage env = Throw e \/
       env_goto env (quoteUrl enc symbol) timeoutMs = Throw e \/ env_page env = Throw e).
Proof.
  intros symbol log. split; [apply fetchOne_auto_unfold|]. split.
  - intros html log' Hhttp Hvalid. split.
    + rewrite fetchOne_auto_unfold, Hhttp, Hvalid. reflexivity.
    + destruct (fetchQuoteHtml_log symbol log) as (l & Hl & Hall).
      rewrite Hhttp in Hl. simpl in Hl. exists l. split; assumption.
  - intros e log' H. rewrite fetchOne_auto_unfold in H.
    assert (Hr : forall l0, renderedPath enc env symbol "auto" timeoutMs l0 = (Throw e, log') ->
              e = MissingFields "auto" \/
              env_launch env = Throw e \/ env_newPage env = Throw e \/
              env_goto env (quoteUrl enc symbol) timeoutMs = Throw e \/ env_page env = Throw e).
    { intros l0. unfold renderedPath, bind.
      destruct (fetchQuoteViaPlaywright enc env symbol timeoutMs l0) as [[r|e'] l1] eqn:E.
      - destruct (validateParsedQuote _); unfold ret, throw; intros [= <- _].
        left. reflexivity.
      - intros [= <- <-]. right.
        apply (fetchQuoteViaPlaywright_error symbol l0 e' l1 E). }
    destruct (fetchQuoteHtml enc env symbol timeoutMs log) as [[html|e0] l0].
    + destruct (validateParsedQuote (parseQuoteHtml html symbol)).
      * discriminate H.
      * apply (Hr l0 H).
    + apply (Hr l0 H).
Qed.

(** X20.  When the browser and the page were opened, the page and then
    the browser are closed at the end whatever happens in between, and a
    failing close changes nothing in the outcome: that is the error of the
    navigation or of the script, or what the script read. *)
Lemma fetchQuoteViaPlaywright_teardown symbol log :
  env_launch env = Ok tt ->
  env_newPage env = Ok tt ->
  exists mid,
    snd (fetchQuoteViaPlaywright enc env symbol timeoutMs log)
    = (log ++ [EvLaunch; EvNewPage] ++ mid ++ [EvPageClose; EvBrowserClose])%list /\
    fst (fetchQuoteViaPlaywright enc env symbol timeoutMs log)
    = match env_goto env (quoteUrl enc symbol) timeoutMs with
      | Throw e => Throw e
      | Ok _ =>
          match env_page env with
          | Throw e => Throw e
          | Ok d => Ok (pageScript d (JS.toLowerCase symbol))
          end
      end.
Proof.
  intros E1 E2.
  unfold fetchQuoteViaPlaywright, tryFinally, swallow, tryCatch,
    bind, call, ret.
  rewrite E1, E2.
  destruct (env_goto env (quoteUrl enc symbol) timeoutMs) as [[]|e3];
    [destruct (env_page env) as [d|e4]|];
    destruct (env_pageClose env) as [[]|e5];
    destruct (env_browserClose env) as [[]|e6]; simpl;
    first [ exists [EvGoto (quoteUrl enc symbol); EvEvaluate]; split;
            [repeat rewrite <- app_assoc; reflexivity | reflexivity]
          | exists [EvGoto (quoteUrl enc symbol)]; split;
            [repeat rewrite <- app_assoc; reflexivity | reflexivity] ].
Qed.

End OrchestratorProperties.

Lemma fetchOne_auto_fallback_witness :
  fetchOne (fun s => s) siteUp "gc.f" "auto" 15000%N []
  = (Ok (parseQuoteHtml fullPage "gc.f"),
     [EvFetch "https://stooq.com/q/?s=gc.f"; EvReadBody]) /\
  exists l, [EvFetch "https://stooq.com/q/?s=gc.f"; EvReadBody] = ([] ++ l)%list /\
            Forall (fun e => isBrowserEvent e = false) l.
Proof.
  apply (proj1 (proj2 (fetchOne_auto_fallback (fun s => s) siteUp 15000%N "gc.f" []))
           fullPage [EvFetch "https://stooq.com/q/?s=gc.f"; EvReadBody]).
  - reflexivity.
  - vm_compute. reflexivity.
Defined.

Example fetchOne_auto_blocked :
  fetchOne (fun s => s) siteBlocked "gc.f" "auto" 15000%N []
  = (Ok (buildQuoteFromPlaywrightRaw "gc.f" (Some (pageScript sampleDom "gc.f"))),
     [EvFetch "https://stooq.com/q/?s=gc.f"; EvLaunch; EvNewPage;
      EvGoto "https://stooq.com/q/?s=gc.f"; EvEvaluate; EvPageClose;
      EvBrowserClose]).
Proof. vm_compute. reflexivity. Qed.

Example fetchOne_http_blocked :
  fetchOne (fun s => s) siteBlocked "gc.f" "http" 15000%N []
  = (Throw (HttpStatus 403), [EvFetch "https://stooq.com/q/?s=gc.f"]).
Proof. vm_compute. reflexivity. Qed.

(** A navigation that fails, followed by a page that does not close: the
    navigation error is what the caller gets, after both closes. *)
Example fetchQuoteViaPlaywright_slowSite :
  fetchQuoteViaPlaywright (fun s => s) slowSite "gc.f" 15000%N []
  = (Throw (External "page.goto: timeout"),
     [EvLaunch; EvNewPage; EvGoto "https://stooq.com/q/?s=gc.f";
      EvPageClose; EvBrowserClose]).
Proof. vm_compute. reflexivity. Qed.

(** C8.  When the browser has started and opening the page fails,
    [fetchQuoteViaPlaywright] throws that error and the browser is never
    closed: the two calls before the [try] are not covered by its
    [finally]. *)
Theorem fetchQuoteViaPlaywright_leaks_browser :
  fetchQuoteViaPlaywright (fun s => s) noPage "gc.f" 15000%N []
  = (Throw (External "browser.newPage: target closed"), [EvLaunch; EvNewPage]) /\
  ~ In EvBrowserClose
      (snd (fetchQuoteViaPlaywright (fun s => s) noPage "gc.f" 15000%N [])).
Proof.
  split; [reflexivity|].
  simpl. intros [H|[H|[]]]; discriminate H.
Qed.

(** ** The worker pool *)

Section MapLimitProperties.

Context {A R : Type}.
Variable items : list A.
Variable limit : nat.
Variable fn : A -> nat -> R.

Import Pool.

Local Abbreviation init := (@Pool.init A R items limit).
Local Abbreviation step := (Pool.step items fn).
Local Abbreviation steps := (Pool.steps items fn).
Local Abbreviation invariant := (Pool.invariant items limit fn).
Local Abbreviation width := (Nat.min limit (length items)).

Lemma start_spec m i :
  i + m <= length items ->
  start items m i = (map Awaiting (seq i m), i + m).
Proof.
  revert i. induction m as [|m IH]; intros i H; simpl.
  - f_equal. lia.
  - destruct (Nat.leb_spec (length items) i) as [Hle|Hlt]; [lia|].
    rewrite IH by lia. f_equal. lia.
Qed.

Lemma init_eq :
  init = {| next := width; out := replicate (length items) None;
            workers := map Awaiting (seq 0 width) |}.
Proof.
  unfold Pool.init. rewrite start_spec by lia. reflexivity.
Qed.

Lemma lookup_started k w m :
  map Awaiting (seq 0 m) !! k = Some w -> w = Awaiting k /\ k < m.
Proof.
  intros H. change (map Awaiting (seq 0 m)) with (Awaiting <$> seq 0 m) in H.
  rewrite list_lookup_fmap in H.
  destruct (seq 0 m !! k) as [j|] eqn:E; [|discriminate].
  pose proof (lookup_lt_Some _ _ _ E) as Hlt. rewrite length_seq in Hlt.
  rewrite lookup_seq_lt in E by exact Hlt. simpl in *. split; [congruence|lia].
Qed.

Lemma awaiting_started i m : awaiting (map Awaiting (seq i m)) = m.
Proof. revert i. induction m as [|m IH]; intros i; simpl; [|rewrite IH]; reflexivity. Qed.

Lemma invariant_init : invariant init.
Proof.
  rewrite init_eq. constructor; simpl.
  - apply length_replicate.
  - rewrite length_map, length_seq. reflexivity.
  - intros k idx H. apply lookup_started in H. destruct H as [[= ->] H]. lia.
  - intros j x Hj Hx. right. exists j.
    change (map Awaiting (seq 0 width)) with (Awaiting <$> seq 0 width).
    rewrite list_lookup_fmap, lookup_seq_lt by exact Hj. reflexivity.
  - intros k H. apply lookup_started in H. destruct H as [H _]. discriminate.
  - rewrite awaiting_started. lia.
Qed.

Lemma awaiting_insert ws k idx w :
  ws !! k = Some (Awaiting idx) ->
  S (awaiting (<[k := w]> ws))
  = awaiting ws + match w with Awaiting _ => 1 | Finished => 0 end.
Proof.
  revert k. induction ws as [|w0 ws IH]; intros k H; [discriminate|].
  destruct k as [|k]; simpl in *.
  - injection H as ->. destruct w; lia.
  - specialize (IH k H). destruct w0; lia.
Qed.

Lemma invariant_step p q : invariant p -> step p q -> invariant q.
Proof.
  intros [Hout Hws Hwait Hslot Hfin Hcount] Hstep.
  destruct Hstep as [p k idx x Hk Hx].
  destruct (Hwait k idx Hk) as [Hidx1 Hidx2].
  pose proof (lookup_lt_Some _ _ _ Hk) as Hklen.
  unfold enter. constructor; simpl.
  - rewrite length_insert. exact Hout.
  - rewrite length_insert. exact Hws.
  - intros k' idx' H. destruct (decide (k = k')) as [<-|Hne].
    + rewrite list_lookup_insert_eq in H by exact Hklen.
      destruct (Nat.leb_spec (length items) (next p)); [discriminate|].
      injection H as <-. lia.
    + rewrite list_lookup_insert_ne in H by exact Hne.
      destruct (Hwait k' idx' H). lia.
  - intros j y Hj Hy. destruct (decide (idx = j)) as [<-|Hne].
    + left. rewrite list_lookup_insert_eq by lia. congruence.
    + rewrite list_lookup_insert_ne by exact Hne.
      destruct (decide (j = next p)) as [->|Hnext].
      * right. exists k. rewrite list_lookup_insert_eq by exact Hklen.
        pose proof (lookup_lt_Some _ _ _ Hy).
        destruct (Nat.leb_spec (length items) (next p)); [lia|reflexivity].
      * destruct (Hslot j y ltac:(lia) Hy) as [H|[k' H]]; [left; exact H|].
        right. exists k'. rewrite list_lookup_insert_ne; [exact H|].
        intros <-. congruence.
  - intros k' H. destruct (decide (k = k')) as [<-|Hne].
    + rewrite list_lookup_insert_eq in H by exact Hklen.
      destruct (Nat.leb_spec (length items) (next p)); [lia|discriminate].
    + rewrite list_lookup_insert_ne in H by exact Hne.
      specialize (Hfin k' H). lia.
  - pose proof (awaiting_insert (workers p) k idx
                  (if (length items <=? next p)%nat then Finished else Awaiting (next p)) Hk) as Hc.
    destruct (Nat.leb_spec (length items) (next p)); lia.
Qed.

Lemma invariant_steps m p : steps m init p -> invariant p /\ next p = width + m.
Proof.
  remember init as p0 eqn:E0. intros H. induction H as [p|m p q r Hs IH Hst].
  - subst p. split; [apply invariant_init|]. rewrite init_eq. simpl. lia.
  - destruct (IH E0) as [Hinv Hnext]. split.
    + apply (invariant_step q r Hinv Hst).
    + destruct Hst. simpl. lia.
Qed.

Lemma awaiting_zero ws : awaiting ws = 0 <-> Forall (eq Finished) ws.
Proof.
  induction ws as [|w ws IH]; simpl.
  - split; [constructor|reflexivity].
  - destruct w; split; intros H.
    + discriminate.
    + inversion H; subst. discriminate.
    + constructor; [reflexivity|]. apply IH. exact H.
    + inversion H; subst. apply IH. assumption.
Qed.

Lemma awaiting_pos ws :
  0 < awaiting ws -> exists k idx, ws !! k = Some (Awaiting idx).
Proof.
  induction ws as [|w ws IH]; simpl; [lia|]. destruct w as [idx|]; intros H.
  - exists 0, idx. reflexivity.
  - destruct (IH H) as (k & idx & Hk). exists (S k), idx. exact Hk.
Qed.

(** A pool that is not settled can take a step. *)
Lemma progress p :
  invariant p -> 0 < awaiting (workers p) -> exists q, step p q.
Proof.
  intros Hinv Hpos. destruct (awaiting_pos _ Hpos) as (k & idx & Hk).
  destruct (inv_wait _ _ _ _ Hinv k idx Hk) as [_ Hlt].
  destruct (lookup_lt_is_Some_2 items idx Hlt) as [x Hx].
  eexists. apply (step_resume items fn p k idx x Hk Hx).
Qed.

Lemma run_to_end mu : forall m p,
  steps m init p -> length items + width - next p = mu ->
  exists m' q, steps m' init q /\ settled q.
Proof.
  induction mu as [|mu IH]; intros m p Hs Hmu;
    destruct (invariant_steps m p Hs) as [Hinv Hnext];
    pose proof (inv_count _ _ _ _ Hinv) as Hc.
  - exists m, p. split; [exact Hs|]. apply awaiting_zero. lia.
  - destruct (awaiting (workers p)) as [|a] eqn:Ea.
    + exists m, p. split; [exact Hs|]. apply awaiting_zero. exact Ea.
    + destruct (progress p Hinv ltac:(lia)) as [q Hq].
      apply (IH (S m) q).
      * apply (steps_S items fn m init p q Hs Hq).
      * destruct Hq. simpl. lia.
Qed.

Lemma settled_out p :
  1 <= limit -> invariant p -> settled p -> out p = expected items fn.
Proof.
  intros Hlim Hinv Hset. apply list_eq. intros j. unfold expected.
  rewrite list_lookup_imap.
  destruct (items !! j) as [x|] eqn:Hx; simpl.
  - pose proof (lookup_lt_Some _ _ _ Hx) as Hj.
    assert (Hw : 0 < length (workers p)).
    { rewrite (inv_workers _ _ _ _ Hinv). lia. }
    destruct (lookup_lt_is_Some_2 _ 0 Hw) as [w0 Hw0].
    assert (w0 = Finished) as ->.
    { symmetry. apply (proj1 (Forall_lookup _ _) Hset 0 w0 Hw0). }
    pose proof (inv_finished _ _ _ _ Hinv 0 Hw0) as Hnext.
    destruct (inv_slot _ _ _ _ Hinv j x ltac:(lia) Hx) as [H|[k H]]; [exact H|].
    pose proof (proj1 (Forall_lookup _ _) Hset k _ H) as Habs. discriminate.
  - apply lookup_ge_None. apply lookup_ge_None in Hx.
    rewrite (inv_out _ _ _ _ Hinv). exact Hx.
Qed.

(** With at least one worker, the pool comes to an end on every order in
    which the promises settle, after one step per item, and what it returns
    has the length of the input and holds at each index the value of [fn] for
    the item at that index, whatever the number of workers and the order. *)
Theorem mapLimit_keeps_input_order :
  1 <= limit ->
  (exists result, mapLimit items limit fn result) /\
  (forall result, mapLimit items limit fn result ->
     result = expected items fn /\
     length result = length items /\
     forall i x, items !! i = Some x -> result !! i = Some (Some (fn x i))) /\
  (forall m p, steps m init p -> m <= length items).
Proof.
  intros Hlim. split; [|split].
  - destruct (run_to_end _ 0 init (steps_O items fn init) eq_refl)
      as (m & q & Hs & Hset).
    exists (out q), m, q. auto.
  - intros result (m & p & Hs & Hset & <-).
    destruct (invariant_steps m p Hs) as [Hinv _].
    rewrite (settled_out p Hlim Hinv Hset). split; [reflexivity|]. split.
    + unfold expected. apply length_imap.
    + intros i x Hx. unfold expected. rewrite list_lookup_imap, Hx. reflexivity.
  - intros m p Hs. destruct m as [|m]; [lia|].
    inversion Hs as [|m0 p0 q r Hs' Hst]; subst.
    destruct (invariant_steps m q Hs') as [Hinv Hnext].
    pose proof (inv_count _ _ _ _ Hinv) as Hc.
    destruct Hst as [q k idx x Hk Hx].
    assert (0 < awaiting (workers q)).
    { pose proof (awaiting_insert (workers q) k idx Finished Hk) as Ha.
      simpl in Ha. lia. }
    lia.
Qed.

End MapLimitProperties.

Lemma mapLimit_keeps_input_order_witness :
  (exists result, Pool.mapLimit sampleSymbols 2 tagged result) /\
  (forall result, Pool.mapLimit sampleSymbols 2 tagged result ->
     result = Pool.expected sampleSymbols tagged /\
     length result = length sampleSymbols /\
     forall i x, sampleSymbols !! i = Some x ->
                 result !! i = Some (Some (tagged x i))) /\
  (forall m p, Pool.steps sampleSymbols tagged m (Pool.init sampleSymbols 2) p ->
               m <= length sampleSymbols).
Proof. apply (mapLimit_keeps_input_order sampleSymbols 2 tagged). lia. Defined.

(** Three symbols and two workers; the second promise settles first, then
    the third, then the first: the results still stand in the order of the
    symbols. *)
Example mapLimit_out_of_order :
  exists p,
    Pool.steps sampleSymbols tagged 3 (Pool.init sampleSymbols 2) p /\
    Pool.settled p /\
    Pool.out p = [Some ("gc.f", 0); Some ("btc.v", 1); Some ("^spx", 2)].
Proof.
  eexists. split.
  - eapply Pool.steps_S.
    + eapply Pool.steps_S.
      * eapply Pool.steps_S.
        -- apply Pool.steps_O.
        -- apply (Pool.step_resume sampleSymbols tagged _ 1 1 "btc.v"); reflexivity.
      * apply (Pool.step_resume sampleSymbols tagged _ 1 2 "^spx"); reflexivity.
    + apply (Pool.step_resume sampleSymbols tagged _ 0 0 "gc.f"); reflexivity.
  - split; [repeat constructor | reflexivity].
Qed.

(** With a limit of 0 no worker runs and the array comes back empty of
    results. *)
Example mapLimit_limit_zero :
  Pool.mapLimit sampleSymbols 0 tagged [None; None; None].
Proof.
  exists 0, (Pool.init sampleSymbols 0). split; [apply Pool.steps_O|].
  split; [constructor | reflexivity].
Qed.

(** *** The limit as a number *)

Example workerCount_samples :
  workerCount (Num.Number "2") 3 = Some 2 /\
  workerCount (Num.Number "4") 3 = Some 3 /\
  workerCount (S754_infinity false) 3 = Some 3 /\
  workerCount (Num.Number "2.5") 2 = Some 2 /\
  workerCount (Num.Number "0") 3 = Some 0 /\
  workerCount (Num.Number "-1") 3 = None /\
  workerCount S754_nan 3 = None.
Proof. vm_compute. repeat split. Qed.

(** When [new Array] accepts the length and there is a worker, the call
    returns, and returns the results in the order of the items. *)
Lemma callMapLimit_keeps_input_order {A R : Type} (items : list A)
    (limit : Num.num) (fn : A -> nat -> R) (n : nat) :
  workerCount limit (length items) = Some n ->
  1 <= n ->
  (exists r, callMapLimit items limit fn r) /\
  (forall r, callMapLimit items limit fn r -> r = Ok (Pool.expected items fn)).
Proof.
  intros Hn Hpos. unfold callMapLimit. rewrite Hn.
  destruct (mapLimit_keeps_input_order items n fn Hpos) as ((result & Hr) & Hall & _).
  split.
  - exists (Ok result), result. auto.
  - intros r (result' & Hr' & ->). destruct (Hall result' Hr') as [-> _]. reflexivity.
Qed.

(** C9.  A limit of at least 1 that is not a whole number and lies below
    the number of items makes [mapLimit] throw before any worker starts:
    [new Array] refuses the length, and nothing is returned.  The option
    [--concurrency 2.5] reaches that call, since [main] passes a number of
    at least 1 on as it is. *)
Theorem mapLimit_fractional_limit :
  SFleb (Num.ofZ 1) (Num.Number "2.5") = true /\
  effectiveConcurrency "auto" (Num.Number "2.5") = Num.Number "2.5" /\
  workerCount (Num.Number "2.5") (length sampleSymbols) = None /\
  (forall r,
     callMapLimit sampleSymbols (Num.Number "2.5") tagged r <->
     r = Throw (External "Invalid array length")) /\
  ~ (exists result,
       callMapLimit sampleSymbols (Num.Number "2.5") tagged (Ok result)).
Proof.
  assert (Hw : workerCount (Num.Number "2.5") (length sampleSymbols) = None)
    by (vm_compute; reflexivity).
  split; [vm_compute; reflexivity|]. split; [vm_compute; reflexivity|].
  split; [exact Hw|]. unfold callMapLimit. rewrite Hw. split.
  - intros r. tauto.
  - intros [result H]. discriminate H.
Qed.

(** ** The matcher against what a pattern matches *)

Section Matcher.

Variable ic : bool.

Lemma many_sound {A} cl (k : cont A) s : forall p caps x,
  many ic cl p s caps k = Some x ->
  exists p' s' caps',
    Matches ic (Many cl) p s caps p' s' caps' /\ k p' s' caps' = Some x.
Proof.
  induction s as [|a s IH]; intros p caps x H; simpl in H.
  - exists p, EmptyString, caps. split; [constructor | exact H].
  - destruct (inClass ic cl a) eqn:Ea.
    + destruct (many ic cl (Some a) s caps k) as [y|] eqn:Em.
      * injection H as <-. destruct (IH _ _ _ Em) as (p' & s' & caps' & Hm & Hk).
        exists p', s', caps'. split; [|exact Hk].
        apply M_Many_more; assumption.
      * exists p, (String a s), caps. split; [constructor | exact H].
    + exists p, (String a s), caps. split; [constructor | exact H].
Qed.

(** Whatever the matcher returns comes from a match of the pattern followed
    by a success of the continuation. *)
Lemma run_sound {A} r : forall (k : cont A) p s caps x,
  run ic r p s caps k = Some x ->
  exists p' s' caps',
    Matches ic r p s caps p' s' caps' /\ k p' s' caps' = Some x.
Proof.
  induction r as [|c|cl|cl|r IH|r1 IH1 r2 IH2|r IH| | |];
    intros k p s caps x H; simpl in H.
  - exists p, s, caps. split; [constructor | exact H].
  - destruct s as [|a s]; [discriminate|].
    destruct (eqc ic a c) eqn:E; [|discriminate].
    exists (Some a), s, caps. split; [constructor; exact E | exact H].
  - destruct s as [|a s]; [discriminate|].
    destruct (inClass ic cl a) eqn:E; [|discriminate].
    exists (Some a), s, caps. split; [constructor; exact E | exact H].
  - apply many_sound. exact H.
  - destruct (run ic r p s caps k) as [y|] eqn:E.
    + injection H as <-. destruct (IH _ _ _ _ _ E) as (p' & s' & caps' & Hm & Hk).
      exists p', s', caps'. split; [apply M_Opt_take; exact Hm | exact Hk].
    + exists p, s, caps. split; [apply M_Opt_skip | exact H].
  - destruct (IH1 _ _ _ _ _ H) as (p1 & s1 & c1 & Hm1 & Hk1).
    destruct (IH2 _ _ _ _ _ Hk1) as (p2 & s2 & c2 & Hm2 & Hk2).
    exists p2, s2, c2. split; [|exact Hk2].
    apply (M_Cat ic r1 r2 p s caps p1 s1 c1 p2 s2 c2 Hm1 Hm2).
  - destruct (IH _ _ _ _ _ H) as (p1 & s1 & c1 & Hm & Hk).
    exists p1, s1, (c1 ++ [consumed s s1])%list. split; [|exact Hk].
    apply M_Grp. exact Hm.
  - destruct (xorb (isWordAt p) (isWordAt (head s))) eqn:E; [|discriminate].
    exists p, s, caps. split; [constructor; exact E | exact H].
  - destruct p; [discriminate|].
    exists None, s, caps. split; [constructor | exact H].
  - destruct s; [|discriminate].
    exists p, EmptyString, caps. split; [constructor | exact H].
Qed.

(** When the pattern matches and the continuation succeeds after that
    match, the matcher succeeds (possibly through another match that it
    tries first). *)
Lemma run_complete r p s caps p' s' caps' :
  Matches ic r p s caps p' s' caps' ->
  forall {A} (k : cont A),
    (forall c, k p' s' c <> None) ->
    forall caps0, run ic r p s caps0 k <> None.
Proof.
  induction 1 as
    [p s caps|c a p s caps E|cl a p s caps E|cl p s caps
    |cl a p s caps p' s' caps' E Hm IH|r p s caps p' s' caps' Hm IH
    |r p s caps|r1 r2 p s caps p1 s1 caps1 p2 s2 caps2 Hm1 IH1 Hm2 IH2
    |r p s caps p' s' caps' Hm IH|p s caps E|s caps|p caps];
    intros A k Hk caps0; simpl.
  - apply Hk.
  - rewrite E. apply Hk.
  - rewrite E. apply Hk.
  - destruct s as [|a s]; simpl; [apply Hk|].
    destruct (inClass ic cl a); [|apply Hk].
    destruct (many ic cl (Some a) s caps0 k); [discriminate | apply Hk].
  - rewrite E. specialize (IH A k Hk caps0). simpl in IH.
    destruct (many ic cl (Some a) s caps0 k); [discriminate | contradiction].
  - specialize (IH A k Hk caps0).
    destruct (run ic r p s caps0 k); [discriminate | contradiction].
  - destruct (run ic r p s caps0 k); [discriminate | apply Hk].
  - apply IH1. intros c. apply IH2. exact Hk.
  - apply IH. intros c. apply Hk.
  - rewrite E. apply Hk.
  - apply Hk.
  - apply Hk.
Qed.

Lemma matchHere_sound r p s m :
  matchHere ic r p s = Some m ->
  Matches ic r p s [] (before m) (rest m) (groups m).
Proof.
  unfold matchHere. intros H.
  destruct (run_sound r _ p s [] m H) as (p' & s' & caps' & Hm & [= <-]).
  exact Hm.
Qed.

Lemma matchHere_complete r p s p' s' caps' :
  Matches ic r p s [] p' s' caps' -> matchHere ic r p s <> None.
Proof.
  intros H. unfold matchHere.
  apply (run_complete r p s [] p' s' caps' H). intros c. discriminate.
Qed.

End Matcher.

(** ** Facts on strings *)

Lemma sapp_assoc (a b c : string) : (a ++ b) ++ c = a ++ (b ++ c).
Proof. induction a as [|x a IH]; simpl; [|rewrite IH]; reflexivity. Qed.

Lemma sapp_nil_r (a : string) : a ++ EmptyString = a.
Proof. induction a as [|x a IH]; simpl; [|rewrite IH]; reflexivity. Qed.

Lemma slength_app (a b : string) :
  String.length (a ++ b) = String.length a + String.length b.
Proof. induction a as [|x a IH]; simpl; [|rewrite IH]; reflexivity. Qed.

Lemma substring_prefix (t s : string) :
  String.substring 0 (String.length t) (t ++ s) = t.
Proof.
  induction t as [|x t IH]; simpl.
  - destruct s; reflexivity.
  - rewrite IH. reflexivity.
Qed.

Lemma consumed_app (t s : string) : consumed (t ++ s) s = t.
Proof.
  unfold consumed. rewrite slength_app.
  replace (String.length t + String.length s - String.length s)
    with (String.length t) by lia.
  apply substring_prefix.
Qed.

Lemma lastOr_app p (a b : string) : lastOr p (a ++ b) = lastOr (lastOr p a) b.
Proof. revert p. induction a as [|x a IH]; intros p; simpl; [|rewrite IH]; reflexivity. Qed.

Lemma sapp_inv_length (a a' b b' : string) :
  a ++ b = a' ++ b' -> String.length a = String.length a' -> a = a' /\ b = b'.
Proof.
  revert a'. induction a as [|x a IH]; intros [|x' a'] H Hl; simpl in *;
    try discriminate.
  - auto.
  - injection H as -> H. injection Hl as Hl.
    destruct (IH a' H Hl) as [-> ->]. auto.
Qed.

Lemma sapp_inv_tail (a a' b : string) : a ++ b = a' ++ b -> a = a'.
Proof.
  intros H. apply (sapp_inv_length a a' b b H).
  apply (f_equal String.length) in H. rewrite !slength_app in H. lia.
Qed.

Lemma sameText_length ic (t pat : string) :
  sameText ic t pat = true -> String.length t = String.length pat.
Proof.
  revert pat. induction t as [|a t IH]; intros [|c pat] H; simpl in *;
    try discriminate; [reflexivity|].
  apply andb_prop in H. destruct H as [_ H]. rewrite (IH pat H). reflexivity.
Qed.

Lemma allIn_app ic cl (a b : string) :
  allIn ic cl (a ++ b) = allIn ic cl a && allIn ic cl b.
Proof.
  induction a as [|x a IH]; simpl; [reflexivity|].
  rewrite IH. apply andb_assoc.
Qed.

(** ** Reading a match back *)

Section Inversion.

Variable ic : bool.

Lemma inv_Cat r1 r2 p s c p2 s2 c2 :
  Matches ic (Cat r1 r2) p s c p2 s2 c2 ->
  exists p1 s1 c1,
    Matches ic r1 p s c p1 s1 c1 /\ Matches ic r2 p1 s1 c1 p2 s2 c2.
Proof. intros H. inversion H; subst. eauto. Qed.

Lemma inv_Grp r p s c p' s' c' :
  Matches ic (Grp r) p s c p' s' c' ->
  exists c1, Matches ic r p s c p' s' c1 /\ c' = (c1 ++ [consumed s s'])%list.
Proof. intros H. inversion H; subst. eauto. Qed.

Lemma inv_One cl p s c p' s' c' :
  Matches ic (One cl) p s c p' s' c' ->
  exists a, s = String a s' /\ inClass ic cl a = true /\ p' = Some a /\ c' = c.
Proof. intros H. inversion H; subst. eauto. Qed.

Lemma inv_Chr x p s c p' s' c' :
  Matches ic (Chr x) p s c p' s' c' ->
  exists a, s = String a s' /\ eqc ic a x = true /\ p' = Some a /\ c' = c.
Proof. intros H. inversion H; subst. eauto. Qed.

Lemma inv_Opt r p s c p' s' c' :
  Matches ic (Opt r) p s c p' s' c' ->
  Matches ic r p s c p' s' c' \/ (p' = p /\ s' = s /\ c' = c).
Proof. intros H. inversion H; subst; auto. Qed.

Lemma inv_Eps p s c p' s' c' :
  Matches ic Eps p s c p' s' c' -> p' = p /\ s' = s /\ c' = c.
Proof. intros H. inversion H; subst; auto. Qed.

Lemma inv_Eol p s c p' s' c' :
  Matches ic Eol p s c p' s' c' ->
  s = EmptyString /\ p' = p /\ s' = EmptyString /\ c' = c.
Proof. intros H. inversion H; subst; auto. Qed.

Lemma inv_Bol p s c p' s' c' :
  Matches ic Bol p s c p' s' c' -> p = None /\ p' = None /\ s' = s /\ c' = c.
Proof. intros H. inversion H; subst; auto. Qed.

Lemma inv_WordB p s c p' s' c' :
  Matches ic WordB p s c p' s' c' ->
  xorb (isWordAt p) (isWordAt (head s)) = true /\ p' = p /\ s' = s /\ c' = c.
Proof. intros H. inversion H; subst; auto. Qed.

Lemma inv_Many cl p s c p' s' c' :
  Matches ic (Many cl) p s c p' s' c' ->
  exists t, s = t ++ s' /\ allIn ic cl t = true /\ p' = lastOr p t /\ c' = c.
Proof.
  remember (Many cl) as r eqn:Er. intros H.
  induction H; try discriminate.
  - exists EmptyString. auto.
  - injection Er as ->. destruct (IHMatches eq_refl) as (t & -> & Ht & -> & ->).
    exists (String a t). simpl. rewrite H, Ht. auto.
Qed.

Lemma Many_intro cl t : forall p s c,
  allIn ic cl t = true ->
  Matches ic (Many cl) p (t ++ s) c (lastOr p t) s c.
Proof.
  induction t as [|a t IH]; intros p s c H; simpl in *.
  - constructor.
  - apply andb_prop in H. destruct H as [Ha Ht].
    apply M_Many_more; [exact Ha | apply IH; exact Ht].
Qed.

Lemma inv_lits pat : forall p s c p' s' c',
  Matches ic (lits pat) p s c p' s' c' ->
  exists t, s = t ++ s' /\ sameText ic t pat = true /\ p' = lastOr p t /\ c' = c.
Proof.
  induction pat as [|x pat IH]; intros p s c p' s' c' H; simpl in H.
  - apply inv_Eps in H. destruct H as (-> & -> & ->). exists EmptyString. auto.
  - apply inv_Cat in H. destruct H as (p1 & s1 & c1 & H1 & H2).
    apply inv_Chr in H1. destruct H1 as (a & -> & Ha & -> & ->).
    destruct (IH _ _ _ _ _ _ H2) as (t & -> & Ht & -> & ->).
    exists (String a t). simpl. rewrite Ha, Ht. auto.
Qed.

Lemma lits_intro pat : forall t p s c,
  sameText ic t pat = true ->
  Matches ic (lits pat) p (t ++ s) c (lastOr p t) s c.
Proof.
  induction pat as [|x pat IH]; intros [|a t] p s c H; simpl in *;
    try discriminate.
  - constructor.
  - apply andb_prop in H. destruct H as [Ha Ht].
    apply (M_Cat ic (Chr x) (lits pat) p (String a (t ++ s)) c (Some a) (t ++ s) c).
    + constructor. exact Ha.
    + apply IH. exact Ht.
Qed.

(** A match consumes a prefix of the text. *)
Lemma Matches_prefix r p s c p' s' c' :
  Matches ic r p s c p' s' c' -> exists t, s = t ++ s' /\ p' = lastOr p t.
Proof.
  induction 1;
    try (exists EmptyString; split; reflexivity);
    try (exists (String a EmptyString); split; reflexivity).
  - destruct IHMatches as (t & -> & ->). exists (String a t). auto.
  - assumption.
  - destruct IHMatches1 as (t1 & -> & ->). destruct IHMatches2 as (t2 & -> & ->).
    exists (t1 ++ t2). rewrite sapp_assoc, lastOr_app. auto.
  - assumption.
Qed.

End Inversion.

(** ** The suffix pattern *)

Ltac invm :=
  repeat match goal with
  | H : Matches _ (Cat _ _) _ _ _ _ _ _ |- _ =>
      apply inv_Cat in H; destruct H as (? & ? & ? & ? & ?)
  | H : Matches _ (Grp _) _ _ _ _ _ _ |- _ =>
      apply inv_Grp in H; destruct H as (? & ? & ?)
  | H : Matches _ (One _) _ _ _ _ _ _ |- _ =>
      apply inv_One in H; destruct H as (? & ? & ? & ? & ?)
  | H : Matches _ (Chr _) _ _ _ _ _ _ |- _ =>
      apply inv_Chr in H; destruct H as (? & ? & ? & ? & ?)
  | H : Matches _ (Many _) _ _ _ _ _ _ |- _ =>
      apply inv_Many in H; destruct H as (? & ? & ? & ? & ?)
  | H : Matches _ Eol _ _ _ _ _ _ |- _ =>
      apply inv_Eol in H; destruct H as (? & ? & ? & ?)
  | H : Matches _ Bol _ _ _ _ _ _ |- _ =>
      apply inv_Bol in H; destruct H as (? & ? & ? & ?)
  | H : Matches _ WordB _ _ _ _ _ _ |- _ =>
      apply inv_WordB in H; destruct H as (? & ? & ? & ?)
  | H : Matches _ Eps _ _ _ _ _ _ |- _ =>
      apply inv_Eps in H; destruct H as (? & ? & ?)
  | H : Matches _ (Opt _) _ _ _ _ _ _ |- _ =>
      apply inv_Opt in H; destruct H as [H | (? & ? & ?)]
  end.

Lemma search_Bol ic r s : forall p m,
  search ic (Cat Bol r) p s = Some m ->
  p = None /\ matchHere ic (Cat Bol r) None s = Some m.
Proof.
  induction s as [|a s IH]; intros p m H; simpl in H.
  - destruct (matchHere ic (Cat Bol r) p EmptyString) as [m'|] eqn:E; [|discriminate].
    injection H as <-. pose proof (matchHere_sound _ _ _ _ _ E) as Hm.
    invm. subst. auto.
  - destruct (matchHere ic (Cat Bol r) p (String a s)) as [m'|] eqn:E.
    + injection H as <-. pose proof (matchHere_sound _ _ _ _ _ E) as Hm.
      invm. subst. auto.
    + destruct (IH _ _ H) as [Hp _]. discriminate.
Qed.


Lemma unitForm_intro t sg ip fr u m :
  t = (sg ++ ip ++ fr) ++ String u EmptyString ->
  isSign sg = true -> isDigits ip = true -> isFraction fr = true ->
  inClass false unitClass u = true ->
  groups m = [consumed t (String u EmptyString);
              consumed (String u EmptyString) EmptyString] ->
  exists numText u', UnitForm t numText u' /\ groups m = [numText; String u' EmptyString].
Proof.
  intros -> Hs Hi Hf Hu Hg. exists (sg ++ ip ++ fr), u. split.
  - constructor; [reflexivity | exists sg, ip, fr; auto | exact Hu].
  - rewrite Hg, consumed_app. reflexivity.
Qed.

Lemma unitRegExp_sound t m :
  search false unitRegExp None t = Some m ->
  exists numText u, UnitForm t numText u /\ groups m = [numText; String u EmptyString].
Proof.
  intros H. apply search_Bol in H. destruct H as [_ H].
  apply matchHere_sound in H. unfold unitRegExp in H.
  invm; subst; simpl in *;
    match goal with
    | Hg : groups m = _ |- _ =>
        match type of Hg with
        | context [String ?a (String ?d (?ds ++ String ?dot (String ?f (?fs ++ String ?u EmptyString))))] =>
            apply (unitForm_intro _ (String a EmptyString) (String d ds)
                     (String dot (String f fs)) u m)
        | context [String ?d (?ds ++ String ?dot (String ?f (?fs ++ String ?u EmptyString)))] =>
            apply (unitForm_intro _ EmptyString (String d ds)
                     (String dot (String f fs)) u m)
        | context [String ?a (String ?d (?ds ++ String ?u EmptyString))] =>
            apply (unitForm_intro _ (String a EmptyString) (String d ds)
                     EmptyString u m)
        | context [String ?d (?ds ++ String ?u EmptyString)] =>
            apply (unitForm_intro _ EmptyString (String d ds) EmptyString u m)
        end
    end;
    simpl; rewrite ?sapp_assoc, ?sapp_nil_r; simpl; rewrite ?sapp_assoc;
    try reflexivity; try assumption;
    unfold isDigits; simpl;
    repeat match goal with H : _ = true |- _ => rewrite H end; reflexivity.
Qed.

Lemma search_head ic r p s m :
  matchHere ic r p s = Some m -> search ic r p s = Some m.
Proof. intros H. destruct s; simpl; rewrite H; reflexivity. Qed.

Lemma isDigits_cons ip :
  isDigits ip = true ->
  exists d ds, ip = String d ds /\ inClass false digitClass d = true /\
               allIn false digitClass ds = true.
Proof.
  destruct ip as [|d ds]; [discriminate|]. unfold isDigits. simpl.
  intros H. apply andb_prop in H. eauto.
Qed.

Lemma unitRegExp_matches t numText u :
  UnitForm t numText u ->
  exists p' c', Matches false unitRegExp None t [] p' EmptyString c'.
Proof.
  intros [-> (sg & ip & fr & -> & Hs & Hi & Hf) Hu].
  destruct (isDigits_cons ip Hi) as (d & ds & -> & Hd & Hds).
  assert (Hfr : exists p1,
    Matches false (Opt (Cat (Chr ".") (Cat (One digitClass) (Many digitClass))))
      (lastOr (Some d) ds) (fr ++ String u EmptyString) [] p1 (String u EmptyString) []).
  { destruct fr as [|dot fs]; simpl.
    - eexists. apply M_Opt_skip.
    - simpl in Hf. apply andb_prop in Hf. destruct Hf as [Hdot Hfs].
      destruct (isDigits_cons fs Hfs) as (f & fs' & -> & Hf1 & Hf2).
      eexists. apply M_Opt_take. eapply M_Cat; [constructor; exact Hdot|].
      eapply M_Cat; [constructor; exact Hf1|]. simpl.
      apply Many_intro. exact Hf2. }
  destruct Hfr as (p1 & Hfr).
  assert (Hnum : forall p0,
    Matches false (Cat (One digitClass) (Cat (Many digitClass)
              (Opt (Cat (Chr ".") (Cat (One digitClass) (Many digitClass))))))
      p0 (String d ds ++ fr ++ String u EmptyString) [] p1 (String u EmptyString) []).
  { intros p0. simpl. eapply M_Cat; [constructor; exact Hd|].
    eapply M_Cat; [apply Many_intro; exact Hds | exact Hfr]. }
  assert (Hg : Matches false
      (Cat (Opt (One signClass)) (Cat (One digitClass) (Cat (Many digitClass)
              (Opt (Cat (Chr ".") (Cat (One digitClass) (Many digitClass)))))))
      None ((sg ++ String d ds ++ fr) ++ String u EmptyString) [] p1 (String u EmptyString) []).
  { rewrite !sapp_assoc. destruct sg as [|a [|b sg]]; simpl in Hs; try discriminate.
    - eapply M_Cat; [apply M_Opt_skip | apply Hnum].
    - eapply M_Cat; [apply M_Opt_take; constructor; exact Hs | apply Hnum]. }
  eexists. eexists. unfold unitRegExp.
  eapply M_Cat; [constructor|].
  eapply M_Cat; [apply M_Grp; exact Hg|].
  eapply M_Cat; [apply M_Grp; constructor; exact Hu | constructor].
Qed.

Lemma unitRegExp_complete t numText u :
  UnitForm t numText u ->
  exists m, search false unitRegExp None t = Some m /\
            groups m = [numText; String u EmptyString].
Proof.
  intros Hf. destruct (unitRegExp_matches t numText u Hf) as (p' & c' & Hm).
  apply matchHere_complete in Hm.
  destruct (matchHere false unitRegExp None t) as [m|] eqn:E; [|contradiction].
  apply search_head in E. exists m. split; [exact E|].
  destruct (unitRegExp_sound t m E) as (n' & u' & Hf' & Hg).
  rewrite Hg. destruct Hf as [H1 _ _], Hf' as [H2 _ _].
  rewrite H1 in H2.
  destruct (sapp_inv_length numText n' (String u EmptyString) (String u' EmptyString) H2) as [-> [= ->]].
  - apply (f_equal String.length) in H2. rewrite !slength_app in H2. simpl in H2. lia.
  - reflexivity.
Qed.

(** ** The string primitives *)

Lemma rev_app (a b : string) : JS.rev (a ++ b) = JS.rev b ++ JS.rev a.
Proof.
  induction a as [|x a IH]; simpl.
  - rewrite sapp_nil_r. reflexivity.
  - rewrite IH, sapp_assoc. reflexivity.
Qed.

Lemma rev_rev (s : string) : JS.rev (JS.rev s) = s.
Proof.
  induction s as [|x s IH]; simpl; [reflexivity|].
  rewrite rev_app, IH. reflexivity.
Qed.

Lemma prefix_char c s :
  String.prefix (String c EmptyString) s = true <-> exists r, s = String c r.
Proof.
  destruct s as [|a s]; simpl.
  - split; [discriminate | intros [r H]; discriminate].
  - destruct (ascii_dec c a) as [->|Hne].
    + split; [eauto | destruct s; reflexivity].
    + split; [discriminate | intros [r [= <- _]]; contradiction].
Qed.

Lemma startsWith_char s c :
  JS.startsWith s (String c EmptyString) = true <-> exists r, s = String c r.
Proof. apply prefix_char. Qed.

Lemma endsWith_char s c :
  JS.endsWith s (String c EmptyString) = true <->
  exists x, s = x ++ String c EmptyString.
Proof.
  unfold JS.endsWith. simpl. rewrite prefix_char. split.
  - intros [r H]. exists (JS.rev r).
    rewrite <- (rev_rev s), H. reflexivity.
  - intros [x ->]. exists (JS.rev x). rewrite rev_app. reflexivity.
Qed.

Lemma sliceIndex_nonneg len i :
  (0 <= i)%Z -> JS.sliceIndex len i = Nat.min len (Z.to_nat i).
Proof.
  intros H. unfold JS.sliceIndex.
  destruct (Z.ltb_spec i 0); [lia | reflexivity].
Qed.

Lemma sliceIndex_neg len i :
  (i < 0)%Z -> JS.sliceIndex len i = Z.to_nat (Z.max 0 (Z.of_nat len + i)).
Proof.
  intros H. unfold JS.sliceIndex.
  destruct (Z.ltb_spec i 0); [reflexivity | lia].
Qed.

Lemma slice_drop_last x c :
  JS.slice (x ++ String c EmptyString) 0 (-1) = x.
Proof.
  unfold JS.slice. rewrite sliceIndex_nonneg, sliceIndex_neg by lia.
  rewrite slength_app.
  replace (Nat.min _ (Z.to_nat 0)) with 0 by lia.
  replace (Z.to_nat _ - 0) with (String.length x)
    by (cbn [String.length]; lia).
  apply substring_prefix.
Qed.

Lemma slice_unwrap a body c :
  JS.slice (String a (body ++ String c EmptyString)) 1 (-1) = body.
Proof.
  unfold JS.slice. rewrite sliceIndex_nonneg, sliceIndex_neg by lia.
  cbn [String.length]. rewrite slength_app. cbn [String.length].
  replace (Nat.min _ (Z.to_nat 1)) with 1 by lia.
  replace (Z.to_nat _ - 1) with (String.length body) by lia.
  cbn [String.substring]. apply substring_prefix.
Qed.

Lemma withoutPercent_snoc x : withoutPercent (x ++ "%") = x.
Proof.
  induction x as [|c x IH]; [reflexivity|].
  simpl. rewrite IH. destruct (x ++ "%") eqn:E; [|reflexivity].
  destruct x; discriminate.
Qed.

Lemma withoutPercent_other t :
  (forall x, t <> x ++ "%") -> withoutPercent t = t.
Proof.
  induction t as [|c t IH]; intros H; [reflexivity|].
  destruct t as [|c' t].
  - simpl. destruct (Ascii.eqb_spec c "%") as [->|Hne]; [|reflexivity].
    exfalso. apply (H EmptyString). reflexivity.
  - change (String c (withoutPercent (String c' t)) = String c (String c' t)).
    rewrite IH; [reflexivity|].
    intros x Hx. apply (H (String c x)). simpl. rewrite Hx. reflexivity.
Qed.

Lemma dropPercent_code t :
  (if JS.endsWith t "%" then JS.slice t 0 (-1) else t) = withoutPercent t.
Proof.
  destruct (JS.endsWith t "%") eqn:E.
  - apply endsWith_char in E. destruct E as [x ->].
    rewrite slice_drop_last, withoutPercent_snoc. reflexivity.
  - symmetry. apply withoutPercent_other. intros x Hx.
    assert (JS.endsWith t "%" = true) by (apply endsWith_char; eauto).
    congruence.
Qed.

Lemma wrapped_code t :
  JS.startsWith t "(" && JS.endsWith t ")" = true <->
  exists body, t = "(" ++ body ++ ")".
Proof.
  rewrite andb_true_iff, startsWith_char, endsWith_char. split.
  - intros [[r ->] [x Hx]]. destruct x as [|c x]; simpl in Hx.
    + discriminate.
    + injection Hx as <- ->. exists x. reflexivity.
  - intros [body ->]. split; [eauto|]. exists (String "(" body). reflexivity.
Qed.

Lemma isEmpty_true s : JS.isEmpty s = true <-> s = EmptyString.
Proof. destruct s; simpl; split; congruence. Qed.

Lemma isEmpty_false s : JS.isEmpty s = false <-> s <> EmptyString.
Proof. destruct s; simpl; split; congruence. Qed.

(** C4.  [parsePctLoose] gives null for null and for text that is empty
    once trimmed.  Otherwise it trims, takes the inside of a wrapping pair of
    parentheses when there is one, drops one final percent sign if there is
    one, and gives the loose numeric parse of what is left; nothing touches
    the sign. *)
Theorem parsePctLoose_steps :
  parsePctLoose None = None /\
  (forall s, JS.trim s = EmptyString -> parsePctLoose (Some s) = None) /\
  (forall s body,
     JS.trim s = "(" ++ body ++ ")" ->
     parsePctLoose (Some s) = parseNumberLoose (Some (withoutPercent body))) /\
  (forall s,
     JS.trim s <> EmptyString ->
     (forall body, JS.trim s <> "(" ++ body ++ ")") ->
     parsePctLoose (Some s) = parseNumberLoose (Some (withoutPercent (JS.trim s)))) /\
  (forall x, withoutPercent (x ++ "%") = x) /\
  (forall t, (forall x, t <> x ++ "%") -> withoutPercent t = t) /\
  parsePctLoose (Some "(+1.98%)") = Some (Prim2SF 1.98) /\
  parsePctLoose (Some "-1.98%") = Some (Prim2SF (-1.98)) /\
  parsePctLoose (Some "(-1.98%)") = Some (Prim2SF (-1.98)) /\
  parsePctLoose (Some "0%") = Some (Prim2SF 0) /\
  parsePctLoose (Some EmptyString) = None.
Proof.
  split; [reflexivity|]. split; [|split; [|split]].
  - intros s H. unfold parsePctLoose. rewrite H. reflexivity.
  - intros s body H. unfold parsePctLoose. rewrite H.
    change (JS.isEmpty ("(" ++ body ++ ")")) with false. cbv beta iota zeta.
    rewrite (proj2 (wrapped_code ("(" ++ body ++ ")"))) by eauto.
    change ("(" ++ body ++ ")") with (String "(" (body ++ ")")).
    rewrite slice_unwrap, dropPercent_code. reflexivity.
  - intros s Hne Hnw. unfold parsePctLoose.
    rewrite (proj2 (isEmpty_false _) Hne). cbv beta iota zeta.
    destruct (JS.startsWith (JS.trim s) "(" && JS.endsWith (JS.trim s) ")") eqn:E.
    + apply wrapped_code in E. destruct E as [body E]. destruct (Hnw body E).
    + rewrite dropPercent_code. reflexivity.
  - split; [apply withoutPercent_snoc|]. split; [apply withoutPercent_other|].
    repeat split; vm_compute; reflexivity.
Qed.

Lemma parsePctLoose_steps_witness :
  parsePctLoose (Some " (+1.98%) ")
  = parseNumberLoose (Some (withoutPercent "+1.98%")).
Proof.
  apply (proj1 (proj2 (proj2 parsePctLoose_steps)) " (+1.98%) " "+1.98%").
  reflexivity.
Defined.

(** ** The loose numeric parse *)

Lemma unit_multiplier u :
  inClass false unitClass u = true ->
  (if String.eqb (JS.toLowerCase (String u EmptyString)) "k" then Num.ofZ 1000
   else if String.eqb (JS.toLowerCase (String u EmptyString)) "m"
        then Num.ofZ 1000000
        else Num.ofZ 1000000000) = multiplier u.
Proof.
  unfold inClass, unitClass. cbn [negated members mem eqc xorb].
  repeat match goal with
         | |- context [Ascii.eqb ?c u] =>
             destruct (Ascii.eqb_spec c u) as [<-|?]; [reflexivity|]
         end.
  cbn [orb]. discriminate.
Qed.

Lemma parseNumberLoose_unit s numText u :
  UnitForm (JS.trim s) numText u ->
  parseNumberLoose (Some s) =
  if Num.isFinite (Num.Number numText)
  then Some (Num.mul (Num.Number numText) (multiplier u)) else None.
Proof.
  intros Hf. destruct (unitRegExp_complete _ _ _ Hf) as (m & Hs & Hg).
  unfold parseNumberLoose. rewrite Hs.
  assert (He : JS.isEmpty (JS.trim s) = false).
  { rewrite (uf_split _ _ _ Hf). destruct numText; reflexivity. }
  rewrite He. unfold group. rewrite Hg. cbn [nth Nat.sub]. cbv zeta.
  rewrite (unit_multiplier u (uf_unit _ _ _ Hf)). reflexivity.
Qed.

Lemma parseNumberLoose_plain s :
  JS.trim s <> EmptyString ->
  (forall numText u, ~ UnitForm (JS.trim s) numText u) ->
  parseNumberLoose (Some s)
  = finiteOrNull (Num.Number (JS.stripCommasAndSpace (JS.trim s))).
Proof.
  intros Hne Hnf. unfold parseNumberLoose.
  rewrite (proj2 (isEmpty_false _) Hne).
  destruct (search false unitRegExp None (JS.trim s)) as [m|] eqn:E.
  - destruct (unitRegExp_sound _ _ E) as (n & u & Hf & _).
    destruct (Hnf n u Hf).
  - reflexivity.
Qed.

(** C3 (amended).  [parseNumberLoose] gives null for null and for text that
    is empty once trimmed.  When the trimmed text is an optional sign, digits
    and an optional decimal part followed by one of [k], [m], [g], [b] in
    either case, it gives [Number] of the numeric part times a thousand, a
    million, a billion and a billion, provided that number is finite, and
    null when it is not.  Otherwise, when something is left after removing
    commas and white space, it gives [Number] of what is left, or null when
    that is not a finite number. *)
Theorem parseNumberLoose_steps :
  parseNumberLoose None = None /\
  (forall s, JS.trim s = EmptyString -> parseNumberLoose (Some s) = None) /\
  (forall s numText u,
     UnitForm (JS.trim s) numText u ->
     parseNumberLoose (Some s) =
     if Num.isFinite (Num.Number numText)
     then Some (Num.mul (Num.Number numText) (multiplier u)) else None) /\
  (forall s,
     JS.trim s <> EmptyString ->
     (forall numText u, ~ UnitForm (JS.trim s) numText u) ->
     JS.stripCommasAndSpace (JS.trim s) <> EmptyString ->
     parseNumberLoose (Some s)
     = finiteOrNull (Num.Number (JS.stripCommasAndSpace (JS.trim s)))) /\
  parseNumberLoose (Some "10.6k") = Some (Prim2SF 10600) /\
  parseNumberLoose (Some "730m") = Some (Prim2SF 730000000) /\
  parseNumberLoose (Some "1,234.5") = Some (Prim2SF 1234.5) /\
  parseNumberLoose (Some "2G") = Some (Prim2SF 2000000000) /\
  parseNumberLoose (Some "-3b") = Some (Prim2SF (-3000000000)) /\
  parseNumberLoose (Some "abc") = None /\
  parseNumberLoose (Some "N/A") = None /\
  parseNumberLoose (Some "12k3") = None.
Proof.
  split; [reflexivity|]. split; [|split; [|split]].
  - intros s H. unfold parseNumberLoose. rewrite H. reflexivity.
  - apply parseNumberLoose_unit.
  - intros s H1 H2 _. apply parseNumberLoose_plain; assumption.
  - repeat split; vm_compute; reflexivity.
Qed.

Lemma hugeDigits_form :
  UnitForm (JS.trim (hugeDigits ++ "k")) hugeDigits "k".
Proof.
  constructor.
  - vm_compute. reflexivity.
  - exists EmptyString, hugeDigits, EmptyString. repeat split; vm_compute; reflexivity.
  - reflexivity.
Qed.

(** On a one followed by 309 zeros and [k] the result is null and not the
    number times a thousand (which is infinite); and [0x1F], which is no
    plain decimal, gives 31. *)
Lemma parseNumberLoose_counterexample :
  ~ (forall s numText u,
       UnitForm (JS.trim s) numText u ->
       parseNumberLoose (Some s)
       = Some (Num.mul (Num.Number numText) (multiplier u))) /\
  parseNumberLoose (Some (hugeDigits ++ "k")) = None /\
  parseNumberLoose (Some "0x1F") = Some (Prim2SF 31).
Proof.
  split; [|split; vm_compute; reflexivity].
  intros H. specialize (H (hugeDigits ++ "k") hugeDigits "k"%char hugeDigits_form).
  vm_compute in H. discriminate H.
Qed.

Lemma parseNumberLoose_steps_witness :
  parseNumberLoose (Some " 10.6k ") =
  if Num.isFinite (Num.Number "10.6")
  then Some (Num.mul (Num.Number "10.6") (multiplier "k")) else None.
Proof.
  apply (proj1 (proj2 (proj2 parseNumberLoose_steps)) " 10.6k " "10.6" "k"%char).
  constructor.
  - reflexivity.
  - exists EmptyString, "10", ".6". repeat split; reflexivity.
  - reflexivity.
Defined.

(** ** Characters under the [i] flag *)

Ltac by_cases a H :=
  destruct a as [[] [] [] [] [] [] [] []]; vm_compute in H;
  try discriminate H; auto.

Lemma eqc_gt a : eqc true a ">" = true -> a = ">"%char.
Proof. intros H. by_cases a H. Qed.

Lemma eqc_lt a : eqc true a "<" = true -> a = "<"%char.
Proof. intros H. by_cases a H. Qed.

Lemma eqc_i_word a : eqc true a "i" = true -> JS.isWordChar a = true.
Proof. intros H. by_cases a H. Qed.

Lemma quote_cases a :
  inClass true quoteClass a = true -> a = "034"%char \/ a = "'"%char.
Proof. intros H. by_cases a H. Qed.

Lemma eqc_quote a q :
  inClass true quoteClass q = true -> eqc true a q = true ->
  inClass true notGt a = true.
Proof.
  intros Hq H. destruct (quote_cases q Hq) as [-> | ->]; by_cases a H.
Qed.

Lemma eqc_trans a b x :
  eqc true a x = true -> eqc true b x = true -> eqc true a b = true.
Proof.
  unfold eqc. rewrite !Ascii.eqb_eq. congruence.
Qed.

Lemma eqc_refl ic a : eqc ic a a = true.
Proof. unfold eqc. destruct ic; apply Ascii.eqb_refl. Qed.

Lemma optQuote_cases q :
  optQuote q = true ->
  q = EmptyString \/ exists a, q = String a EmptyString /\ inClass true quoteClass a = true.
Proof.
  destruct q as [|a [|b q]]; simpl; intros H; try discriminate; eauto.
Qed.

Lemma optQuote_notGt q : optQuote q = true -> allIn true notGt q = true.
Proof.
  intros H. destruct (optQuote_cases q H) as [->|(a & -> & Ha)]; [reflexivity|].
  simpl. rewrite (eqc_quote a a Ha (eqc_refl true a)). reflexivity.
Qed.

(** ** Where a run of a negated class ends *)

Lemma first_stop cl c x : forall x' y y',
  allIn true cl x = true -> allIn true cl x' = true ->
  inClass true cl c = false ->
  x ++ String c y = x' ++ String c y' -> x = x' /\ y = y'.
Proof.
  induction x as [|a x IH]; intros [|a' x'] y y' Hx Hx' Hc H; simpl in *.
  - injection H as ->. auto.
  - injection H as <- _. apply andb_prop in Hx'. destruct Hx'. congruence.
  - injection H as -> _. apply andb_prop in Hx. destruct Hx. congruence.
  - injection H as <- H. apply andb_prop in Hx, Hx'.
    destruct Hx as [_ Hx], Hx' as [_ Hx'].
    destruct (IH x' y y' Hx Hx' Hc H) as [-> ->]. auto.
Qed.

(** The key read one character later: what follows moves by one character
    that equals the skipped one up to case. *)
Lemma shifted_key key : forall k k' q r r',
  sameText true k key = true -> sameText true k' key = true ->
  k ++ r = String q (k' ++ r') ->
  exists c, r = String c r' /\ eqc true c q = true.
Proof.
  induction key as [|x key IH]; intros [|a k] [|a' k'] q r r' Hk Hk' H;
    simpl in *; try discriminate.
  - exists q. split; [exact H | exact (eqc_refl true q)].
  - injection H as -> H. apply andb_prop in Hk, Hk'.
    destruct Hk as [Ha Hk], Hk' as [Ha' Hk'].
    destruct (IH k k' a' r r' Hk Hk' H) as (c & -> & Hc).
    exists c. split; [reflexivity|].
    apply (eqc_trans c q x); [|exact Ha].
    unfold eqc in *. rewrite Ascii.eqb_eq in *. congruence.
Qed.

(** ** Occurrences and the pattern *)

Lemma idPattern_sound key prev s p' s' caps' :
  Matches true (idPattern key) prev s [] p' s' caps' ->
  exists cap, caps' = [cap] /\ p' = Some "<"%char /\ Occurrence key prev s cap s'.
Proof.
  unfold idPattern. intros H.
  apply inv_Cat in H. destruct H as (p1 & s1 & c1 & Hb & H).
  apply inv_WordB in Hb. destruct Hb as (Hb & -> & -> & ->).
  apply inv_Cat in H. destruct H as (p2 & s2 & c2 & Hh & H).
  apply inv_lits in Hh. destruct Hh as (h & -> & Hh & -> & ->).
  apply inv_Cat in H. destruct H as (p3 & s3 & c3 & Hq1 & H).
  apply inv_Cat in H. destruct H as (p4 & s4 & c4 & Hk & H).
  apply inv_lits in Hk. destruct Hk as (k & -> & Hk & -> & ->).
  apply inv_Cat in H. destruct H as (p5 & s5 & c5 & Hq2 & H).
  apply inv_Cat in H. destruct H as (p6 & s6 & c6 & Hmid & H).
  apply inv_Many in Hmid. destruct Hmid as (mid & -> & Hmid & -> & ->).
  apply inv_Cat in H. destruct H as (p7 & s7 & c7 & Hgt & H).
  apply inv_Chr in Hgt. destruct Hgt as (g & Hs6 & Hg & -> & ->).
  apply eqc_gt in Hg. subst g.
  apply inv_Cat in H. destruct H as (p8 & s8 & c8 & Hcap & Hlt).
  apply inv_Grp in Hcap. destruct Hcap as (c9 & Hcap & ->).
  apply inv_Many in Hcap. destruct Hcap as (cap & -> & Hcap & -> & ->).
  apply inv_Chr in Hlt. destruct Hlt as (l & Hs8 & Hl & -> & ->).
  apply eqc_lt in Hl. subst l. subst s8.
  assert (Hprev : isWordAt prev = false).
  { destruct h as [|i h]; [discriminate|]. simpl in Hh, Hb.
    apply andb_prop in Hh. destruct Hh as [Hi _].
    rewrite (eqc_i_word i Hi) in Hb. destruct (isWordAt prev); [discriminate|reflexivity]. }
  assert (Hq : exists q1 q2, optQuote q1 = true /\ optQuote q2 = true /\
            s2 = q1 ++ k ++ q2 ++ mid ++ s6 /\ c3 = [] /\ c5 = []).
  { apply inv_Opt in Hq1. apply inv_Opt in Hq2.
    destruct Hq1 as [Hq1|(_ & E1 & E1')]; destruct Hq2 as [Hq2|(_ & E2 & E2')].
    - apply inv_One in Hq1, Hq2.
      destruct Hq1 as (a & E1 & Ha & _ & E1'). destruct Hq2 as (b & E2 & Hb' & _ & E2').
      exists (String a EmptyString), (String b EmptyString). subst. simpl. auto.
    - apply inv_One in Hq1. destruct Hq1 as (a & E1 & Ha & _ & E1').
      exists (String a EmptyString), EmptyString. subst. simpl. auto.
    - apply inv_One in Hq2. destruct Hq2 as (b & E2 & Hb' & _ & E2').
      exists EmptyString, (String b EmptyString). subst. simpl. auto.
    - exists EmptyString, EmptyString. subst. simpl. auto. }
  destruct Hq as (q1 & q2 & Hq1' & Hq2' & -> & -> & ->).
  subst s6. exists cap. split; [|split; [reflexivity|]].
  - simpl. change (String "<" s') with ("<" ++ s'). 
    rewrite consumed_app. reflexivity.
  - apply (occurrence key prev _ cap s' h q1 k q2 mid); auto.
Qed.

Lemma idPattern_complete key prev s cap rest :
  Occurrence key prev s cap rest ->
  exists p' c', Matches true (idPattern key) prev s [] p' rest c'.
Proof.
  intros [h q1 k q2 mid -> Hprev Hh Hq1 Hk Hq2 Hmid Hcap].
  assert (Hopt : forall q p s0, optQuote q = true ->
            exists p1, Matches true (Opt (One quoteClass)) p (q ++ s0) [] p1 s0 []).
  { intros q p s0 Hq. destruct (optQuote_cases q Hq) as [->|(a & -> & Ha)].
    - eexists. apply M_Opt_skip.
    - eexists. apply M_Opt_take. simpl. constructor. exact Ha. }
  destruct (Hopt q1 (lastOr prev h) (k ++ q2 ++ mid ++ ">" ++ cap ++ "<" ++ rest) Hq1)
    as (p1 & H1).
  destruct (Hopt q2 (lastOr p1 k) (mid ++ ">" ++ cap ++ "<" ++ rest) Hq2)
    as (p2 & H2).
  eexists. eexists. unfold idPattern.
  eapply M_Cat.
  { constructor. destruct h as [|i h]; [discriminate|]. simpl in Hh |- *.
    apply andb_prop in Hh. destruct Hh as [Hi _].
    rewrite Hprev, (eqc_i_word i Hi). reflexivity. }
  eapply M_Cat; [apply lits_intro; exact Hh|].
  eapply M_Cat; [exact H1|].
  eapply M_Cat; [apply lits_intro; exact Hk|].
  eapply M_Cat; [exact H2|].
  eapply M_Cat; [apply Many_intro; exact Hmid|].
  eapply M_Cat; [simpl; constructor; reflexivity|].
  eapply M_Cat; [apply M_Grp; apply Many_intro; exact Hcap|].
  simpl. constructor. reflexivity.
Qed.

Lemma Occurrence_unique key prev s cap rest cap' rest' :
  Occurrence key prev s cap rest -> Occurrence key prev s cap' rest' ->
  cap = cap' /\ rest = rest'.
Proof.
  intros [h q1 k q2 mid -> _ Hh Hq1 Hk Hq2 Hmid Hcap]
         [h' q1' k' q2' mid' E _ Hh' Hq1' Hk' Hq2' Hmid' Hcap'].
  destruct (sapp_inv_length _ _ _ _ E) as [-> E1].
  { rewrite (sameText_length _ _ _ Hh), (sameText_length _ _ _ Hh'). reflexivity. }
  clear E.
  assert (Hlen : String.length k = String.length k').
  { rewrite (sameText_length _ _ _ Hk), (sameText_length _ _ _ Hk'). reflexivity. }
  pose proof (optQuote_notGt _ Hq2) as Hn2. pose proof (optQuote_notGt _ Hq2') as Hn2'.
  assert (Htail : cap ++ "<" ++ rest = cap' ++ "<" ++ rest').
  { assert (Hfin : forall x x' : string,
        allIn true notGt x = true -> allIn true notGt x' = true ->
        x ++ ">" ++ cap ++ "<" ++ rest = x' ++ ">" ++ cap' ++ "<" ++ rest' ->
        cap ++ "<" ++ rest = cap' ++ "<" ++ rest').
    { intros x x' Hx Hx' Hxx.
      apply (first_stop notGt ">" x x' _ _ Hx Hx' eq_refl Hxx). }
    destruct (optQuote_cases q1 Hq1) as [->|(a & -> & Ha)];
      destruct (optQuote_cases q1' Hq1') as [->|(a' & -> & Ha')]; simpl in E1.
    - destruct (sapp_inv_length _ _ _ _ E1 Hlen) as [_ E2].
      apply (Hfin (q2 ++ mid) (q2' ++ mid')).
      + rewrite allIn_app, Hn2, Hmid. reflexivity.
      + rewrite allIn_app, Hn2', Hmid'. reflexivity.
      + rewrite !sapp_assoc. exact E2.
    - destruct (shifted_key key k k' a' _ _ Hk Hk' E1) as (c & E2 & Hc).
      apply (Hfin (q2 ++ mid) (String c (q2' ++ mid'))).
      + rewrite allIn_app, Hn2, Hmid. reflexivity.
      + simpl. rewrite (eqc_quote c a' Ha' Hc), allIn_app, Hn2', Hmid'. reflexivity.
      + rewrite sapp_assoc. simpl. rewrite sapp_assoc. exact E2.
    - symmetry in E1.
      destruct (shifted_key key k' k a _ _ Hk' Hk E1) as (c & E2 & Hc).
      apply (Hfin (String c (q2 ++ mid)) (q2' ++ mid')).
      + simpl. rewrite (eqc_quote c a Ha Hc), allIn_app, Hn2, Hmid. reflexivity.
      + rewrite allIn_app, Hn2', Hmid'. reflexivity.
      + rewrite sapp_assoc. simpl. rewrite sapp_assoc. symmetry. exact E2.
    - injection E1 as -> E1.
      destruct (sapp_inv_length _ _ _ _ E1 Hlen) as [_ E2].
      apply (Hfin (q2 ++ mid) (q2' ++ mid')).
      + rewrite allIn_app, Hn2, Hmid. reflexivity.
      + rewrite allIn_app, Hn2', Hmid'. reflexivity.
      + rewrite !sapp_assoc. exact E2. }
  apply (first_stop notLt "<" cap cap' rest rest' Hcap Hcap' eq_refl Htail).
Qed.

(** ** One [exec] call *)

Lemma matchHere_occurrence key prev s m :
  matchHere true (idPattern key) prev s = Some m ->
  exists cap, groups m = [cap] /\ before m = Some "<"%char /\
              Occurrence key prev s cap (rest m).
Proof.
  intros H. apply matchHere_sound in H.
  destruct (idPattern_sound _ _ _ _ _ _ H) as (cap & H1 & H2 & H3). eauto.
Qed.

Lemma occurrence_matchHere key prev s cap r :
  Occurrence key prev s cap r ->
  exists m, matchHere true (idPattern key) prev s = Some m /\
            groups m = [cap] /\ before m = Some "<"%char /\ rest m = r.
Proof.
  intros Ho. destruct (idPattern_complete _ _ _ _ _ Ho) as (p' & c' & Hm).
  apply matchHere_complete in Hm.
  destruct (matchHere true (idPattern key) prev s) as [m|] eqn:E; [|contradiction].
  exists m. split; [reflexivity|].
  destruct (matchHere_occurrence _ _ _ _ E) as (cap' & Hg & Hb & Ho').
  destruct (Occurrence_unique _ _ _ _ _ _ _ Ho Ho') as [-> ->]. auto.
Qed.

Lemma occurrence_shorter key prev s cap r :
  Occurrence key prev s cap r -> String.length r < String.length s.
Proof.
  intros [h q1 k q2 mid -> _ Hh _ _ _ _ _].
  apply sameText_length in Hh. rewrite !slength_app. simpl in *. lia.
Qed.

Lemma search_none key s : forall prev,
  search true (idPattern key) prev s = None -> NoOccurrence key prev s.
Proof.
  induction s as [|a s IH]; intros prev H pre cap r (m & E & Ho); simpl in H.
  - destruct pre; [|discriminate]. simpl in E, Ho. subst m.
    destruct (occurrence_matchHere _ _ _ _ _ Ho) as (m & Hm & _).
    rewrite Hm in H. discriminate.
  - destruct (matchHere true (idPattern key) prev (String a s)) eqn:Em; [discriminate|].
    destruct pre as [|b pre]; simpl in E, Ho.
    + subst m. destruct (occurrence_matchHere _ _ _ _ _ Ho) as (m & Hm & _).
      congruence.
    + injection E as <- E. apply (IH (Some a) H pre cap r). exists m. auto.
Qed.

Lemma search_first key s : forall prev m,
  search true (idPattern key) prev s = Some m ->
  exists cap, groups m = [cap] /\ before m = Some "<"%char /\
              FirstOccurrence key prev s cap (rest m).
Proof.
  induction s as [|a s IH]; intros prev m H; simpl in H.
  - destruct (matchHere true (idPattern key) prev EmptyString) as [m'|] eqn:Em;
      [|discriminate].
    injection H as <-.
    destruct (matchHere_occurrence _ _ _ _ Em) as (cap & Hg & Hb & Ho).
    exists cap. split; [exact Hg|]. split; [exact Hb|].
    exists EmptyString. split; [exists EmptyString; auto|].
    intros pre' cap' r' Hlt. simpl in Hlt. lia.
  - destruct (matchHere true (idPattern key) prev (String a s)) as [m'|] eqn:Em.
    + injection H as <-.
      destruct (matchHere_occurrence _ _ _ _ Em) as (cap & Hg & Hb & Ho).
      exists cap. split; [exact Hg|]. split; [exact Hb|].
      exists EmptyString. split; [exists (String a s); auto|].
      intros pre' cap' r' Hlt. simpl in Hlt. lia.
    + destruct (IH (Some a) m H) as (cap & Hg & Hb & pre & (x & E & Ho) & Hmin).
      exists cap. split; [exact Hg|]. split; [exact Hb|].
      exists (String a pre). split.
      * exists x. simpl. rewrite E. auto.
      * intros pre' cap' r' Hlt (x' & E' & Ho').
        destruct pre' as [|b pre']; simpl in E', Ho'.
        -- subst x'. destruct (occurrence_matchHere _ _ _ _ _ Ho') as (m' & Hm' & _).
           congruence.
        -- injection E' as <- E'. apply (Hmin pre' cap' r').
           ++ simpl in Hlt. lia.
           ++ exists x'. auto.
Qed.

(** ** The sequence of occurrences is determined by the markup *)

Lemma prefix_same_length (a a' b b' : string) :
  a ++ b = a' ++ b' -> ~ String.length a < String.length a' ->
  ~ String.length a' < String.length a -> a = a' /\ b = b'.
Proof. intros H H1 H2. apply sapp_inv_length; [exact H | lia]. Qed.

Lemma FirstOccurrence_unique key prev s cap r cap' r' :
  FirstOccurrence key prev s cap r -> FirstOccurrence key prev s cap' r' ->
  cap = cap' /\ r = r'.
Proof.
  intros (pre & (m & E & Ho) & Hmin) (pre' & (m' & E' & Ho') & Hmin').
  assert (Hpre : pre = pre' /\ m = m').
  { apply prefix_same_length.
    - congruence.
    - intros Hlt. apply (Hmin' pre cap r Hlt). exists m. auto.
    - intros Hlt. apply (Hmin pre' cap' r' Hlt). exists m'. auto. }
  destruct Hpre as [<- <-].
  apply (Occurrence_unique _ _ _ _ _ _ _ Ho Ho').
Qed.

Lemma Occurrences_unique key prev s caps :
  Occurrences key prev s caps ->
  forall caps', Occurrences key prev s caps' -> caps' = caps.
Proof.
  induction 1 as [prev s Hno|prev s cap r caps Hf Hrest IH]; intros caps' H'.
  - destruct H' as [|prev s cap' r' caps' (pre & Ho & _) _]; [reflexivity|].
    destruct (Hno pre cap' r' Ho).
  - destruct H' as [prev s Hno|prev s cap' r' caps' Hf' Hrest'].
    + destruct Hf as (pre & Ho & _). destruct (Hno pre cap r Ho).
    + destruct (FirstOccurrence_unique _ _ _ _ _ _ _ Hf Hf') as [-> ->].
      rewrite (IH caps' Hrest'). reflexivity.
Qed.

Lemma FirstOccurrence_shorter key prev s cap r :
  FirstOccurrence key prev s cap r -> String.length r < String.length s.
Proof.
  intros (pre & (m & -> & Ho) & _). apply occurrence_shorter in Ho.
  rewrite slength_app. lia.
Qed.

(** ** The loop *)

Lemma lastOf_cons {A} (l : list A) : forall x, exists y, lastOf (x :: l) = Some y.
Proof.
  induction l as [|a l IH]; intros x; [exists x; reflexivity|].
  destruct (IH a) as [y Hy]. exists y. exact Hy.
Qed.

Lemma execLoop_occurrences key fuel : forall prev s found,
  String.length s < fuel ->
  exists caps,
    Occurrences key prev s caps /\
    execLoop fuel (idPattern key) prev s found
    = match lastOf caps with Some c => Some c | None => found end.
Proof.
  induction fuel as [|fuel IH]; intros prev s found Hlen; [lia|].
  simpl. destruct (search true (idPattern key) prev s) as [m|] eqn:Es.
  - destruct (search_first _ _ _ _ Es) as (cap & Hg & Hb & Hf).
    pose proof (FirstOccurrence_shorter _ _ _ _ _ Hf) as Hsh.
    destruct (IH (before m) (rest m) (Some (group 1 m)) ltac:(lia))
      as (caps & Hocc & Hloop).
    exists (cap :: caps). split.
    + rewrite Hb in Hocc. apply (occurrences_next key prev s cap (rest m) caps Hf Hocc).
    + rewrite Hloop. unfold group. rewrite Hg. cbn [nth Nat.sub].
      destruct caps as [|c caps]; [reflexivity|].
      destruct (lastOf_cons caps c) as [y Hy].
      change (lastOf (cap :: c :: caps)) with (lastOf (c :: caps)).
      rewrite Hy. reflexivity.
  - exists []. split; [|reflexivity].
    apply occurrences_none. apply search_none. exact Es.
Qed.

Lemma literalPattern_escapeRegExp id :
  literalPattern (escapeRegExp id) = Some id.
Proof.
  induction id as [|c id IH]; [reflexivity|].
  simpl escapeRegExp. destruct (isSyntaxChar c) eqn:E.
  - cbn [literalPattern]. rewrite E, IH. reflexivity.
  - cbn [literalPattern]. destruct (Ascii.eqb_spec c "\") as [->|Hne].
    + discriminate E.
    + rewrite E, IH. reflexivity.
Qed.

Lemma extractTextById_loop html id :
  extractTextById html id =
  option_map JS.trim
    (execLoop (S (String.length html)) (idPattern id) None html None).
Proof.
  unfold extractTextById, idRegExp. rewrite literalPattern_escapeRegExp.
  cbn [option_map].
  destruct (execLoop (S (String.length html)) (idPattern id) None html None)
    as [v|]; [|reflexivity].
  cbn [option_map]. destruct (JS.trim v); reflexivity.
Qed.

(** What [extractTextById] computes, on any markup and key: the trimmed
    text of the last of the successive occurrences. *)
Lemma extractTextById_occurrences (html id : string) :
  exists caps,
    Occurrences id None html caps /\
    (forall caps', Occurrences id None html caps' -> caps' = caps) /\
    extractTextById html id = option_map JS.trim (lastOf caps) /\
    (extractTextById html id = None <-> NoOccurrence id None html).
Proof.
  destruct (execLoop_occurrences id (S (String.length html)) None html None
              ltac:(lia)) as (caps & Hocc & Hloop).
  exists caps. split; [exact Hocc|]. split; [apply Occurrences_unique; exact Hocc|].
  assert (Hres : extractTextById html id = option_map JS.trim (lastOf caps)).
  { rewrite extractTextById_loop, Hloop. destruct (lastOf caps); reflexivity. }
  split; [exact Hres|]. rewrite Hres. split.
  - intros Hnone. destruct Hocc as [prev s Hno|prev s cap r caps Hf Hrest]; [exact Hno|].
    destruct (lastOf_cons caps cap) as [y Hy]. rewrite Hy in Hnone. discriminate.
  - intros Hno. destruct Hocc as [|prev s cap r caps (pre & Ho & _) _]; [reflexivity|].
    destruct (Hno pre cap r Ho).
Qed.

(** ** The value read at an occurrence *)











(** ** Markup as tags and text: where the key can occur *)















(** *** The value read at an identifier attribute *)






(** *** Tags in which the key does not occur *)





(** *** The occurrences of the key are the elements with that identifier *)











(** The same identifier twice, bare and in lower case first, then quoted
    and in upper case: the text of the second element. *)
Example extractTextById_second_of_two :
  render twoDates = twoDatesPage /\
  extractTextById twoDatesPage "aq_gc.f_d2" = Some "2026-02-14".
Proof. split; vm_compute; reflexivity. Qed.

Example extractTextById_in_a_table :
  render tablePage
  = "<!DOCTYPE html><table class='t q' uid=7><tr><td nowrap id='aq_gc.f_c2|3' class=n>"
    ++ " 2034.5 </td><td>paid=1</td></tr></table>" /\
  wellFormed tablePage = true /\
  noLongerIdentifier "aq_gc.f_c2|3" (nodes tablePage) = true /\
  textOnly "aq_gc.f_c2|3" (nodes tablePage) = true /\
  extractTextById (render tablePage) "aq_gc.f_c2|3" = Some "2034.5".
Proof. vm_compute. repeat split. Qed.

Example extractTextById_absent :
  extractTextById twoDatesPage "aq_gc.f_t1" = None.
Proof. vm_compute. reflexivity. Qed.

(** What the amended claim leaves out: an identifier that is longer than
    the key and starts with it is taken for the key; so is an attribute whose
    name ends with [-id]; and of an element with a child element, only the
    text before the child is read. *)
Example extractTextById_longer_identifier :
  extractTextById "<b id=ab>x</b>" "a" = Some "x".
Proof. vm_compute. reflexivity. Qed.

Example extractTextById_other_attribute :
  extractTextById "<b data-id=ab>x</b>" "ab" = Some "x".
Proof. vm_compute. reflexivity. Qed.

Example extractTextById_child_element :
  extractTextById "<td id=ab>1 <b>2</b></td>" "ab" = Some "1".
Proof. vm_compute. reflexivity. Qed.


(** ** More facts on strings *)

Lemma lowerChar_idem c : JS.lowerChar (JS.lowerChar c) = JS.lowerChar c.
Proof. destruct c as [[] [] [] [] [] [] [] []]; vm_compute; reflexivity. Qed.

Lemma toLowerCase_idem s : JS.toLowerCase (JS.toLowerCase s) = JS.toLowerCase s.
Proof.
  induction s as [|c s IH]; simpl; [reflexivity|].
  rewrite lowerChar_idem, IH. reflexivity.
Qed.

Lemma trimStart_idem s : JS.trimStart (JS.trimStart s) = JS.trimStart s.
Proof.
  induction s as [|c s IH]; simpl; [reflexivity|].
  destruct (JS.isWhite c) eqn:E; [exact IH|]. simpl. rewrite E. reflexivity.
Qed.

Lemma trimStart_length s : String.length (JS.trimStart s) <= String.length s.
Proof.
  induction s as [|c s IH]; simpl; [lia|].
  destruct (JS.isWhite c); simpl; lia.
Qed.

Lemma trimStart_fixed c s :
  JS.trimStart (String c s) = String c s -> JS.isWhite c = false.
Proof.
  simpl. destruct (JS.isWhite c); [|reflexivity].
  intros H. pose proof (trimStart_length s) as Hl. rewrite H in Hl.
  simpl in Hl. lia.
Qed.

(** What [trimStart] removes is a prefix. *)
Lemma trimStart_suffix s : exists w, s = w ++ JS.trimStart s.
Proof.
  induction s as [|c s [w IH]]; [exists EmptyString; reflexivity|].
  simpl. destruct (JS.isWhite c).
  - exists (String c w). simpl. rewrite <- IH. reflexivity.
  - exists EmptyString. reflexivity.
Qed.

(** What [trimEnd] removes is a suffix. *)
Lemma trimEnd_prefix s : exists w, s = JS.trimEnd s ++ w.
Proof.
  unfold JS.trimEnd. destruct (trimStart_suffix (JS.rev s)) as [w Hw].
  exists (JS.rev w). rewrite <- rev_app, <- Hw, rev_rev. reflexivity.
Qed.

Lemma trimEnd_idem s : JS.trimEnd (JS.trimEnd s) = JS.trimEnd s.
Proof. unfold JS.trimEnd. rewrite rev_rev, trimStart_idem. reflexivity. Qed.

Lemma trimStart_trimEnd t :
  JS.trimStart t = t -> JS.trimStart (JS.trimEnd t) = JS.trimEnd t.
Proof.
  intros Ht. destruct (trimEnd_prefix t) as [w Hw].
  destruct (JS.trimEnd t) as [|c u]; [reflexivity|].
  rewrite Hw in Ht. simpl in Ht. apply trimStart_fixed in Ht.
  simpl. rewrite Ht. reflexivity.
Qed.

Lemma trim_idem s : JS.trim (JS.trim s) = JS.trim s.
Proof.
  unfold JS.trim.
  rewrite (trimStart_trimEnd (JS.trimStart s) (trimStart_idem s)).
  apply trimEnd_idem.
Qed.

Lemma allIn_rev ic cl s : allIn ic cl (JS.rev s) = allIn ic cl s.
Proof.
  induction s as [|c s IH]; simpl; [reflexivity|].
  rewrite allIn_app, IH. simpl. rewrite andb_true_r. apply andb_comm.
Qed.

Lemma allIn_trimStart ic cl s :
  allIn ic cl s = true -> allIn ic cl (JS.trimStart s) = true.
Proof.
  induction s as [|c s IH]; simpl; [reflexivity|].
  intros H. apply andb_prop in H. destruct H as [Hc Hs].
  destruct (JS.isWhite c); [apply IH; exact Hs|].
  simpl. rewrite Hc, Hs. reflexivity.
Qed.

Lemma allIn_trim ic cl s : allIn ic cl s = true -> allIn ic cl (JS.trim s) = true.
Proof.
  intros H. unfold JS.trim, JS.trimEnd.
  rewrite allIn_rev. apply allIn_trimStart. rewrite allIn_rev.
  apply allIn_trimStart. exact H.
Qed.

(** ** What the extractor returns *)

Lemma lastOf_In {A} (l : list A) x : lastOf l = Some x -> In x l.
Proof.
  induction l as [|y l IH]; [discriminate|].
  simpl. destruct l as [|z l]; [intros [= ->]; left; reflexivity|].
  intros H. right. apply IH. exact H.
Qed.

Lemma lastOr_snoc p (a : string) c : lastOr p (a ++ String c EmptyString) = Some c.
Proof. rewrite lastOr_app. reflexivity. Qed.

(** Each capture of the successive occurrences is the capture of an
    occurrence in the whole text. *)
Lemma Occurrences_In key prev s caps :
  Occurrences key prev s caps ->
  forall cap, In cap caps ->
    exists pre rest,
      OccursAfter key prev s pre cap rest /\ allIn true notLt cap = true.
Proof.
  induction 1 as [prev s Hno|prev s cap0 r caps (pre0 & Ho & _) Hrest IH];
    intros cap Hin; [destruct Hin|].
  destruct Ho as (m & Hs & Hocc).
  destruct Hin as [<-|Hin].
  - exists pre0, r. split; [exists m; auto|].
    destruct Hocc; assumption.
  - destruct (IH cap Hin) as (pre & rest & (m' & Hr & Hocc') & Hcap).
    destruct Hocc as [h q1 k q2 mid Hm _ _ _ _ _ _ _].
    exists (pre0 ++ (h ++ q1 ++ k ++ q2 ++ mid ++ ">" ++ cap0 ++ "<") ++ pre), rest.
    split; [|exact Hcap].
    exists m'. split.
    + rewrite Hs, Hm, Hr. repeat rewrite sapp_assoc. reflexivity.
    + rewrite lastOr_app, lastOr_app.
      replace (h ++ q1 ++ k ++ q2 ++ mid ++ ">" ++ cap0 ++ "<")
        with ((h ++ q1 ++ k ++ q2 ++ mid ++ ">" ++ cap0) ++ "<")
        by (repeat rewrite sapp_assoc; reflexivity).
      rewrite lastOr_snoc. exact Hocc'.
Qed.

(** X1.  Whatever the markup and the key, a text that [extractTextById]
    returns is the trimmed text after the [>] of an occurrence of the key in
    the markup; it has no white space at either end (trimming it again
    changes nothing) and holds no [<]. *)
Theorem extractTextById_value :
  forall html id v : string,
    extractTextById html id = Some v ->
    (exists pre cap rest,
       OccursAfter id None html pre cap rest /\ v = JS.trim cap) /\
    JS.trim v = v /\
    allIn true notLt v = true.
Proof.
  intros html id v Hv.
  destruct (extractTextById_occurrences html id) as (caps & Hocc & _ & Hres & _).
  rewrite Hv in Hres. destruct (lastOf caps) as [cap|] eqn:Hl; [|discriminate].
  injection Hres as ->.
  destruct (Occurrences_In id None html caps Hocc cap (lastOf_In caps cap Hl))
    as (pre & rest & Ho & Hcap).
  split; [exists pre, cap, rest; auto|]. split.
  - apply trim_idem.
  - apply allIn_trim. exact Hcap.
Qed.

Lemma extractTextById_value_witness :
  (exists pre cap rest,
     OccursAfter "aq_gc.f_d2" None twoDatesPage pre cap rest /\
     "2026-02-14" = JS.trim cap) /\
  JS.trim "2026-02-14" = "2026-02-14" /\
  allIn true notLt "2026-02-14" = true.
Proof.
  apply (extractTextById_value twoDatesPage "aq_gc.f_d2" "2026-02-14").
  vm_compute. reflexivity.
Defined.

(** ** Pages that do not carry the symbol *)






(** The markup of the blocked page is that page. *)
Example blockedMarkup_render : render blockedMarkup = blockedPage.
Proof. reflexivity. Qed.

(** X3.  The pattern that [extractTextById] builds from a key always
    compiles, and it stands for the characters of the key themselves:
    escaping and reading the pattern back gives the key, whatever syntax
    characters it holds. *)
Theorem escapeRegExp_literal :
  forall id : string,
    literalPattern (escapeRegExp id) = Some id /\
    idRegExp id = Some (idPattern id).
Proof.
  intros id. pose proof (literalPattern_escapeRegExp id) as H.
  split; [exact H|]. unfold idRegExp. rewrite H. reflexivity.
Qed.

(** X4.  White space around the text never changes what [parseNumberLoose]
    and [parsePctLoose] give. *)
Theorem parse_ignores_outer_space :
  forall s : string,
    parseNumberLoose (Some (JS.trim s)) = parseNumberLoose (Some s) /\
    parsePctLoose (Some (JS.trim s)) = parsePctLoose (Some s).
Proof.
  intros s. unfold parsePctLoose, parseNumberLoose.
  rewrite trim_idem. split; reflexivity.
Qed.

(** ** The two ways to a record *)

Lemma firstElement_firstCandidate d html ids :
  Forall (fun id => option_map JS.trim (d id) = extractTextById html id) ids ->
  firstElement d ids = firstCandidate html ids.
Proof.
  induction 1 as [|id ids Hid _ IH]; simpl; [reflexivity|].
  rewrite <- Hid. destruct (d id); simpl; [reflexivity | exact IH].
Qed.

Lemma pageScript_raw d html symbol :
  sameContent d html (JS.toLowerCase symbol) ->
  pageScript d (JS.toLowerCase symbol) = raw (parseQuoteHtml html symbol).
Proof.
  unfold sameContent, quoteIds. intros H.
  apply Forall_app in H. destruct H as [Hc Hf].
  unfold pageScript, parseQuoteHtml. rewrite toLowerCase_idem.
  rewrite (firstElement_firstCandidate d html _ Hc).
  destruct (firstCandidate html (lastIdCandidates (JS.toLowerCase symbol)))
    as [lastId lastRaw].
  cbn [raw].
  cbn [map] in Hf.
  repeat match type of Hf with
         | Forall _ (_ :: _) =>
             apply Forall_cons in Hf;
             let E := fresh "E" in destruct Hf as [E Hf]; rewrite E; clear E
         end.
  reflexivity.
Qed.

(** X5.  When the page in the browser shows, under each identifier a quote
    is read from, the text that the extractor finds for it in the markup,
    the rendered path builds the record that [parseQuoteHtml] builds from the
    markup, but for the identifier of the last price, which it does not
    report; the two records validate alike. *)
Theorem rendered_record_agrees :
  forall (d : dom) (html symbol : string),
    sameContent d html (JS.toLowerCase symbol) ->
    buildQuoteFromPlaywrightRaw symbol (Some (pageScript d (JS.toLowerCase symbol)))
    = withoutLastId (parseQuoteHtml html symbol) /\
    validateParsedQuote
      (buildQuoteFromPlaywrightRaw symbol (Some (pageScript d (JS.toLowerCase symbol))))
    = validateParsedQuote (parseQuoteHtml html symbol).
Proof.
  intros d html symbol H.
  assert (E : buildQuoteFromPlaywrightRaw symbol
                (Some (pageScript d (JS.toLowerCase symbol)))
              = withoutLastId (parseQuoteHtml html symbol)).
  { rewrite (pageScript_raw d html symbol H).
    unfold buildQuoteFromPlaywrightRaw, withoutLastId, parseQuoteHtml.
    destruct (firstCandidate html (lastIdCandidates (JS.toLowerCase symbol))).
    reflexivity. }
  split; [exact E|]. rewrite E. reflexivity.
Qed.

Lemma rendered_record_agrees_witness :
  buildQuoteFromPlaywrightRaw "GC.F" (Some (pageScript sampleDom (JS.toLowerCase "GC.F")))
  = withoutLastId (parseQuoteHtml fullPage "GC.F") /\
  validateParsedQuote
    (buildQuoteFromPlaywrightRaw "GC.F" (Some (pageScript sampleDom (JS.toLowerCase "GC.F"))))
  = validateParsedQuote (parseQuoteHtml fullPage "GC.F").
Proof.
  apply (rendered_record_agrees sampleDom fullPage "GC.F").
  unfold sameContent.
  let l := eval vm_compute in (quoteIds (JS.toLowerCase "GC.F")) in
  change (quoteIds (JS.toLowerCase "GC.F")) with l.
  repeat (constructor; [vm_compute; reflexivity|]). constructor.
Defined.

(** ** The case of the symbol *)

Section SymbolCase.

Variable enc : string -> string.
Variable env : Env.

Lemma quoteUrl_lower symbol : quoteUrl enc (JS.toLowerCase symbol) = quoteUrl enc symbol.
Proof. unfold quoteUrl. rewrite toLowerCase_idem. reflexivity. Qed.

Lemma parseQuoteHtml_lower html symbol :
  parseQuoteHtml html (JS.toLowerCase symbol) = parseQuoteHtml html symbol.
Proof. unfold parseQuoteHtml. rewrite toLowerCase_idem. reflexivity. Qed.

Lemma buildQuoteFromPlaywrightRaw_lower symbol raw :
  buildQuoteFromPlaywrightRaw (JS.toLowerCase symbol) raw
  = buildQuoteFromPlaywrightRaw symbol raw.
Proof. unfold buildQuoteFromPlaywrightRaw. rewrite toLowerCase_idem. reflexivity. Qed.

Lemma fetchQuoteHtml_lower symbol t :
  fetchQuoteHtml enc env (JS.toLowerCase symbol) t = fetchQuoteHtml enc env symbol t.
Proof. unfold fetchQuoteHtml. rewrite quoteUrl_lower. reflexivity. Qed.

Lemma fetchQuoteViaPlaywright_lower symbol t :
  fetchQuoteViaPlaywright enc env (JS.toLowerCase symbol) t
  = fetchQuoteViaPlaywright enc env symbol t.
Proof.
  unfold fetchQuoteViaPlaywright. rewrite quoteUrl_lower, toLowerCase_idem.
  reflexivity.
Qed.

(** X6.  The letter case of the symbol matters nowhere: the request, the
    identifiers looked up and the whole of [fetchOne] are the same for a
    symbol and for its lower-case form, and the record carries the
    lower-case form. *)
Theorem symbol_case_ignored :
  forall (s mode : string) (timeoutMs : N),
    quoteUrl enc (JS.toLowerCase s) = quoteUrl enc s /\
    (forall html,
       parseQuoteHtml html (JS.toLowerCase s) = parseQuoteHtml html s /\
       symbol (parseQuoteHtml html s) = JS.toLowerCase s) /\
    (forall raw,
       buildQuoteFromPlaywrightRaw (JS.toLowerCase s) raw
       = buildQuoteFromPlaywrightRaw s raw /\
       symbol (buildQuoteFromPlaywrightRaw s raw) = JS.toLowerCase s) /\
    (forall log,
       fetchOne enc env (JS.toLowerCase s) mode timeoutMs log
       = fetchOne enc env s mode timeoutMs log).
Proof.
  intros s mode t. split; [apply quoteUrl_lower|]. split; [|split].
  - intros html. split; [apply parseQuoteHtml_lower|].
    unfold parseQuoteHtml.
    destruct (firstCandidate html (lastIdCandidates (JS.toLowerCase s))).
    reflexivity.
  - intros raw. split; [apply buildQuoteFromPlaywrightRaw_lower | reflexivity].
  - intros log. unfold fetchOne.
    rewrite fetchQuoteHtml_lower, fetchQuoteViaPlaywright_lower.
    destruct (String.eqb mode "http"); [|destruct (String.eqb mode "playwright")].
    + unfold bind.
      destruct (fetchQuoteHtml enc env s t log) as [[html|e] l]; [|reflexivity].
      rewrite parseQuoteHtml_lower. reflexivity.
    + unfold bind.
      destruct (fetchQuoteViaPlaywright enc env s t log) as [[r|e] l]; [|reflexivity].
      rewrite buildQuoteFromPlaywrightRaw_lower. reflexivity.
    + unfold bind, tryCatch.
      destruct (fetchQuoteHtml enc env s t log) as [[html|e] l].
      * rewrite parseQuoteHtml_lower.
        destruct (validateParsedQuote (parseQuoteHtml html s)); [reflexivity|].
        unfold ret.
        destruct (fetchQuoteViaPlaywright enc env s t l) as [[r|e] l']; [|reflexivity].
        rewrite buildQuoteFromPlaywrightRaw_lower. reflexivity.
      * unfold ret.
        destruct (fetchQuoteViaPlaywright enc env s t l) as [[r|e'] l']; [|reflexivity].
        rewrite buildQuoteFromPlaywrightRaw_lower. reflexivity.
Qed.

End SymbolCase.

(** ** What [fetchOne] hands back *)

Section FetchOneProperties.

Variable enc : string -> string.
Variable env : Env.
Variable timeoutMs : N.

Lemma requiredPresent_updated_at q d t :
  date q = orNull d -> time q = orNull t -> updated_at q = joinDateTime d t ->
  requiredPresent q -> updated_at q <> None.
Proof.
  intros Hd Ht Hu (_ & Hpd & Hpt & _). rewrite Hu, joinDateTime_orNull.
  unfold present in *. rewrite Hd in Hpd. rewrite Ht in Hpt.
  destruct (orNull d); [|congruence]. destruct (orNull t); congruence.
Qed.

Lemma parseQuoteHtml_stamp html s :
  validateParsedQuote (parseQuoteHtml html s) = true ->
  updated_at (parseQuoteHtml html s) <> None.
Proof.
  intros H. apply validateParsedQuote_true in H.
  apply (requiredPresent_updated_at _ _ _ (parseQuoteHtml_date html s)
           (parseQuoteHtml_time html s) (parseQuoteHtml_updated_at html s) H).
Qed.

Lemma buildQuoteFromPlaywrightRaw_stamp s raw :
  validateParsedQuote (buildQuoteFromPlaywrightRaw s raw) = true ->
  updated_at (buildQuoteFromPlaywrightRaw s raw) <> None.
Proof.
  intros H. apply validateParsedQuote_true in H.
  eapply requiredPresent_updated_at; [| | |exact H]; reflexivity.
Qed.

(** The record of a successful [fetchOne] was built by one of the two
    builders and has passed the validator. *)
Lemma fetchOne_ok s mode log q log' :
  fetchOne enc env s mode timeoutMs log = (Ok q, log') ->
  validateParsedQuote q = true /\
  ((exists html, q = parseQuoteHtml html s) \/
   (exists raw, q = buildQuoteFromPlaywrightRaw s (Some raw))).
Proof.
  unfold fetchOne.
  assert (Hr : forall mname l0,
    (let* raw := fetchQuoteViaPlaywright enc env s timeoutMs in
     let q := buildQuoteFromPlaywrightRaw s (Some raw) in
     if validateParsedQuote q then ret q else throw (MissingFields mname)) l0
    = (Ok q, log') ->
    validateParsedQuote q = true /\
    ((exists html, q = parseQuoteHtml html s) \/
     (exists raw, q = buildQuoteFromPlaywrightRaw s (Some raw)))).
  { intros mname l0. unfold bind.
    destruct (fetchQuoteViaPlaywright enc env s timeoutMs l0) as [[r|e] l1];
      [|discriminate].
    cbv zeta.
    destruct (validateParsedQuote (buildQuoteFromPlaywrightRaw s (Some r))) eqn:E;
      [|discriminate].
    unfold ret. intros [= <- _]. split; [exact E|]. right. exists r. reflexivity. }
  destruct (String.eqb mode "http"); [|destruct (String.eqb mode "playwright")].
  - unfold bind.
    destruct (fetchQuoteHtml enc env s timeoutMs log) as [[html|e] l1];
      [|discriminate].
    cbv zeta.
    destruct (validateParsedQuote (parseQuoteHtml html s)) eqn:E; [|discriminate].
    unfold ret. intros [= <- _]. split; [exact E|]. left. exists html. reflexivity.
  - apply Hr.
  - unfold bind at 1. unfold tryCatch. unfold bind at 1.
    destruct (fetchQuoteHtml enc env s timeoutMs log) as [[html|e] l1].
    + cbv zeta. unfold ret at 1.
      destruct (validateParsedQuote (parseQuoteHtml html s)) eqn:E.
      * unfold ret. intros [= <- _]. split; [exact E|]. left. exists html.
        reflexivity.
      * apply Hr.
    + unfold ret at 1. apply Hr.
Qed.

(** X7.  In every mode, a record that [fetchOne] returns has passed the
    validator: its nine required fields are non-null; it also carries the
    symbol in lower case and a non-null [updated_at]. *)
Theorem fetchOne_returns_valid :
  forall (s mode : string) (log : list event) (q : Quote) (log' : list event),
    fetchOne enc env s mode timeoutMs log = (Ok q, log') ->
    validateParsedQuote q = true /\
    requiredPresent q /\
    symbol q = JS.toLowerCase s /\
    updated_at q <> None.
Proof.
  intros s mode log q log' H.
  destruct (fetchOne_ok s mode log q log' H) as [Hv Hq].
  split; [exact Hv|]. split; [apply validateParsedQuote_true; exact Hv|].
  destruct Hq as [[html ->]|[raw ->]].
  - split; [|apply parseQuoteHtml_stamp; exact Hv].
    unfold parseQuoteHtml.
    destruct (firstCandidate html (lastIdCandidates (JS.toLowerCase s))).
    reflexivity.
  - split; [reflexivity | apply buildQuoteFromPlaywrightRaw_stamp; exact Hv].
Qed.

(** The rendered path makes browser calls only. *)
Lemma fetchQuoteViaPlaywright_log s log :
  exists l, snd (fetchQuoteViaPlaywright enc env s timeoutMs log) = (log ++ l)%list /\
            Forall (fun e => isBrowserEvent e = true) l.
Proof.
  unfold fetchQuoteViaPlaywright, tryFinally, swallow, tryCatch, bind, call, ret.
  destruct (env_launch env) as [[]|e1]; simpl;
    [|exists [EvLaunch]; split; [reflexivity | repeat constructor]].
  destruct (env_newPage env) as [[]|e2]; simpl;
    [|exists [EvLaunch; EvNewPage]; split;
      [rewrite <- app_assoc; reflexivity | repeat constructor]].
  destruct (env_goto env (quoteUrl enc s) timeoutMs) as [[]|e3];
    [destruct (env_page env) as [d|e4]|];
    destruct (env_pageClose env) as [[]|e5];
    destruct (env_browserClose env) as [[]|e6]; simpl;
    first [ exists [EvLaunch; EvNewPage; EvGoto (quoteUrl enc s); EvEvaluate;
                    EvPageClose; EvBrowserClose]; split;
            [repeat rewrite <- app_assoc; reflexivity | repeat constructor]
          | exists [EvLaunch; EvNewPage; EvGoto (quoteUrl enc s);
                    EvPageClose; EvBrowserClose]; split;
            [repeat rewrite <- app_assoc; reflexivity | repeat constructor] ].
Qed.

(** X8.  In [http] mode [fetchOne] makes no browser call, whatever the
    request answers: there is no fallback.  In [playwright] mode it makes no
    HTTP request. *)
Theorem fetchOne_fixed_modes :
  forall (s : string) (log : list event),
    (exists l, snd (fetchOne enc env s "http" timeoutMs log) = (log ++ l)%list /\
               Forall (fun e => isBrowserEvent e = false) l) /\
    (exists l, snd (fetchOne enc env s "playwright" timeoutMs log) = (log ++ l)%list /\
               Forall (fun e => isBrowserEvent e = true) l).
Proof.
  intros s log. split.
  - destruct (fetchQuoteHtml_log enc env timeoutMs s log) as (l & Hl & Hall).
    exists l. split; [|exact Hall]. rewrite <- Hl.
    unfold fetchOne. change (String.eqb "http" "http") with true. cbv iota.
    unfold bind.
    destruct (fetchQuoteHtml enc env s timeoutMs log) as [[html|e] l1];
      [|reflexivity].
    cbv zeta. destruct (validateParsedQuote (parseQuoteHtml html s)); reflexivity.
  - destruct (fetchQuoteViaPlaywright_log s log) as (l & Hl & Hall).
    exists l. split; [|exact Hall]. rewrite <- Hl.
    unfold fetchOne. change (String.eqb "playwright" "http") with false.
    change (String.eqb "playwright" "playwright") with true. cbv iota.
    unfold bind.
    destruct (fetchQuoteViaPlaywright enc env s timeoutMs log) as [[r|e] l1];
      [|reflexivity].
    cbv zeta.
    destruct (validateParsedQuote (buildQuoteFromPlaywrightRaw s (Some r)));
      reflexivity.
Qed.

Variable errorToString : error -> string.

(** X9.  The function that [main] runs for each symbol never throws: it
    gives either a record that has passed the validator, or a failure record
    that carries the symbol as given, the mode, and the message of the error
    that [fetchOne] threw. *)
Theorem perSymbol_never_throws :
  forall (mode s : string) (log : list event),
    exists r log',
      perSymbol enc env errorToString mode timeoutMs s log = (Ok r, log') /\
      match r with
      | Success q =>
          fetchOne enc env s mode timeoutMs log = (Ok q, log') /\
          validateParsedQuote q = true
      | Failed f =>
          failed_symbol f = s /\ failed_mode f = mode /\
          exists e, fetchOne enc env s mode timeoutMs log = (Throw e, log') /\
                    failed_message f = messageOf errorToString e
      end.
Proof.
  intros mode s log. unfold perSymbol, tryCatch, bind.
  destruct (fetchOne enc env s mode timeoutMs log) as [[q|e] l1] eqn:E.
  - exists (Success q), l1. split; [reflexivity|]. split; [reflexivity|].
    apply (fetchOne_ok s mode log q l1 E).
  - eexists _, l1. split; [reflexivity|]. simpl.
    split; [reflexivity|]. split; [reflexivity|]. exists e. auto.
Qed.

(** X10.  In [http] mode, an answer whose status is not in 200..299 makes the
    symbol a failure whose message is [http] and the status; the body is not
    read and nothing else is tried. *)
Theorem perSymbol_http_status :
  forall (s : string) (log : list event) (res : response),
    env_fetch env (quoteUrl enc s) timeoutMs = Ok res ->
    (status res < 200 \/ 299 < status res) ->
    perSymbol enc env errorToString "http" timeoutMs s log
    = (Ok (Failed {| failed_symbol := s;
                     failed_message :=
                       "http " ++ NilZero.string_of_uint (Nat.to_uint (status res));
                     failed_mode := "http" |}),
       (log ++ [EvFetch (quoteUrl enc s)])%list).
Proof.
  intros s log res Hres Hst.
  assert (Hok : ok res = false).
  { unfold ok. destruct Hst as [H|H].
    - apply andb_false_intro1. apply Nat.leb_gt. exact H.
    - apply andb_false_intro2. apply Nat.leb_gt. exact H. }
  unfold perSymbol, tryCatch, bind, fetchOne.
  change (String.eqb "http" "http") with true. cbv iota.
  unfold bind, fetchQuoteHtml, tryFinally, bind, call, throw, ret.
  rewrite Hres, Hok. reflexivity.
Qed.

End FetchOneProperties.

Lemma fetchOne_returns_valid_witness :
  validateParsedQuote (parseQuoteHtml fullPage "gc.f") = true /\
  requiredPresent (parseQuoteHtml fullPage "gc.f") /\
  symbol (parseQuoteHtml fullPage "gc.f") = JS.toLowerCase "gc.f" /\
  updated_at (parseQuoteHtml fullPage "gc.f") <> None.
Proof.
  apply (fetchOne_returns_valid (fun s => s) siteUp 15000%N "gc.f" "auto" []
           (parseQuoteHtml fullPage "gc.f")
           [EvFetch "https://stooq.com/q/?s=gc.f"; EvReadBody]).
  vm_compute. reflexivity.
Defined.

Lemma perSymbol_http_status_witness :
  perSymbol (fun s => s) siteBlocked (fun _ => "Error") "http" 15000%N "gc.f" []
  = (Ok (Failed {| failed_symbol := "gc.f";
                   failed_message :=
                     "http " ++ NilZero.string_of_uint
                                  (Nat.to_uint (status {| status := 403; body := Ok EmptyString |}));
                   failed_mode := "http" |}),
     ([] ++ [EvFetch (quoteUrl (fun s => s) "gc.f")])%list).
Proof.
  apply (perSymbol_http_status (fun s => s) siteBlocked 15000%N (fun _ => "Error")
           "gc.f" [] {| status := 403; body := Ok EmptyString |}).
  - reflexivity.
  - right. simpl. lia.
Defined.

(** ** The worker pool: how many calls, and how often *)

Section MapLimitCalls.

Context {A R : Type}.
Variable items : list A.
Variable limit : nat.
Variable fn : A -> nat -> R.

Import Pool.

Local Abbreviation init := (@Pool.init A R items limit).
Local Abbreviation step := (Pool.step items fn).
Local Abbreviation steps := (Pool.steps items fn).

(** X11.  In every state the pool reaches, the number of calls of [fn] that
    are still awaited is at most the limit and at most the number of items;
    so is the number of workers. *)
Theorem mapLimit_bounded :
  forall m p,
    steps m init p ->
    awaiting (workers p) <= limit /\
    awaiting (workers p) <= length items /\
    length (workers p) <= limit /\
    length (workers p) <= length items.
Proof.
  intros m p Hs. destruct (invariant_steps items limit fn m p Hs) as [Hinv _].
  pose proof (inv_count _ _ _ _ Hinv) as Hc.
  pose proof (inv_workers _ _ _ _ Hinv) as Hw.
  lia.
Qed.

(** What the pool keeps besides: no index is awaited by two workers, the
    slot of an awaited index and the slots from the counter on are still
    holes, and a slot that is filled holds the value of its own item. *)
Lemma once_init :
  (forall k k' idx, workers init !! k = Some (Awaiting idx) ->
     workers init !! k' = Some (Awaiting idx) -> k = k') /\
  (forall j, out init !! j = Some None \/ out init !! j = None).
Proof.
  rewrite init_eq. simpl. split.
  - intros k k' idx H H'. apply lookup_started in H. apply lookup_started in H'.
    destruct H as [[= ->] _], H' as [[= ->] _]. reflexivity.
  - intros j. destruct (decide (j < length items)) as [Hj|Hj].
    + left. apply lookup_replicate_2. exact Hj.
    + right. apply lookup_ge_None. rewrite length_replicate. lia.
Qed.

Lemma once_steps m p :
  steps m init p ->
  (forall k k' idx, workers p !! k = Some (Awaiting idx) ->
     workers p !! k' = Some (Awaiting idx) -> k = k') /\
  (forall k idx, workers p !! k = Some (Awaiting idx) -> out p !! idx = Some None) /\
  (forall j, next p <= j -> j < length items -> out p !! j = Some None) /\
  (forall j v, out p !! j = Some (Some v) ->
     exists x, items !! j = Some x /\ v = fn x j).
Proof.
  intros Hsteps. remember init as p0 eqn:Hp0.
  induction Hsteps as [p0|m p0 q r Hs IH Hst]; subst p0.
  - destruct once_init as [H1 H2].
    assert (Hnone : forall j, j < length items -> out init !! j = Some None).
    { intros j Hj. rewrite init_eq. simpl. apply lookup_replicate_2. exact Hj. }
    split; [exact H1|]. split; [|split].
    + intros k idx Hk. apply Hnone.
      destruct (invariant_init items limit fn) as [_ _ Hwait _ _ _].
      apply (Hwait k idx Hk).
    + intros j _ Hj. apply Hnone. exact Hj.
    + intros j v Hj. destruct (H2 j) as [E|E]; rewrite E in Hj; discriminate.
  - destruct (IH eq_refl) as (Hone & Hempty & Hahead & Hval).
    destruct (invariant_steps items limit fn m q Hs) as [Hinv _].
    destruct Hinv as [Hout Hws Hwait Hslot Hfin Hcount].
    destruct Hst as [q k idx x Hk Hx].
    pose proof (lookup_lt_Some _ _ _ Hk) as Hklen.
    destruct (Hwait k idx Hk) as [Hidx1 Hidx2].
    unfold enter. simpl. split; [|split; [|split]].
    + intros k1 k2 i H1 H2.
      destruct (decide (k = k1)) as [<-|Hn1], (decide (k = k2)) as [<-|Hn2].
      * reflexivity.
      * rewrite list_lookup_insert_eq in H1 by exact Hklen.
        rewrite list_lookup_insert_ne in H2 by exact Hn2.
        destruct (Nat.leb_spec (length items) (next q)); [discriminate|].
        injection H1 as <-. destruct (Hwait k2 _ H2). lia.
      * rewrite list_lookup_insert_ne in H1 by exact Hn1.
        rewrite list_lookup_insert_eq in H2 by exact Hklen.
        destruct (Nat.leb_spec (length items) (next q)); [discriminate|].
        injection H2 as <-. destruct (Hwait k1 _ H1). lia.
      * rewrite list_lookup_insert_ne in H1 by exact Hn1.
        rewrite list_lookup_insert_ne in H2 by exact Hn2.
        apply (Hone k1 k2 i H1 H2).
    + intros k1 i H1. destruct (decide (k = k1)) as [<-|Hn1].
      * rewrite list_lookup_insert_eq in H1 by exact Hklen.
        destruct (Nat.leb_spec (length items) (next q)); [discriminate|].
        injection H1 as <-.
        rewrite list_lookup_insert_ne by lia. apply Hahead; lia.
      * rewrite list_lookup_insert_ne in H1 by exact Hn1.
        rewrite list_lookup_insert_ne; [apply (Hempty k1 i H1)|].
        intros <-. apply Hn1. apply (Hone k k1 idx Hk H1).
    + intros j Hj Hlen. rewrite list_lookup_insert_ne by lia.
      apply Hahead; lia.
    + intros j v Hj. destruct (decide (idx = j)) as [<-|Hne].
      * rewrite list_lookup_insert_eq in Hj by lia.
        injection Hj as <-. exists x. auto.
      * rewrite list_lookup_insert_ne in Hj by exact Hne.
        apply (Hval j v Hj).
Qed.

(** X12.  In every state the pool reaches, no index is awaited by two
    workers, the slot of an awaited index is still a hole, and any slot that
    is filled holds the value of [fn] for the item at that index: each item
    is handed to [fn] by one worker, and no result is stored over
    another. *)
Theorem mapLimit_each_item_once :
  forall m p,
    steps m init p ->
    (forall k k' idx,
       workers p !! k = Some (Awaiting idx) ->
       workers p !! k' = Some (Awaiting idx) -> k = k') /\
    (forall k idx,
       workers p !! k = Some (Awaiting idx) -> out p !! idx = Some None) /\
    (forall j v,
       out p !! j = Some (Some v) -> exists x, items !! j = Some x /\ v = fn x j).
Proof.
  intros m p Hs. destruct (once_steps m p Hs) as (H1 & H2 & _ & H4). auto.
Qed.

(** X13.  With a limit of 0, or no items, no worker runs: [mapLimit] ends
    at once, [fn] is never called, and what it returns is an array of the
    length of the input that holds nothing. *)
Theorem mapLimit_no_worker :
  limit = 0 \/ items = [] ->
  workers init = [] /\
  (forall m p, steps m init p -> m = 0 /\ p = init) /\
  (forall result,
     mapLimit items limit fn result <-> result = replicate (length items) None).
Proof.
  intros Hz.
  assert (Hw : Nat.min limit (length items) = 0).
  { destruct Hz as [->| ->]; simpl; lia. }
  assert (Hinit : init = {| next := 0; out := replicate (length items) None;
                            workers := [] |}).
  { rewrite init_eq, Hw. reflexivity. }
  assert (Hst : forall m p, steps m init p -> m = 0 /\ p = init).
  { intros m p Hs. inversion Hs as [p0|m0 p0 q r Hs' Hstep]; subst; [auto|].
    rename Hs' into Hs0.
    destruct (invariant_steps items limit fn m0 q Hs0) as [Hinv _].
    pose proof (inv_workers _ _ _ _ Hinv) as Hlen. rewrite Hw in Hlen.
    destruct Hstep as [q k idx x Hk Hx].
    apply lookup_lt_Some in Hk. lia. }
  split; [rewrite Hinit; reflexivity|].
  split; [exact Hst|]. intros result. split.
  - intros (m & p & Hs & _ & <-). destruct (Hst m p Hs) as [_ ->].
    rewrite Hinit. reflexivity.
  - intros ->. exists 0, init. split; [apply steps_O|].
    rewrite Hinit. split; [constructor | reflexivity].
Qed.

End MapLimitCalls.

Lemma mapLimit_bounded_witness :
  Pool.awaiting (Pool.workers afterOne) <= 2 /\
  Pool.awaiting (Pool.workers afterOne) <= length sampleSymbols /\
  length (Pool.workers afterOne) <= 2 /\
  length (Pool.workers afterOne) <= length sampleSymbols.
Proof.
  apply (mapLimit_bounded sampleSymbols 2 tagged 1 afterOne).
  eapply Pool.steps_S; [apply Pool.steps_O|].
  apply (Pool.step_resume sampleSymbols tagged (Pool.init sampleSymbols 2)
           1 1 "btc.v"); reflexivity.
Defined.

Lemma mapLimit_each_item_once_witness :
  (forall k k' idx,
     Pool.workers afterOne !! k = Some (Pool.Awaiting idx) ->
     Pool.workers afterOne !! k' = Some (Pool.Awaiting idx) -> k = k') /\
  (forall k idx,
     Pool.workers afterOne !! k = Some (Pool.Awaiting idx) ->
     Pool.out afterOne !! idx = Some None) /\
  (forall j v,
     Pool.out afterOne !! j = Some (Some v) ->
     exists x, sampleSymbols !! j = Some x /\ v = tagged x j).
Proof.
  apply (mapLimit_each_item_once sampleSymbols 2 tagged 1 afterOne).
  eapply Pool.steps_S; [apply Pool.steps_O|].
  apply (Pool.step_resume sampleSymbols tagged (Pool.init sampleSymbols 2)
           1 1 "btc.v"); reflexivity.
Defined.

Lemma mapLimit_no_worker_witness :
  Pool.workers (Pool.init (R:=string * nat) sampleSymbols 0) = [] /\
  (forall m p,
     Pool.steps sampleSymbols tagged m (Pool.init sampleSymbols 0) p ->
     m = 0 /\ p = Pool.init sampleSymbols 0) /\
  (forall result,
     Pool.mapLimit sampleSymbols 0 tagged result <->
     result = replicate (length sampleSymbols) None).
Proof.
  apply (mapLimit_no_worker sampleSymbols 0 tagged). left. reflexivity.
Defined.

(** ** The symbols of the command line *)

Lemma splitOn_cons sep s : exists x l, splitOn sep s = x :: l.
Proof.
  induction s as [|c s (x & l & IH)]; simpl; [eauto|].
  destruct (Ascii.eqb c sep); [eauto|]. rewrite IH. eauto.
Qed.

(** The pieces of [split], joined by the separator, are the text, and no
    piece holds the separator. *)
Lemma splitOn_joinWith sep s :
  joinWith sep (splitOn sep s) = s /\
  Forall (fun x => forall a, In a (list_ascii_of_string x) -> a <> sep)
    (splitOn sep s).
Proof.
  induction s as [|c s [IHj IHf]]; simpl.
  - split; [reflexivity|]. constructor; [intros a []|constructor].
  - destruct (Ascii.eqb_spec c sep) as [->|Hne].
    + destruct (splitOn_cons sep s) as (x & l & E). rewrite E in *.
      split.
      * change (joinWith sep (EmptyString :: x :: l))
          with (EmptyString ++ String sep (joinWith sep (x :: l))).
        rewrite IHj. reflexivity.
      * constructor; [intros a []|exact IHf].
    + destruct (splitOn_cons sep s) as (x & l & E). rewrite E in *.
      apply Forall_cons in IHf. destruct IHf as [Hx Hl]. split.
      * destruct l as [|y l].
        -- simpl in *. rewrite IHj. reflexivity.
        -- change (joinWith sep (String c x :: y :: l))
             with (String c (x ++ String sep (joinWith sep (y :: l)))).
           change (joinWith sep (x :: y :: l))
             with (x ++ String sep (joinWith sep (y :: l))) in IHj.
           rewrite IHj. reflexivity.
      * constructor; [|exact Hl].
        intros a [<-|Ha]; [exact Hne | apply Hx; exact Ha].
Qed.

Lemma existsb_eqb_In x l : existsb (String.eqb x) l = true <-> In x l.
Proof.
  rewrite existsb_exists. split.
  - intros (y & Hy & E). apply String.eqb_eq in E. subst. exact Hy.
  - intros H. exists x. split; [exact H | apply String.eqb_refl].
Qed.

Lemma setAdd_In seen x y : In y (setAdd seen x) <-> In y seen \/ y = x.
Proof.
  unfold setAdd. destruct (existsb (String.eqb x) seen) eqn:E.
  - apply existsb_eqb_In in E. split; [auto|]. intros [H| ->]; assumption.
  - rewrite in_app_iff. simpl. split; intros [H|H]; auto.
    + destruct H as [<-|[]]. auto.
Qed.

Lemma setAdd_NoDup seen x : List.NoDup seen -> List.NoDup (setAdd seen x).
Proof.
  intros H. unfold setAdd. destruct (existsb (String.eqb x) seen) eqn:E; [exact H|].
  apply List.NoDup_app; [exact H | |].
  - constructor; [intros [] | constructor].
  - intros y Hy Hin. destruct Hin as [<-|[]].
    apply existsb_eqb_In in Hy. congruence.
Qed.

Lemma fold_setAdd l : forall acc,
  List.NoDup acc ->
  List.NoDup (fold_left setAdd l acc) /\
  forall y, In y (fold_left setAdd l acc) <-> In y acc \/ In y l.
Proof.
  induction l as [|x l IH]; intros acc Hacc; simpl.
  - split; [exact Hacc|]. intros y. tauto.
  - destruct (IH (setAdd acc x) (setAdd_NoDup acc x Hacc)) as [Hnd Hin].
    split; [exact Hnd|]. intros y. rewrite Hin, setAdd_In. intuition auto.
Qed.

Lemma setOf_spec l : List.NoDup (setOf l) /\ forall y, In y (setOf l) <-> In y l.
Proof.
  destruct (fold_setAdd l [] (List.NoDup_nil _)) as [Hnd Hin].
  split; [exact Hnd|]. intros y. rewrite (Hin y). simpl. tauto.
Qed.

Lemma nonEmpty_In l x : In x (nonEmpty l) <-> In x l /\ x <> EmptyString.
Proof.
  unfold nonEmpty. rewrite filter_In. destruct x; simpl.
  - split; [intros [_ H]; discriminate | intros [_ H]; contradiction].
  - split; intros [H _]; split; auto; discriminate.
Qed.

Lemma toLowerCase_empty s : JS.toLowerCase s = EmptyString <-> s = EmptyString.
Proof. destruct s; simpl; split; intros H; try reflexivity; discriminate. Qed.

(** The list that [parseSymbols] builds before it checks the length. *)
Lemma parseSymbols_uniq so slo :
  exists uniq,
    parseSymbols so slo
    = match uniq with
      | [] => Throw (External "no symbols provided (use --symbols or --symbol)")
      | _ :: _ => Ok uniq
      end /\
    List.NoDup uniq /\
    forall x, In x uniq <->
      x <> EmptyString /\ exists y, In y (requested so slo) /\ x = JS.toLowerCase y.
Proof.
  unfold parseSymbols.
  set (out := if truthy so then _ else _).
  exists (nonEmpty (setOf (map JS.toLowerCase out))).
  split; [reflexivity|]. destruct (setOf_spec (map JS.toLowerCase out)) as [Hnd Hin].
  split; [apply List.NoDup_filter; exact Hnd|].
  intros x. rewrite nonEmpty_In, Hin, in_map_iff.
  assert (Hout : forall y, y <> EmptyString -> (In y out <-> In y (requested so slo))).
  { intros y Hy. unfold out, requested.
    destruct so as [[|c s]|]; cbn [truthy JS.isEmpty negb].
    - rewrite in_app_iff. simpl. split; [auto|]. intros [H|[H|[]]]; [exact H|].
      symmetry in H. contradiction.
    - rewrite !in_app_iff, nonEmpty_In. tauto.
    - rewrite in_app_iff. simpl. tauto. }
  split.
  - intros [(y & <- & Hy) Hne]. split; [exact Hne|]. exists y. split; [|reflexivity].
    apply Hout; [|exact Hy]. intros ->. apply Hne. reflexivity.
  - intros [Hne (y & Hy & ->)]. split; [|exact Hne]. exists y. split; [reflexivity|].
    apply Hout; [|exact Hy]. intros ->. apply Hne. reflexivity.
Qed.

(** X14.  A list that [parseSymbols] returns is not empty and holds no
    symbol twice; each symbol in it is non-empty and in lower case. *)
Theorem parseSymbols_shape :
  forall (symbolsOpt : option string) (symbolListOpt : option (list string))
         (l : list string),
    parseSymbols symbolsOpt symbolListOpt = Ok l ->
    l <> [] /\ List.NoDup l /\
    Forall (fun s => s <> EmptyString /\ JS.toLowerCase s = s) l.
Proof.
  intros so slo l H.
  destruct (parseSymbols_uniq so slo) as (uniq & E & Hnd & Hin).
  rewrite H in E. destruct uniq as [|u uniq]; [discriminate|].
  injection E as ->. split; [discriminate|]. split; [exact Hnd|].
  apply List.Forall_forall. intros x Hx. apply Hin in Hx.
  destruct Hx as [Hne (y & _ & ->)]. split; [exact Hne|].
  apply toLowerCase_idem.
Qed.

Lemma parseSymbols_shape_witness :
  ["^spx"; "gc.f"; "btc.v"] <> [] /\ List.NoDup ["^spx"; "gc.f"; "btc.v"] /\
  Forall (fun s => s <> EmptyString /\ JS.toLowerCase s = s)
    ["^spx"; "gc.f"; "btc.v"].
Proof.
  apply (parseSymbols_shape (Some "GC.F, btc.v,,gc.f ") (Some ["^SPX"; "gc.f"])).
  vm_compute. reflexivity.
Defined.

(** X15.  The symbols that [parseSymbols] returns are the lower-case forms
    of the non-empty symbols asked for, that is, of the values of [--symbol]
    and of the trimmed pieces of [--symbols] between the commas; and it
    throws exactly when every symbol asked for is empty. *)
Theorem parseSymbols_members :
  forall (symbolsOpt : option string) (symbolListOpt : option (list string)),
    (forall l,
       parseSymbols symbolsOpt symbolListOpt = Ok l ->
       forall x, In x l <->
         x <> EmptyString /\
         exists y, In y (requested symbolsOpt symbolListOpt) /\ x = JS.toLowerCase y) /\
    ((exists e, parseSymbols symbolsOpt symbolListOpt = Throw e) <->
     forall y, In y (requested symbolsOpt symbolListOpt) -> y = EmptyString) /\
    (forall e,
       parseSymbols symbolsOpt symbolListOpt = Throw e ->
       e = External "no symbols provided (use --symbols or --symbol)").
Proof.
  intros so slo.
  destruct (parseSymbols_uniq so slo) as (uniq & E & Hnd & Hin).
  split; [|split].
  - intros l H. rewrite H in E. destruct uniq; [discriminate|].
    injection E as ->. exact Hin.
  - split.
    + intros [e H] y Hy. rewrite H in E. destruct uniq as [|u uniq]; [|discriminate].
      destruct y as [|c y]; [reflexivity|].
      destruct (proj2 (Hin (JS.toLowerCase (String c y)))) as [].
      split; [discriminate|]. exists (String c y). auto.
    + intros Hall. destruct uniq as [|u uniq]; [eauto|].
      destruct (proj1 (Hin u) (or_introl eq_refl)) as [Hne (y & Hy & ->)].
      rewrite (Hall y Hy) in Hne. contradiction.
  - intros e H. rewrite H in E. destruct uniq; [|discriminate]. congruence.
Qed.

Lemma parseSymbols_members_witness :
  In "gc.f" ["^spx"; "gc.f"; "btc.v"] <->
    "gc.f" <> EmptyString /\
    exists y, In y (requested (Some "GC.F, btc.v,,gc.f ") (Some ["^SPX"; "gc.f"])) /\
              "gc.f" = JS.toLowerCase y.
Proof.
  apply (proj1 (parseSymbols_members (Some "GC.F, btc.v,,gc.f ") (Some ["^SPX"; "gc.f"]))
           ["^spx"; "gc.f"; "btc.v"]).
  vm_compute. reflexivity.
Defined.

(** ** The table and the number of workers *)

Section TableProperties.

Variable numberToString : Num.num -> string.

(** X16.  The table has one row for each symbol of the run, in the order of
    the results, and each row has one cell for each column of the head.  The
    row of a failure shows its symbol and a dash in every other cell; the
    row of a success starts with the symbol of the record. *)
Theorem table_rows :
  forall results : list symbolResult,
    let rows := toTableRows numberToString (map normalized results) in
    length rows = length results /\
    Forall (fun row => length row = length tableHead) rows /\
    (forall i f,
       results !! i = Some (Failed f) ->
       rows !! i = Some (failed_symbol f :: replicate 11 "-")) /\
    (forall i q,
       results !! i = Some (Success q) ->
       exists cells, rows !! i = Some (symbol q :: cells)).
Proof.
  intros results rows. subst rows. unfold toTableRows.
  split; [rewrite !length_map; reflexivity|]. split; [|split].
  - apply List.Forall_forall. intros row Hin.
    apply in_map_iff in Hin. destruct Hin as (q & <- & _). reflexivity.
  - intros i f Hi.
    change (map ?g (map normalized results))
      with (g <$> (normalized <$> results)).
    rewrite !list_lookup_fmap, Hi. reflexivity.
  - intros i q Hi.
    change (map ?g (map normalized results))
      with (g <$> (normalized <$> results)).
    rewrite !list_lookup_fmap, Hi. simpl. eauto.
Qed.

End TableProperties.

Lemma table_rows_witness :
  toTableRows (fun _ => "?") (map normalized [Failed sampleFailure]) !! 0
  = Some (failed_symbol sampleFailure :: replicate 11 "-").
Proof.
  apply (proj1 (proj2 (proj2 (table_rows (fun _ => "?") [Failed sampleFailure])))
           0 sampleFailure).
  reflexivity.
Defined.

(** X17.  The number of workers that [main] asks for is a number, never
    NaN, and at least 1, whatever was given as [--concurrency]; a zero or
    NaN option counts as 4, and in [playwright] mode the number is 1. *)
Theorem effectiveConcurrency_at_least_one :
  forall (mode : string) (opt : Num.num),
    effectiveConcurrency mode opt <> S754_nan /\
    SFleb (Num.ofZ 1) (effectiveConcurrency mode opt) = true /\
    (mode = "playwright" -> effectiveConcurrency mode opt = Num.ofZ 1) /\
    (numTruthy opt = false -> concurrencyOf opt = Num.ofZ 4).
Proof.
  intros mode opt.
  assert (Hc : concurrencyOf opt <> S754_nan /\
               SFleb (Num.ofZ 1) (concurrencyOf opt) = true).
  { unfold concurrencyOf.
    destruct opt as [s|s| |s m e]; cbn [numTruthy].
    - split; [vm_compute; discriminate | vm_compute; reflexivity].
    - destruct s; split; vm_compute; try discriminate; reflexivity.
    - split; [vm_compute; discriminate | vm_compute; reflexivity].
    - unfold mathMax, SFleb.
      destruct (SFcompare (Num.ofZ 1) (S754_finite s m e)) as [[]|] eqn:E.
      + split; [vm_compute; discriminate | vm_compute; reflexivity].
      + rewrite E. split; [discriminate | reflexivity].
      + split; [vm_compute; discriminate | vm_compute; reflexivity].
      + vm_compute in E. destruct s; discriminate E. }
  unfold effectiveConcurrency. split; [|split; [|split]].
  - destruct (String.eqb mode "playwright"); [vm_compute; discriminate | apply Hc].
  - destruct (String.eqb mode "playwright"); [vm_compute; reflexivity | apply Hc].
  - intros ->. reflexivity.
  - intros H. destruct opt as [s|s| |s m e]; try discriminate H;
      vm_compute; reflexivity.
Qed.

(** ** Numbers that are not numbers *)

Lemma shr_1_nonneg mrs : (0 <= shr_m mrs)%Z -> (0 <= shr_m (shr_1 mrs))%Z.
Proof.
  destruct mrs as [m r s]. simpl.
  destruct m as [|[p|p|]|[p|p|]]; simpl; lia.
Qed.

Lemma iter_shr_1_nonneg p : forall mrs,
  (0 <= shr_m mrs)%Z -> (0 <= shr_m (SpecFloat.iter_pos shr_1 p mrs))%Z.
Proof.
  induction p as [p IH|p IH|]; intros mrs H; simpl.
  - apply IH, IH, shr_1_nonneg, H.
  - apply IH, IH, H.
  - apply shr_1_nonneg, H.
Qed.

Lemma shr_fexp_nonneg m e l :
  (0 <= m)%Z -> (0 <= shr_m (fst (shr_fexp Num.prec Num.emax m e l)))%Z.
Proof.
  intros H. unfold shr_fexp, shr.
  assert (H0 : (0 <= shr_m (shr_record_of_loc m l))%Z).
  { destruct l as [|[]]; exact H. }
  destruct (fexp Num.prec Num.emax (Zdigits2 m + e) - e)%Z; simpl;
    [exact H0 | apply iter_shr_1_nonneg; exact H0 | exact H0].
Qed.

Lemma round_nearest_even_nonneg m l : (0 <= m)%Z -> (0 <= round_nearest_even m l)%Z.
Proof.
  intros H. destruct l as [|[]]; simpl; try lia.
  destruct (Z.even m); lia.
Qed.

Lemma binary_round_aux_number sx mx ex lx :
  (0 <= mx)%Z -> binary_round_aux Num.prec Num.emax sx mx ex lx <> S754_nan.
Proof.
  intros H. unfold binary_round_aux.
  pose proof (shr_fexp_nonneg mx ex lx H) as H1.
  destruct (shr_fexp Num.prec Num.emax mx ex lx) as [mrs' e'].
  simpl in H1.
  pose proof (shr_fexp_nonneg _ e' loc_Exact
                (round_nearest_even_nonneg (shr_m mrs') (loc_of_shr_record mrs') H1))
    as H2.
  destruct (shr_fexp Num.prec Num.emax
              (round_nearest_even (shr_m mrs') (loc_of_shr_record mrs')) e' loc_Exact)
    as [mrs'' e''].
  simpl in H2.
  destruct (shr_m mrs'') as [|m|m]; [discriminate| |lia].
  destruct (e'' <=? Num.emax - Num.prec)%Z; discriminate.
Qed.

(** The product of two finite numbers is a number. *)
Lemma mul_number x y :
  Num.isFinite x = true -> Num.isFinite y = true -> Num.mul x y <> S754_nan.
Proof.
  destruct x as [sx|sx| |sx mx ex], y as [sy|sy| |sy my ey]; try discriminate;
    intros _ _; unfold Num.mul, SFmul; try discriminate.
  apply binary_round_aux_number. lia.
Qed.

Lemma isFinite_number x : Num.isFinite x = true -> x <> S754_nan.
Proof. destruct x; [discriminate..| |discriminate]. discriminate. Qed.

Lemma parseNumberLoose_number s n : parseNumberLoose s = Some n -> n <> S754_nan.
Proof.
  destruct s as [s|]; [|discriminate]. unfold parseNumberLoose.
  destruct (JS.isEmpty (JS.trim s)); [discriminate|].
  destruct (search false unitRegExp None (JS.trim s)) as [km|].
  - destruct (Num.isFinite (Num.Number (group 1 km))) eqn:E; [|discriminate].
    intros [= <-]. apply mul_number; [exact E|].
    destruct (String.eqb _ "k"); [reflexivity|].
    destruct (String.eqb _ "m"); reflexivity.
  - destruct (Num.isFinite (Num.Number (JS.stripCommasAndSpace (JS.trim s)))) eqn:E;
      [|discriminate].
    intros [= <-]. apply isFinite_number. exact E.
Qed.

(** X18.  A value that [parseNumberLoose] or [parsePctLoose] returns is
    never NaN: text that is not a number gives null.  A value read from a
    text without a unit suffix is finite. *)
Theorem parsed_numbers_are_numbers :
  forall (s : option string) (n : Num.num),
    (parseNumberLoose s = Some n -> n <> S754_nan) /\
    (parsePctLoose s = Some n -> n <> S754_nan) /\
    (forall t, s = Some t ->
       (forall numText u, ~ UnitForm (JS.trim t) numText u) ->
       parseNumberLoose s = Some n -> Num.isFinite n = true).
Proof.
  intros s n. split; [apply parseNumberLoose_number|]. split.
  - destruct s as [s|]; [|discriminate]. unfold parsePctLoose.
    destruct (JS.isEmpty (JS.trim s)); [discriminate|].
    apply parseNumberLoose_number.
  - intros t -> Hnf.
    destruct (JS.trim t) as [|c r] eqn:Et.
    + unfold parseNumberLoose. rewrite Et. discriminate.
    + rewrite parseNumberLoose_plain.
      * unfold finiteOrNull. rewrite Et.
        destruct (Num.isFinite (Num.Number (JS.stripCommasAndSpace (String c r))))
          eqn:E; [|discriminate].
        intros [= <-]. exact E.
      * rewrite Et. discriminate.
      * rewrite Et. exact Hnf.
Qed.

Lemma parsed_numbers_are_numbers_witness : Num.ofZ 1500 <> S754_nan.
Proof.
  apply (proj1 (parsed_numbers_are_numbers (Some " 1.5k") (Num.ofZ 1500))).
  vm_compute. reflexivity.
Defined.

Lemma effectiveConcurrency_at_least_one_witness :
  effectiveConcurrency "playwright" (Num.ofZ 8) = Num.ofZ 1.
Proof.
  apply (proj1 (proj2 (proj2
           (effectiveConcurrency_at_least_one "playwright" (Num.ofZ 8))))).
  reflexivity.
Defined.

(** ** What the page script reads *)

Lemma firstElement_first d pre id post text :
  (forall c, In c pre -> d c = None) ->
  d id = Some text ->
  firstElement d (pre ++ id :: post)%list = (Some id, Some (JS.trim text)).
Proof.
  induction pre as [|c pre IH]; intros Hpre Hid; simpl.
  - rewrite Hid. reflexivity.
  - rewrite (Hpre c (or_introl eq_refl)). apply IH; [|exact Hid].
    intros c' Hc'. apply Hpre. right. exact Hc'.
Qed.

Lemma firstElement_none d ids :
  (forall c, In c ids -> d c = None) -> firstElement d ids = (None, None).
Proof.
  induction ids as [|c ids IH]; intros H; simpl; [reflexivity|].
  rewrite (H c (or_introl eq_refl)). apply IH.
  intros c' Hc'. apply H. right. exact Hc'.
Qed.

Lemma pageScript_last d s :
  raw_last_id (pageScript d s)
  = fst (firstElement d (lastIdCandidates (JS.toLowerCase s))) /\
  raw_last (pageScript d s)
  = snd (firstElement d (lastIdCandidates (JS.toLowerCase s))).
Proof.
  unfold pageScript.
  destruct (firstElement d (lastIdCandidates (JS.toLowerCase s))). split; reflexivity.
Qed.

Lemma firstElement_trimmed d ids v :
  snd (firstElement d ids) = Some v -> JS.trim v = v.
Proof.
  induction ids as [|c ids IH]; simpl; [discriminate|].
  destruct (d c) as [text|]; [|exact IH].
  simpl. intros [= <-]. apply trim_idem.
Qed.

(** X19.  The script run in the page takes the last price from the first
    of the candidate identifiers, in the order 2, 0, 3, 1, 4, ..., 9, for
    which the page has an element, and reports that identifier; with no such
    element both are null.  Every text it returns is trimmed. *)
Theorem pageScript_candidates :
  forall (d : dom) (s : string),
    (forall pre id post text,
       lastIdCandidates (JS.toLowerCase s) = (pre ++ id :: post)%list ->
       (forall c, In c pre -> d c = None) ->
       d id = Some text ->
       raw_last_id (pageScript d s) = Some id /\
       raw_last (pageScript d s) = Some (JS.trim text)) /\
    ((forall c, In c (lastIdCandidates (JS.toLowerCase s)) -> d c = None) ->
     raw_last_id (pageScript d s) = None /\ raw_last (pageScript d s) = None) /\
    (forall v,
       In (Some v)
          [raw_last (pageScript d s); raw_date (pageScript d s);
           raw_time (pageScript d s); raw_change (pageScript d s);
           raw_change_pct (pageScript d s); raw_high (pageScript d s);
           raw_low (pageScript d s); raw_open (pageScript d s);
           raw_prev (pageScript d s); raw_volume (pageScript d s);
           raw_turnover (pageScript d s)] ->
       JS.trim v = v).
Proof.
  intros d s. destruct (pageScript_last d s) as [Hid Hlast].
  split; [|split].
  - intros pre id post text Hc Hpre Hd. rewrite Hid, Hlast, Hc.
    rewrite (firstElement_first d pre id post text Hpre Hd). split; reflexivity.
  - intros Hnone. rewrite Hid, Hlast, (firstElement_none d _ Hnone).
    split; reflexivity.
  - intros v Hin. cbn [In] in Hin.
    destruct Hin as [H|Hin].
    { rewrite Hlast in H. apply (firstElement_trimmed d _ v H). }
    assert (Hf : forall code,
               option_map JS.trim (d ("aq_" ++ JS.toLowerCase s ++ code)) = Some v ->
               JS.trim v = v).
    { intros code H. destruct (d _); [|discriminate]. injection H as <-.
      apply trim_idem. }
    unfold pageScript in Hin.
    destruct (firstElement d (lastIdCandidates (JS.toLowerCase s))).
    cbn [raw_date raw_time raw_change raw_change_pct raw_high raw_low raw_open
         raw_prev raw_volume raw_turnover] in Hin.
    repeat (destruct Hin as [H|Hin]; [apply (Hf _ H)|]).
    destruct Hin.
Qed.

Lemma pageScript_candidates_witness :
  raw_last_id (pageScript sampleDom "GC.F") = Some "aq_gc.f_c2|3" /\
  raw_last (pageScript sampleDom "GC.F") = Some (JS.trim " 2034.5 ").
Proof.
  apply (proj1 (pageScript_candidates sampleDom "GC.F")
           [] "aq_gc.f_c2|3"
           (List.tl (lastIdCandidates (JS.toLowerCase "GC.F"))) " 2034.5 ").
  - reflexivity.
  - intros c [].
  - reflexivity.
Defined.

Lemma fetchQuoteViaPlaywright_teardown_witness :
  exists mid,
    snd (fetchQuoteViaPlaywright (fun s => s) slowSite "gc.f" 15000%N [])
    = ([] ++ [EvLaunch; EvNewPage] ++ mid ++ [EvPageClose; EvBrowserClose])%list /\
    fst (fetchQuoteViaPlaywright (fun s => s) slowSite "gc.f" 15000%N [])
    = match env_goto slowSite (quoteUrl (fun s => s) "gc.f") 15000%N with
      | Throw e => Throw e
      | Ok _ =>
          match env_page slowSite with
          | Throw e => Throw e
          | Ok d => Ok (pageScript d (JS.toLowerCase "gc.f"))
          end
      end.
Proof.
  apply (fetchQuoteViaPlaywright_teardown (fun s => s) slowSite 15000%N "gc.f" []);
    reflexivity.
Defined.
